(** * Caching bucket: cache-key codec, range merger, range cache engine,
      whole-object read cache and directory-listing cache.

    Shallow embedding of [pkg/store/cache/caching_bucket.go].  Go's [int64]
    and [int] are integers of [Z] with the two's-complement wrap-around
    written out ([wrap64]); a [[]byte] is [option (list byte)], [None] being
    the nil slice; a [map[K]V] is a [gmap]; the cache backend and the
    underlying bucket are explicit components of the state that every
    operation threads through.  Metrics and logging have no influence on any
    result and are left out. *)

From Stdlib Require Import ZArith Lia String Ascii List Bool.
From Stdlib.Strings Require Import Byte.
From stdpp Require Import base option list gmap strings.

Local Open Scope string_scope.
Local Open Scope list_scope.
Local Open Scope Z_scope.

(** ** Machine integers *)

Module Int64.

Definition min_int64 : Z := - 2 ^ 63.
Definition max_int64 : Z := 2 ^ 63 - 1.
Definition max_uint64 : Z := 2 ^ 64 - 1.

Definition in_range (z : Z) : Prop := min_int64 <= z <= max_int64.

(** Two's-complement reduction of a mathematical integer to [int64]. *)
Definition wrap64 (z : Z) : Z := (z + 2 ^ 63) mod 2 ^ 64 - 2 ^ 63.

Definition add64 (a b : Z) : Z := wrap64 (a + b).
Definition sub64 (a b : Z) : Z := wrap64 (a - b).
Definition mul64 (a b : Z) : Z := wrap64 (a * b).
(** Go's [/] and [%] truncate toward zero; the divisor is checked
    against zero by the callers (Go panics there). *)
Definition quot64 (a b : Z) : Z := wrap64 (Z.quot a b).
Definition rem64 (a b : Z) : Z := Z.rem a b.

End Int64.
Export Int64.

(** ** Errors *)

Inductive error : Type :=
| errObjNotFound
| ErrInvalidBucketCacheKeyFormat
| ErrInvalidBucketCacheKeyVerb
| ErrParseKeyInt
| io_EOF
| io_ErrUnexpectedEOF
| ctx_Canceled
| Errorf (msg : string)
| Wrapf (cause : error) (msg : string)
| ExternalErr (id : nat).

(** ** strconv and strings helpers used by the codec *)

Module Strconv.

Definition digit_char (d : Z) : ascii := ascii_of_nat (48 + Z.to_nat d).
Arguments digit_char : simpl never.

(** [formatBits], base 10: digits are produced least significant first and
    written right to left; the buffer bounds the number of digits. *)
Fixpoint format_digits (fuel : nat) (u : Z) (acc : string) : string :=
  match fuel with
  | O => acc
  | S fuel' =>
      if u <? 10 then String (digit_char u) acc
      else format_digits fuel' (u / 10) (String (digit_char (u mod 10)) acc)
  end.

(** [strconv.FormatInt(i, 10)], which is what the verb [%d] prints. *)
Definition FormatInt (i : Z) : string :=
  if i <? 0 then String "-"%char (format_digits 20 (- i) EmptyString)
  else format_digits 20 i EmptyString.

Definition digit_of (c : ascii) : option Z :=
  let n := Z.of_nat (nat_of_ascii c) in
  if (48 <=? n) && (n <=? 57) then Some (n - 48) else None.

(** The loop of [strconv.ParseUint(s, 10, 64)]: [None] is any error
    (syntax or range). *)
Fixpoint parse_uint_loop (s : string) (n : Z) : option Z :=
  match s with
  | EmptyString => Some n
  | String c s' =>
      match digit_of c with
      | None => None
      | Some d =>
          if n >=? max_uint64 / 10 + 1 then None
          else
            let n1 := n * 10 + d in
            if n1 >? max_uint64 then None else parse_uint_loop s' n1
      end
  end.

Definition ParseUint (s : string) : option Z :=
  match s with
  | EmptyString => None
  | _ => parse_uint_loop s 0
  end.

(** [strconv.ParseInt(s, 10, 64)]. *)
Definition ParseInt (s : string) : option Z :=
  match s with
  | EmptyString => None
  | String c s' =>
      let neg := Ascii.eqb c "-" in
      let body := if Ascii.eqb c "+" || neg then s' else s in
      match ParseUint body with
      | None => None
      | Some un =>
          let cutoff := 2 ^ 63 in
          if negb neg && (un >=? cutoff) then None
          else if neg && (un >? cutoff) then None
          else Some (if neg then - un else un)
      end
  end.

(** [strconv.ParseBool]. *)
Definition ParseBool (s : string) : option bool :=
  if String.eqb s "1" || String.eqb s "t" || String.eqb s "T"
     || String.eqb s "TRUE" || String.eqb s "true" || String.eqb s "True"
  then Some true
  else if String.eqb s "0" || String.eqb s "f" || String.eqb s "F"
     || String.eqb s "FALSE" || String.eqb s "false" || String.eqb s "False"
  then Some false
  else None.

(** [strconv.FormatBool]. *)
Definition FormatBool (b : bool) : string := if b then "true" else "false".

(** [strings.Split(s, ":")]: cuts at every colon, never returns an empty
    list. *)
Fixpoint split_colon (s : string) : list string :=
  match s with
  | EmptyString => [EmptyString]
  | String c s' =>
      if Ascii.eqb c ":" then EmptyString :: split_colon s'
      else match split_colon s' with
           | h :: t => String c h :: t
           | [] => [String c EmptyString]
           end
  end.

Fixpoint has_colon (s : string) : bool :=
  match s with
  | EmptyString => false
  | String c s' => Ascii.eqb c ":" || has_colon s'
  end.

End Strconv.
Export Strconv.

(** ** Cache-key codec *)

Definition VerbType := string.

Definition ExistsVerb : VerbType := "exists".
Definition ContentVerb : VerbType := "content".
Definition IterVerb : VerbType := "iter".
Definition AttributesVerb : VerbType := "attrs".
Definition SubrangeVerb : VerbType := "subrange".

Record BucketCacheKey : Type := mkKey {
  Verb : VerbType;
  Name : string;
  Start : Z;
  End_ : Z
}.

Definition zeroKey : BucketCacheKey := mkKey "" "" 0 0.

(** [BucketCacheKey.String]. *)
Definition BucketCacheKey_String (ck : BucketCacheKey) : string :=
  if (Start ck =? 0) && (End_ ck =? 0)
  then Verb ck +:+ ":" +:+ Name ck
  else Verb ck +:+ ":" +:+ Name ck +:+ ":" +:+ FormatInt (Start ck)
       +:+ ":" +:+ FormatInt (End_ ck).

Definition IsValidVerb (v : VerbType) : bool :=
  String.eqb v ExistsVerb || String.eqb v ContentVerb || String.eqb v IterVerb
  || String.eqb v AttributesVerb || String.eqb v SubrangeVerb.

(** [ParseBucketCacheKey]: the key and the error, [None] being a nil
    error. *)
Definition ParseBucketCacheKey (key : string) : BucketCacheKey * option error :=
  let slice := split_colon key in
  if (Z.of_nat (length slice) <? 2) then (zeroKey, Some ErrInvalidBucketCacheKeyFormat)
  else
    let verb := nth 0 slice "" in
    if negb (IsValidVerb verb) then (zeroKey, Some ErrInvalidBucketCacheKeyVerb)
    else if String.eqb verb SubrangeVerb then
      if negb (Z.of_nat (length slice) =? 4)
      then (zeroKey, Some ErrInvalidBucketCacheKeyFormat)
      else
        match ParseInt (nth 2 slice "") with
        | None => (zeroKey, Some ErrParseKeyInt)
        | Some start =>
            match ParseInt (nth 3 slice "") with
            | None => (zeroKey, Some ErrParseKeyInt)
            | Some end_ => (mkKey verb (nth 1 slice "") start end_, None)
            end
        end
    else
      if negb (Z.of_nat (length slice) =? 2)
      then (zeroKey, Some ErrInvalidBucketCacheKeyFormat)
      else (mkKey verb (nth 1 slice "") 0 0, None).


(** ** State: cache backend and underlying bucket *)

(** A call made to the underlying bucket. *)
Inductive BucketCall : Type :=
| CallGet (name : string)
| CallGetRange (name : string) (off len : Z)
| CallExists (name : string)
| CallAttributes (name : string)
| CallIter (dir : string).

(** [objstore.ObjectAttributes]. *)
Record ObjectAttributes : Type := mkAttrs {
  Size : Z;
  LastModified : Z
}.

(** A stream handed out by the underlying bucket: what each successive
    [Read] returns (bytes and error), and what [Close] returns.  Past the
    end of the script a [Read] returns no bytes and [io.EOF]. *)
Record Stream : Type := mkStream {
  reads : list (list byte * option error);
  close_err : option error
}.

(** The underlying bucket, as the functions it answers with. *)
Record Bucket : Type := mkBucket {
  bkt_Get : string -> error + Stream;
  bkt_GetRange : string -> Z -> Z -> error + list byte;
  bkt_Exists : string -> error + bool;
  bkt_Attributes : string -> error + ObjectAttributes;
  bkt_Iter : string -> list string * option error;
  bkt_IsObjNotFoundErr : error -> bool
}.

(** [encoding/json] on [ObjectAttributes]; [None] is an error. *)
Record JSON : Type := mkJSON {
  json_Marshal : ObjectAttributes -> option (list byte);
  json_Unmarshal : option (list byte) -> option ObjectAttributes
}.

(** One [cache.Store] call: key, value and TTL. *)
Record StoreEvent : Type := mkStore {
  st_key : string;
  st_val : option (list byte);
  st_ttl : Z
}.

Record World : Type := mkWorld {
  cache : gmap string (option (list byte));
  stored : list StoreEvent;
  calls : list BucketCall
}.

(** Outcome of an operation: a value, a returned error, a run-time panic,
    or a loop that did not finish within the bound computed from its
    arguments. *)
Inductive result (A : Type) : Type :=
| Ok (a : A)
| Fail (e : error)
| Panic (msg : string)
| OutOfFuel.
Arguments Ok {A} a.
Arguments Fail {A} e.
Arguments Panic {A} msg.
Arguments OutOfFuel {A}.

Definition M (A : Type) : Type := World -> result A * World.

#[global] Instance M_ret : MRet M := fun A a w => (Ok a, w).
#[global] Instance M_bind : MBind M := fun A B f m w =>
  match m w with
  | (Ok a, w') => f a w'
  | (Fail e, w') => (Fail e, w')
  | (Panic msg, w') => (Panic msg, w')
  | (OutOfFuel, w') => (OutOfFuel, w')
  end.

Definition fail {A} (e : error) : M A := fun w => (Fail e, w).
Definition panic {A} (msg : string) : M A := fun w => (Panic msg, w).
Definition outOfFuel {A} : M A := fun w => (OutOfFuel, w).

Definition logCall (c : BucketCall) : M unit := fun w =>
  (Ok tt, mkWorld (cache w) (stored w) (calls w ++ [c])).

(** Go's [m[k]] on a [map[string][]byte]: nil when the key is absent. *)
Definition at_key (m : gmap string (option (list byte))) (k : string) : option (list byte) :=
  match m !! k with
  | Some v => v
  | None => None
  end.

(** Go's [m[k]] on a [map[int64]string]: the empty string when absent. *)
Definition key_at (m : gmap Z string) (off : Z) : string :=
  match m !! off with
  | Some k => k
  | None => ""
  end.

Definition len (b : option (list byte)) : Z :=
  match b with
  | Some l => Z.of_nat (length l)
  | None => 0
  end.

(** [cache.Fetch]: the entries of the backend under the requested keys. *)
Definition fetch_map (c : gmap string (option (list byte))) (keys : list string)
  : gmap string (option (list byte)) :=
  foldr (fun k acc => match c !! k with
                      | Some v => <[k := v]> acc
                      | None => acc
                      end) ∅ keys.

Definition cacheFetch (keys : list string) : M (gmap string (option (list byte))) :=
  fun w => (Ok (fetch_map (cache w) keys), w).

(** [cache.Store] of a one-entry map. *)
Definition cacheStore (k : string) (v : option (list byte)) (ttl : Z) : M unit := fun w =>
  (Ok tt, mkWorld (<[k := v]> (cache w)) (stored w ++ [mkStore k v ttl]) (calls w)).

(** ** Configuration (declared outside this file: taken as data) *)

Record getRangeConfig : Type := mkRangeCfg {
  subrangeSize : Z;
  maxSubRequests : Z;
  attributesTTL : Z;
  subrangeTTL : Z
}.

Record getConfig : Type := mkGetCfg {
  existsTTL : Z;
  doesntExistTTL : Z;
  contentTTL : Z;
  maxCacheableSize : Z
}.

Record existsConfig : Type := mkExistsCfg {
  ex_existsTTL : Z;
  ex_doesntExistTTL : Z
}.

Record iterConfig : Type := mkIterCfg {
  iter_ttl : Z;
  codec_Encode : list string -> error + option (list byte);
  codec_Decode : list byte -> error + list string
}.

Record CachingBucketConfig : Type := mkCfg {
  findIterConfig : string -> option iterConfig;
  findExistConfig : string -> option existsConfig;
  findGetConfig : string -> option getConfig;
  findGetRangeConfig : string -> option getRangeConfig;
  findAttributesConfig : string -> option Z
}.

Record CachingBucket : Type := mkCB {
  cb_Bucket : Bucket;
  cb_cfg : CachingBucketConfig;
  cb_json : JSON
}.

(** ** Range merger *)

Record rng : Type := mkRng { rng_start : Z; rng_end : Z }.

(** The loop of [mergeRanges]: [last] is [input[last]], the entries before
    it are final, [rest] is [input[ix:]]. *)
Fixpoint merge_loop (limit : Z) (last : rng) (rest : list rng) : list rng :=
  match rest with
  | [] => [last]
  | r :: rest' =>
      if sub64 (rng_start r) (rng_end last) <=? limit
      then merge_loop limit (mkRng (rng_start last) (rng_end r)) rest'
      else last :: merge_loop limit r rest'
  end.

Definition mergeRanges (input : list rng) (limit : Z) : list rng :=
  match input with
  | [] => []
  | r :: rest => merge_loop limit r rest
  end.

(** The re-merge loop of [fetchMissingSubranges]: [None] when it has not
    stopped after [fuel] rounds. *)
Fixpoint mergeUntil (fuel : nat) (maxSub limit : Z) (missing : list rng) : option (list rng) :=
  if (maxSub >? 0) && (Z.of_nat (length missing) >? maxSub) then
    match fuel with
    | O => None
    | S fuel' => mergeUntil fuel' maxSub (mul64 limit 2) (mergeRanges missing limit)
    end
  else Some missing.

(** ** Existence / attributes cache *)

Definition wrapErr {A} (msg : string) (m : M A) : M A := fun w =>
  match m w with
  | (Fail e, w') => (Fail (Wrapf e msg), w')
  | r => r
  end.

Definition keyString (verb : VerbType) (name : string) : string :=
  BucketCacheKey_String (mkKey verb name 0 0).

(** [storeExistsCacheEntry]; [elapsed] is what [time.Since(ts)] returns. *)
Definition storeExistsCacheEntry (cachingKey : string) (exists_ : bool) (elapsed : Z)
    (existsTTL doesntExistTTL : Z) : M unit :=
  let ttl := if exists_ then sub64 existsTTL elapsed else sub64 doesntExistTTL elapsed in
  if ttl >? 0
  then cacheStore cachingKey (Some (list_byte_of_string (FormatBool exists_))) ttl
  else mret tt.

(** [CachingBucket.Exists]. *)
Definition Exists (cb : CachingBucket) (name : string) (elapsed : Z) : M bool :=
  match findExistConfig (cb_cfg cb) name with
  | None =>
      _ ← logCall (CallExists name);
      match bkt_Exists (cb_Bucket cb) name with
      | inl err => fail err
      | inr ok => mret ok
      end
  | Some cfg =>
      let key := keyString ExistsVerb name in
      hits ← cacheFetch [key];
      match (match at_key hits key with
             | Some ex => ParseBool (string_of_list_byte ex)
             | None => None
             end) with
      | Some exists_ => mret exists_
      | None =>
          _ ← logCall (CallExists name);
          match bkt_Exists (cb_Bucket cb) name with
          | inl err => fail err
          | inr ok =>
              _ ← storeExistsCacheEntry key ok elapsed (ex_existsTTL cfg) (ex_doesntExistTTL cfg);
              mret ok
          end
      end
  end.

(** [CachingBucket.cachedAttributes]. *)
Definition cachedAttributes (cb : CachingBucket) (name : string) (ttl : Z) : M ObjectAttributes :=
  let key := keyString AttributesVerb name in
  hits ← cacheFetch [key];
  match (match hits !! key with
         | Some raw => json_Unmarshal (cb_json cb) raw
         | None => None
         end) with
  | Some attrs => mret attrs
  | None =>
      _ ← logCall (CallAttributes name);
      match bkt_Attributes (cb_Bucket cb) name with
      | inl err => fail err
      | inr attrs =>
          match json_Marshal (cb_json cb) attrs with
          | Some raw => _ ← cacheStore key (Some raw) ttl; mret attrs
          | None => mret attrs
          end
      end
  end.

(** [CachingBucket.Attributes]. *)
Definition Attributes (cb : CachingBucket) (name : string) : M ObjectAttributes :=
  match findAttributesConfig (cb_cfg cb) name with
  | None =>
      _ ← logCall (CallAttributes name);
      match bkt_Attributes (cb_Bucket cb) name with
      | inl err => fail err
      | inr attrs => mret attrs
      end
  | Some ttl => cachedAttributes cb name ttl
  end.

(** [CachingBucket.IsObjNotFoundErr]: identity with the package's own
    sentinel, or the bucket's predicate. *)
Definition IsObjNotFoundErr (cb : CachingBucket) (err : error) : bool :=
  match err with
  | errObjNotFound => true
  | _ => bkt_IsObjNotFoundErr (cb_Bucket cb) err
  end.

(** ** Whole-object read cache *)

(** [getReader]: [gr_buf] is [None] once the buffer pointer is nil. *)
Record getReader : Type := mkGetReader {
  gr_r : Stream;
  gr_buf : option (list byte);
  gr_ttl : Z;
  gr_cacheKey : string;
  gr_maxSize : Z
}.

(** [bytes.Buffer.Bytes]: a buffer never written to yields the nil slice. *)
Definition buffer_Bytes (content : list byte) : option (list byte) :=
  match content with
  | [] => None
  | _ => Some content
  end.

(** One [Read] on the underlying stream. *)
Definition stream_Read (s : Stream) : (list byte * option error) * Stream :=
  match reads s with
  | [] => (([], Some io_EOF), s)
  | r :: rest => (r, mkStream rest (close_err s))
  end.

(** [getReader.Read]; [elapsed] is what [time.Since(g.startTime)] returns
    should the end of the stream be reached in this call. *)
Definition getReader_Read (g : getReader) (elapsed : Z)
  : M ((list byte * option error) * getReader) :=
  let '((data, err), r') := stream_Read (gr_r g) in
  let n := Z.of_nat (length data) in
  let buf1 :=
    match gr_buf g with
    | Some content =>
        if n >? 0 then
          if Z.of_nat (length content) + n <=? gr_maxSize g
          then Some (content ++ data)
          else None
        else Some content
    | None => None
    end in
  match err, buf1 with
  | Some io_EOF, Some content =>
      let remainingTTL := sub64 (gr_ttl g) elapsed in
      _ ← (if remainingTTL >? 0
           then cacheStore (gr_cacheKey g) (buffer_Bytes content) remainingTTL
           else mret tt);
      mret ((data, err), mkGetReader r' None (gr_ttl g) (gr_cacheKey g) (gr_maxSize g))
  | _, _ =>
      mret ((data, err), mkGetReader r' buf1 (gr_ttl g) (gr_cacheKey g) (gr_maxSize g))
  end.

(** [getReader.Close]. *)
Definition getReader_Close (g : getReader) : M (option error * getReader) :=
  mret (close_err (gr_r g),
        mkGetReader (gr_r g) None (gr_ttl g) (gr_cacheKey g) (gr_maxSize g)).

(** What [Get] hands back. *)
Inductive GetResult : Type :=
| BytesReader (content : list byte)
| CaptureReader (g : getReader)
| BucketReader (s : Stream).

(** The test of [Get] on the cached [exists] entry. *)
Definition knownAbsent (ex : option (list byte)) : bool :=
  match ex with
  | Some raw =>
      match ParseBool (string_of_list_byte raw) with
      | Some false => true
      | _ => false
      end
  | None => false
  end.

(** [CachingBucket.Get]; [elapsed] is what [time.Since(getTime)] returns. *)
Definition Get (cb : CachingBucket) (name : string) (elapsed : Z) : M GetResult :=
  match findGetConfig (cb_cfg cb) name with
  | None =>
      _ ← logCall (CallGet name);
      match bkt_Get (cb_Bucket cb) name with
      | inl err => fail err
      | inr s => mret (BucketReader s)
      end
  | Some cfg =>
      let contentKey := keyString ContentVerb name in
      let existsKey := keyString ExistsVerb name in
      hits ← cacheFetch [contentKey; existsKey];
      match at_key hits contentKey with
      | Some content => mret (BytesReader content)
      | None =>
          if knownAbsent (at_key hits existsKey) then fail errObjNotFound
          else
            _ ← logCall (CallGet name);
            match bkt_Get (cb_Bucket cb) name with
            | inl err =>
                _ ← (if bkt_IsObjNotFoundErr (cb_Bucket cb) err
                     then storeExistsCacheEntry existsKey false elapsed
                            (existsTTL cfg) (doesntExistTTL cfg)
                     else mret tt);
                fail err
            | inr reader =>
                _ ← storeExistsCacheEntry existsKey true elapsed
                      (existsTTL cfg) (doesntExistTTL cfg);
                mret (CaptureReader
                        (mkGetReader reader (Some []) (contentTTL cfg) contentKey
                                     (maxCacheableSize cfg)))
            end
      end
  end.

(** ** Directory-listing cache *)

(** The visitor is a function from a name to the error it returns. *)
Fixpoint visit (f : string -> option error) (l : list string) : option error :=
  match l with
  | [] => None
  | s :: l' =>
      match f s with
      | Some e => Some e
      | None => visit f l'
      end
  end.

(** The names handed to the visitor until it returns an error. *)
Fixpoint visited (f : string -> option error) (l : list string) : list string :=
  match l with
  | [] => []
  | s :: l' =>
      s :: match f s with
           | Some _ => []
           | None => visited f l'
           end
  end.

(** The underlying [Iter]: the bucket calls the visitor on its entries in
    order and returns the first error of the visitor, or else its own. *)
Definition bucketIter (b : Bucket) (dir : string) (f : string -> option error)
  : option error :=
  match visit f (fst (bkt_Iter b dir)) with
  | Some e => Some e
  | None => snd (bkt_Iter b dir)
  end.

Definition returnErr (err : option error) : M unit :=
  match err with
  | Some e => fail e
  | None => mret tt
  end.

(** [CachingBucket.Iter]; [elapsed] is what [time.Since(iterTime)]
    returns. *)
Definition Iter (cb : CachingBucket) (dir : string) (f : string -> option error)
    (elapsed : Z) : M unit :=
  match findIterConfig (cb_cfg cb) dir with
  | None =>
      _ ← logCall (CallIter dir);
      returnErr (bucketIter (cb_Bucket cb) dir f)
  | Some cfg =>
      let key := keyString IterVerb dir in
      data ← cacheFetch [key];
      match (match at_key data key with
             | Some raw =>
                 match codec_Decode cfg raw with
                 | inr names => Some names
                 | inl _ => None
                 end
             | None => None
             end) with
      | Some names => returnErr (visit f names)
      | None =>
          _ ← logCall (CallIter dir);
          let names := visited f (fst (bkt_Iter (cb_Bucket cb) dir)) in
          let err := bucketIter (cb_Bucket cb) dir f in
          let remainingTTL := sub64 (iter_ttl cfg) elapsed in
          match err, remainingTTL >? 0, codec_Encode cfg names with
          | None, true, inr data => cacheStore key data remainingTTL
          | _, _, _ => returnErr err
          end
      end
  end.

(** ** Range cache engine *)

(** Go's [buf[lo:hi]]; [None] is the out-of-range panic. *)
Definition slice_bytes (buf : list byte) (lo hi : Z) : option (list byte) :=
  if (0 <=? lo) && (lo <=? hi) && (hi <=? Z.of_nat (length buf))
  then Some (take (Z.to_nat (hi - lo)) (drop (Z.to_nat lo) buf))
  else None.

(** Rounds that a loop [for off := from; off < to; off += step] needs when
    no offset wraps around. *)
Definition loopBound (from to step : Z) : nat := Z.to_nat ((to - from) / step + 1).

Definition subrangeKey (name : string) (size sz off : Z) : string :=
  let end_ := add64 off sz in
  let end_ := if end_ >? size then size else end_ in
  BucketCacheKey_String (mkKey SubrangeVerb name off end_).

(** The key-generation loop of [cachedGetRange]. *)
Fixpoint keyLoop (fuel : nat) (name : string) (size sz endRange off : Z)
    (keys : list string) (offsetKeys : gmap Z string)
  : option (list string * gmap Z string) :=
  if off <? endRange then
    match fuel with
    | O => None
    | S fuel' =>
        let k := subrangeKey name size sz off in
        keyLoop fuel' name size sz endRange (add64 off sz)
                (keys ++ [k]) (<[off := k]> offsetKeys)
    end
  else Some (keys, offsetKeys).

(** The first loop of [fetchMissingSubranges]: the ordered list of missing
    subranges. *)
Fixpoint missingLoop (fuel : nat) (sz endRange : Z) (cacheKeys : gmap Z string)
    (hits : gmap string (option (list byte))) (off : Z) (missing : list rng)
  : option (list rng) :=
  if off <? endRange then
    match fuel with
    | O => None
    | S fuel' =>
        missingLoop fuel' sz endRange cacheKeys hits (add64 off sz)
          (match at_key hits (key_at cacheKeys off) with
           | None => missing ++ [mkRng off (add64 off sz)]
           | Some _ => missing
           end)
    end
  else Some missing.

(** The slicing loop run for one fetched range [m]: each subrange piece
    goes into [hits] if its key is absent, and then into the cache. *)
Fixpoint storeLoop (fuel : nat) (cfg : getRangeConfig) (cacheKeys : gmap Z string)
    (lastSubrangeOffset lastSubrangeLength : Z) (m : rng) (buf : list byte)
    (off : Z) (hits : gmap string (option (list byte)))
  : M (gmap string (option (list byte))) :=
  if off <? rng_end m then
    match fuel with
    | O => outOfFuel
    | S fuel' =>
        let key := key_at cacheKeys off in
        if String.eqb key "" then fail (Errorf "caching key for offset not found")
        else
          let lo := sub64 off (rng_start m) in
          let hi := if off =? lastSubrangeOffset
                    then add64 lo lastSubrangeLength
                    else add64 lo (subrangeSize cfg) in
          match slice_bytes buf lo hi with
          | None => panic "slice bounds out of range"
          | Some subrangeData =>
              match hits !! key with
              | None =>
                  _ ← cacheStore key (Some subrangeData) (subrangeTTL cfg);
                  storeLoop fuel' cfg cacheKeys lastSubrangeOffset lastSubrangeLength m buf
                            (add64 off (subrangeSize cfg)) (<[key := Some subrangeData]> hits)
              | Some _ =>
                  storeLoop fuel' cfg cacheKeys lastSubrangeOffset lastSubrangeLength m buf
                            (add64 off (subrangeSize cfg)) hits
              end
          end
    end
  else mret hits.

(** The body run for one missing range: fetch it from the bucket, read it
    fully, slice it. *)
Definition fetchRange (cb : CachingBucket) (name : string) (cfg : getRangeConfig)
    (cacheKeys : gmap Z string) (lastSubrangeOffset lastSubrangeLength : Z)
    (m : rng) (hits : gmap string (option (list byte)))
  : M (gmap string (option (list byte))) :=
  let length := sub64 (rng_end m) (rng_start m) in
  _ ← logCall (CallGetRange name (rng_start m) length);
  match bkt_GetRange (cb_Bucket cb) name (rng_start m) length with
  | inl err => fail (Wrapf err "fetching range")
  | inr data =>
      let bufSize :=
        if lastSubrangeOffset >=? rng_end m then length
        else add64 (sub64 length (subrangeSize cfg)) lastSubrangeLength in
      if bufSize <? 0 then panic "makeslice: len out of range"
      else if Z.of_nat (List.length data) <? bufSize
      then fail (Wrapf (if Z.of_nat (List.length data) =? 0 then io_EOF else io_ErrUnexpectedEOF)
                       "fetching range")
      else
        storeLoop (loopBound (rng_start m) (rng_end m) (subrangeSize cfg)) cfg cacheKeys
                  lastSubrangeOffset lastSubrangeLength m
                  (take (Z.to_nat bufSize) data) (rng_start m) hits
  end.

(** The ranges are fetched one after the other, in order; the first
    failure ends the group. *)
Fixpoint fetchRanges (cb : CachingBucket) (name : string) (cfg : getRangeConfig)
    (cacheKeys : gmap Z string) (lastSubrangeOffset lastSubrangeLength : Z)
    (missing : list rng) (hits : gmap string (option (list byte)))
  : M (gmap string (option (list byte))) :=
  match missing with
  | [] => mret hits
  | m :: rest =>
      hits' ← fetchRange cb name cfg cacheKeys lastSubrangeOffset lastSubrangeLength m hits;
      fetchRanges cb name cfg cacheKeys lastSubrangeOffset lastSubrangeLength rest hits'
  end.

(** [CachingBucket.fetchMissingSubranges]: the map [hits] it fills, or its
    error. *)
Definition fetchMissingSubranges (cb : CachingBucket) (name : string)
    (startRange endRange : Z) (cacheKeys : gmap Z string)
    (hits : gmap string (option (list byte)))
    (lastSubrangeOffset lastSubrangeLength : Z) (cfg : getRangeConfig)
  : M (gmap string (option (list byte))) :=
  match missingLoop (loopBound startRange endRange (subrangeSize cfg)) (subrangeSize cfg)
                    endRange cacheKeys hits startRange [] with
  | None => outOfFuel
  | Some missing =>
      let missing := mergeRanges missing 0 in
      match mergeUntil (66 + List.length missing) (maxSubRequests cfg) (subrangeSize cfg) missing with
      | None => outOfFuel
      | Some missing =>
          fetchRanges cb name cfg cacheKeys lastSubrangeOffset lastSubrangeLength missing hits
      end
  end.

(** [subrangesReader]. *)
Record subrangesReader : Type := mkSubrangesReader {
  sr_subrangeSize : Z;
  offsetsKeys : gmap Z string;
  subranges : gmap string (option (list byte));
  readOffset : Z;
  remaining : Z
}.

Definition newSubrangesReader (sz : Z) (offsetsKeys : gmap Z string)
    (subranges : gmap string (option (list byte))) (readOffset remaining : Z)
  : subrangesReader :=
  mkSubrangesReader sz offsetsKeys subranges readOffset remaining.

(** [subrangesReader.Read] into a buffer of [plen] bytes: the bytes copied
    ([Ok]), [io.EOF] or another error ([Fail]). *)
Definition subrangesReader_Read (c : subrangesReader) (plen : Z)
  : result (list byte) * subrangesReader :=
  if remaining c <=? 0 then (Fail io_EOF, c)
  else if sr_subrangeSize c =? 0 then (Panic "integer divide by zero", c)
  else
    let currentSubrangeOffset :=
      mul64 (quot64 (readOffset c) (sr_subrangeSize c)) (sr_subrangeSize c) in
    match at_key (subranges c) (key_at (offsetsKeys c) currentSubrangeOffset) with
    | None => (Fail (Wrapf (Errorf "subrange for offset not found") "read position"), c)
    | Some currentSubrange =>
        let offsetInSubrange := sub64 (readOffset c) currentSubrangeOffset in
        let toCopy := sub64 (Z.of_nat (List.length currentSubrange)) offsetInSubrange in
        if toCopy <=? 0 then (Fail (Errorf "no more data left in subrange"), c)
        else
          let toCopy := if plen <? toCopy then plen else toCopy in
          let toCopy := if remaining c <? toCopy then remaining c else toCopy in
          match slice_bytes currentSubrange offsetInSubrange (add64 offsetInSubrange toCopy) with
          | None => (Panic "slice bounds out of range", c)
          | Some data =>
              (Ok data,
               mkSubrangesReader (sr_subrangeSize c) (offsetsKeys c) (subranges c)
                 (add64 (readOffset c) toCopy) (sub64 (remaining c) toCopy))
          end
    end.

(** Reading the reader to its end with buffers of [plen] bytes, as
    [io.ReadAll] does: the bytes, or the first error other than
    [io.EOF]. *)
Fixpoint readAll (fuel : nat) (c : subrangesReader) (plen : Z) : result (list byte) :=
  match subrangesReader_Read c plen with
  | (Fail io_EOF, _) => Ok []
  | (Fail e, _) => Fail e
  | (Panic msg, _) => Panic msg
  | (OutOfFuel, _) => OutOfFuel
  | (Ok data, c') =>
      match fuel with
      | O => OutOfFuel
      | S fuel' =>
          match readAll fuel' c' plen with
          | Ok rest => Ok (data ++ rest)
          | r => r
          end
      end
  end.

(** [CachingBucket.cachedGetRange]. *)
Definition cachedGetRange (cb : CachingBucket) (name : string) (offset length : Z)
    (cfg : getRangeConfig) : M subrangesReader :=
  attrs ← wrapErr "failed to get object attributes"
            (cachedAttributes cb name (attributesTTL cfg));
  let length := if add64 offset length >? Size attrs
                then sub64 (Size attrs) offset else length in
  let sz := subrangeSize cfg in
  if sz =? 0 then panic "integer divide by zero"
  else
    let startRange := mul64 (quot64 offset sz) sz in
    let endRange := mul64 (quot64 (add64 offset length) sz) sz in
    let endRange := if rem64 (add64 offset length) sz >? 0
                    then add64 endRange sz else endRange in
    let lastSubrangeOffset :=
      if endRange >? Size attrs then mul64 (quot64 (Size attrs) sz) sz
      else sub64 endRange sz in
    let lastSubrangeLength :=
      if endRange >? Size attrs then sub64 (Size attrs) lastSubrangeOffset
      else sz in
    let numSubranges := quot64 (sub64 endRange startRange) sz in
    if numSubranges <? 0 then panic "makeslice: cap out of range"
    else
      match keyLoop (loopBound startRange endRange sz) name (Size attrs) sz endRange
                    startRange [] ∅ with
      | None => outOfFuel
      | Some (keys, offsetKeys) =>
          hits ← cacheFetch keys;
          hits ← (if Z.of_nat (size hits) <? Z.of_nat (List.length keys)
                  then fetchMissingSubranges cb name startRange endRange offsetKeys hits
                         lastSubrangeOffset lastSubrangeLength cfg
                  else mret hits);
          mret (newSubrangesReader sz offsetKeys hits offset length)
      end.

(** What [GetRange] hands back: the assembling reader, or the stream of
    the underlying bucket. *)
Inductive RangeResult : Type :=
| SubrangesReader (r : subrangesReader)
| BucketRange (data : list byte).

(** [CachingBucket.GetRange]. *)
Definition GetRange (cb : CachingBucket) (name : string) (off length : Z) : M RangeResult :=
  let passthrough : M RangeResult :=
    _ ← logCall (CallGetRange name off length);
    match bkt_GetRange (cb_Bucket cb) name off length with
    | inl err => fail err
    | inr data => mret (BucketRange data)
    end in
  if (off <? 0) || (length <=? 0) then passthrough
  else
    match findGetRangeConfig (cb_cfg cb) name with
    | None => passthrough
    | Some cfg =>
        r ← cachedGetRange cb name off length cfg;
        mret (SubrangesReader r)
    end.

(** ** Predicates used to state the properties *)

(** Gaps are sorted by start and do not overlap: each gap starts at or
    after the end of the one before, and no gap ends before it starts. *)
Fixpoint sorted_from (prev : Z) (l : list rng) : bool :=
  match l with
  | [] => true
  | r :: l' =>
      (prev <=? rng_start r) && (rng_start r <=? rng_end r) && sorted_from (rng_end r) l'
  end.

Definition sorted_gaps (l : list rng) : bool :=
  match l with
  | [] => true
  | r :: l' => sorted_from (rng_start r) l
  end.

(** Every gap lies within [[lo, hi]]. *)
Definition within (lo hi : Z) (l : list rng) : bool :=
  forallb (fun r => (lo <=? rng_start r) && (rng_end r <=? hi)) l.

(** Total number of bytes covered by a list of gaps. *)
Fixpoint total_length (l : list rng) : Z :=
  match l with
  | [] => 0
  | r :: l' => (rng_end r - rng_start r) + total_length l'
  end.

(** Successive gaps are further apart than the tolerance, as the merger
    measures it. *)
Fixpoint apart_from (limit : Z) (prev : rng) (l : list rng) : Prop :=
  match l with
  | [] => True
  | r :: l' => limit < sub64 (rng_start r) (rng_end prev) /\ apart_from limit r l'
  end.

(** The tolerances that the doubling of a tolerance of one runs through:
    the powers of two up to [2 ^ 62], then the wrapped [- 2 ^ 63], then
    zero for ever. *)
Definition doubled_from_one (limit : Z) : Prop :=
  limit = 0 \/ limit = - 2 ^ 63 \/ exists k, 0 <= k <= 62 /\ limit = 2 ^ k.

(** ** Driving the capturing reader *)

Inductive action : Type :=
| ActRead (elapsed : Z)
| ActClose.

(** A caller's sequence of [Read] and [Close] calls on a [getReader]: what
    the reads returned, and the reader left behind. *)
Fixpoint getReader_run (g : getReader) (acts : list action)
  : M (list (list byte * option error) * getReader) :=
  match acts with
  | [] => mret ([], g)
  | ActRead elapsed :: rest =>
      '(out, g') ← getReader_Read g elapsed;
      '(outs, g'') ← getReader_run g' rest;
      mret (out :: outs, g'')
  | ActClose :: rest =>
      '(_, g') ← getReader_Close g;
      getReader_run g' rest
  end.

(** What the underlying stream answers to the reads among [acts]. *)
Fixpoint answers (rs : list (list byte * option error)) (acts : list action)
  : list (list byte * option error) :=
  match acts with
  | [] => []
  | ActClose :: rest => answers rs rest
  | ActRead _ :: rest =>
      match rs with
      | [] => ([], Some io_EOF) :: answers [] rest
      | r :: rs' => r :: answers rs' rest
      end
  end.

Definition is_close (a : action) : bool :=
  match a with
  | ActClose => true
  | ActRead _ => false
  end.

Definition is_eof (r : list byte * option error) : bool :=
  match snd r with
  | Some io_EOF => true
  | _ => false
  end.

(** All the bytes of a list of answers, in order. *)
Definition bytes_of (ans : list (list byte * option error)) : list byte :=
  concat (map fst ans).

(** The caller reads the stream up to its end, which the read at
    [elapsed] reaches, without closing before, without the capture growing
    past the cap, and within the TTL; [pre] is what the caller did before
    that read. *)
Definition captured (rs : list (list byte * option error)) (maxSize ttl : Z)
    (acc : list byte) (pre : list action) (elapsed : Z) : Prop :=
  forallb (fun a => negb (is_close a)) pre = true
  /\ forallb (fun r => negb (is_eof r)) (answers rs pre) = true
  /\ is_eof (nth (length pre) rs ([], Some io_EOF)) = true
  /\ (bytes_of (answers rs (pre ++ [ActRead elapsed])) = []
      \/ Z.of_nat (length acc)
         + Z.of_nat (length (bytes_of (answers rs (pre ++ [ActRead elapsed])))) <= maxSize)
  /\ 0 < sub64 ttl elapsed.

(** ** Values used in the examples *)

Definition demo_object : list byte :=
  [x00; x01; x02; x03; x04; x05; x06; x07; x08; x09; x0a].

Definition demo_bucket : Bucket :=
  mkBucket
    (fun _ => inr (mkStream [([x00; x01], None); ([x02], Some io_EOF)] None))
    (fun _ off len => inr (take (Z.to_nat len) (drop (Z.to_nat off) demo_object)))
    (fun _ => inr true)
    (fun _ => inr (mkAttrs 11 0))
    (fun _ => (["a"; "b"; "c"], None))
    (fun _ => false).

Definition demo_json : JSON := mkJSON (fun _ => None) (fun _ => None).

Definition demo_codec_Encode (l : list string) : error + option (list byte) :=
  inr (Some (list_byte_of_string (String.concat "," l))).

Definition demo_cfg : CachingBucketConfig :=
  mkCfg (fun _ => Some (mkIterCfg 100 demo_codec_Encode (fun _ => inr ["a"; "b"; "c"])))
        (fun _ => Some (mkExistsCfg 100 100))
        (fun _ => Some (mkGetCfg 100 100 100 1000))
        (fun _ => Some (mkRangeCfg 3 2 100 100))
        (fun _ => Some 100).

Definition demo_cb : CachingBucket := mkCB demo_bucket demo_cfg demo_json.

Definition empty_world : World := mkWorld ∅ [] [].

(** A visitor that fails on the entry ["c"]. *)
Definition fails_on_c (s : string) : option error :=
  if String.eqb s "c" then Some (ExternalErr 7) else None.

(** The state after a [cache.Store] of one entry. *)
Definition store_in (w : World) (k : string) (v : option (list byte)) (ttl : Z) : World :=
  mkWorld (<[k := v]> (cache w)) (stored w ++ [mkStore k v ttl]) (calls w).


(** ** Ideal quantities of the range engine *)

(** The largest multiple of [sz] at or below [x], and the smallest at or
    above. *)
Definition alignDown (sz x : Z) : Z := x / sz * sz.
Definition alignUp (sz x : Z) : Z := (x + sz - 1) / sz * sz.

(** The bytes [[off, off + len)] of an object, cut at its end. *)
Definition window (obj : list byte) (off len : Z) : list byte :=
  take (Z.to_nat len) (drop (Z.to_nat off) obj).

(** The offsets [off], [off + sz], ... below [endRange], at most [n] of
    them. *)
Fixpoint gridOffsets (n : nat) (off endRange sz : Z) : list Z :=
  match n with
  | O => []
  | S n' => if off <? endRange then off :: gridOffsets n' (off + sz) endRange sz else []
  end.

(** The one-subrange gaps at the offsets of [offs] that have no bytes in
    [hits]. *)
Definition gapsAt (sz : Z) (cacheKeys : gmap Z string)
    (hits : gmap string (option (list byte))) (offs : list Z) : list rng :=
  flat_map (fun x => match at_key hits (key_at cacheKeys x) with
                     | None => [mkRng x (x + sz)]
                     | Some _ => []
                     end) offs.

(** The map from offsets to keys that the key loop builds. *)
Definition insertKeys (name : string) (size sz : Z) (offs : list Z) (m : gmap Z string)
  : gmap Z string :=
  fold_left (fun acc x => <[x := subrangeKey name size sz x]> acc) offs m.

(** A gap whose ends lie on the grid of subrange offsets that starts at
    [base], between [base] and [hi]. *)
Definition onGrid (base sz hi : Z) (r : rng) : Prop :=
  base <= rng_start r /\ rng_end r <= hi
  /\ (exists k, rng_start r = base + k * sz)
  /\ (exists k, rng_end r = base + k * sz).

(** The offset [x] lies in one of the gaps. *)
Definition covered (l : list rng) (x : Z) : Prop :=
  exists r, In r l /\ rng_start r <= x < rng_end r.

(** Gaps as the engine handles them: sorted, on the grid, and covering
    the offsets [missing] has to cover. *)
Definition gaps_ok (base sz hi : Z) (need : Z -> Prop) (l : list rng) : Prop :=
  sorted_gaps l = true
  /\ Forall (onGrid base sz hi) l
  /\ forall x, need x -> covered l x.


(** A cache that answers the first subrange of ["o"] with a nil value. *)
Definition nil_entry_world : World :=
  mkWorld {[ "subrange:o:0:3" := None ]} [] [].

(** A fetch of the subranges at 3 and 6 of the example object, the first
    of them cached. *)
Definition demo_keys : gmap Z string :=
  {[ 3 := "subrange:o:3:6"; 6 := "subrange:o:6:9" ]}.

Definition demo_hits : gmap string (option (list byte)) :=
  {[ "subrange:o:3:6" := Some [x03; x04; x05] ]}.

Definition demo_fetch : result (gmap string (option (list byte))) * World :=
  fetchMissingSubranges demo_cb "o" 3 9 demo_keys demo_hits 6 3
    (mkRangeCfg 3 2 100 100) empty_world.

Definition demo_fetch_hits : gmap string (option (list byte)) :=
  match fst demo_fetch with
  | Ok hits' => hits'
  | _ => ∅
  end.


(** The subrange entries of a map of bytes (the cache, or the hits of one
    call) agree with the object: under the key of an aligned offset there
    are the bytes of the object from that offset, one subrange long or up to
    the end of the object. *)
Definition consistent (name : string) (obj : list byte) (sz : Z)
    (m : gmap string (option (list byte))) : Prop :=
  forall x v,
    0 <= x < Z.of_nat (length obj) -> x mod sz = 0 ->
    m !! subrangeKey name (Z.of_nat (length obj)) sz x = Some v ->
    v = Some (window obj x sz).

(** Reading a [subrangesReader] to its end, with buffers of any positive
    sizes: the bytes that the reads return, up to the read that reports
    [io.EOF]. *)
Inductive drains : subrangesReader -> list byte -> Prop :=
| drains_eof (r : subrangesReader) (plen : Z) :
    0 < plen ->
    subrangesReader_Read r plen = (Fail io_EOF, r) -> drains r []
| drains_read (r r' : subrangesReader) (plen : Z) (data rest : list byte) :
    0 < plen ->
    subrangesReader_Read r plen = (Ok data, r') ->
    drains r' rest ->
    drains r (data ++ rest).

(** A cache that already holds the second subrange of the 11-byte object
    [demo_object], for 3-byte subranges. *)
Definition warm_world : World :=
  mkWorld {[ "subrange:o:3:6" := Some [x03; x04; x05] ]} [] [].


(** A bucket that holds no object: [Get] and [Attributes] fail with an
    error that its [IsObjNotFoundErr] recognises. *)
Definition absent_bucket : Bucket :=
  mkBucket
    (fun _ => inl (ExternalErr 404))
    (fun _ _ _ => inl (ExternalErr 404))
    (fun _ => inr false)
    (fun _ => inl (ExternalErr 404))
    (fun _ => ([], None))
    (fun e => match e with ExternalErr 404 => true | _ => false end).

Definition absent_cb : CachingBucket := mkCB absent_bucket demo_cfg demo_json.

(** A JSON codec for the examples: attributes are written as [{}], which
    reads back as the attributes of the 11-byte object. *)
Definition fixed_json : JSON :=
  mkJSON (fun _ => Some [x7b; x7d])
         (fun raw => match raw with
                     | Some [x7b; x7d] => Some (mkAttrs 11 0)
                     | _ => None
                     end).

Definition json_cb : CachingBucket := mkCB demo_bucket demo_cfg fixed_json.

(** How the map of hits and the cache move together while missing
    subranges are fetched, from [(hits, c)] to [(hits', c')]: [hits] only
    grows, and only by keys that satisfy [P]; an entry of the cache is as
    it was or is the entry of [hits'] under the same key; and if [hits] was
    part of the cache, [hits'] is part of it. *)
Definition cache_follows (P : string -> Prop)
    (hits c hits' c' : gmap string (option (list byte))) : Prop :=
  (forall k v, hits !! k = Some v -> hits' !! k = Some v)
  /\ (forall k, is_Some (hits' !! k) -> is_Some (hits !! k) \/ P k)
  /\ (forall k, c' !! k = c !! k \/ (c' !! k = hits' !! k /\ is_Some (hits' !! k)))
  /\ ((forall k v, hits !! k = Some v -> c !! k = Some v) ->
      forall k v, hits' !! k = Some v -> c' !! k = Some v).

(** A cache that holds the second and the third subrange of the 11-byte
    object [demo_object], for 3-byte subranges. *)
Definition full_world : World :=
  mkWorld {[ "subrange:o:3:6" := Some [x03; x04; x05];
             "subrange:o:6:9" := Some [x06; x07; x08] ]} [] [].

(** * Properties *)

(** ** Machine integers *)

Lemma wrap64_id (z : Z) : in_range z -> wrap64 z = z.
Proof.
  unfold in_range, min_int64, max_int64, wrap64. intros H.
  rewrite Z.mod_small by lia. lia.
Qed.

Lemma wrap64_range (z : Z) : in_range (wrap64 z).
Proof.
  unfold in_range, min_int64, max_int64, wrap64.
  pose proof (Z.mod_pos_bound (z + 2 ^ 63) (2 ^ 64) ltac:(lia)). lia.
Qed.

(** ** Decimal printing and parsing *)

Lemma digit_cases (d : Z) :
  0 <= d <= 9 ->
  d = 0 \/ d = 1 \/ d = 2 \/ d = 3 \/ d = 4 \/ d = 5 \/ d = 6 \/ d = 7 \/ d = 8 \/ d = 9.
Proof. lia. Qed.

Ltac each_digit d H :=
  destruct (digit_cases d H) as [-> | [-> | [-> | [-> | [-> | [-> | [-> | [-> | [-> | ->]]]]]]]]].

Lemma digit_of_char (d : Z) : 0 <= d <= 9 -> digit_of (digit_char d) = Some d.
Proof. intros H. each_digit d H; reflexivity. Qed.

Lemma digit_char_plain (d : Z) :
  0 <= d <= 9 ->
  Ascii.eqb (digit_char d) ":" = false /\ Ascii.eqb (digit_char d) "-" = false
  /\ Ascii.eqb (digit_char d) "+" = false.
Proof. intros H. each_digit d H; repeat split; reflexivity. Qed.

Lemma format_digits_head (fuel : nat) (u : Z) (acc : string) :
  0 <= u ->
  exists d s, 0 <= d <= 9 /\ format_digits (S fuel) u acc = String (digit_char d) s.
Proof.
  revert u acc. induction fuel as [|fuel IH]; intros u acc Hu.
  - cbn [format_digits]. destruct (Z.ltb_spec u 10).
    + exists u, acc. split; [lia | reflexivity].
    + exists (u mod 10), acc. split; [|reflexivity].
      pose proof (Z.mod_pos_bound u 10 ltac:(lia)). lia.
  - change (format_digits (S (S fuel)) u acc)
      with (if u <? 10 then String (digit_char u) acc
            else format_digits (S fuel) (u / 10) (String (digit_char (u mod 10)) acc)).
    destruct (Z.ltb_spec u 10).
    + exists u, acc. split; [lia | reflexivity].
    + apply IH. apply Z.div_pos; lia.
Qed.

Lemma format_digits_colon (fuel : nat) (u : Z) (acc : string) :
  0 <= u -> has_colon (format_digits fuel u acc) = has_colon acc.
Proof.
  revert u acc. induction fuel as [|fuel IH]; intros u acc Hu; [reflexivity|].
  cbn [format_digits]. destruct (Z.ltb_spec u 10).
  - cbn [has_colon]. destruct (digit_char_plain u ltac:(lia)) as [-> _]. reflexivity.
  - rewrite IH by (apply Z.div_pos; lia). cbn [has_colon].
    pose proof (Z.mod_pos_bound u 10 ltac:(lia)).
    destruct (digit_char_plain (u mod 10) ltac:(lia)) as [-> _]. reflexivity.
Qed.

Lemma FormatInt_colon (z : Z) : has_colon (FormatInt z) = false.
Proof.
  unfold FormatInt. destruct (Z.ltb_spec z 0).
  - cbn [has_colon]. change (Ascii.eqb "-" ":") with false. cbn [orb].
    apply format_digits_colon. lia.
  - apply format_digits_colon. lia.
Qed.

Lemma parse_uint_step (d n : Z) (s : string) :
  0 <= d <= 9 -> 0 <= n -> n * 10 + d <= max_uint64 ->
  parse_uint_loop (String (digit_char d) s) n = parse_uint_loop s (n * 10 + d).
Proof.
  intros Hd Hn Hle. cbn [parse_uint_loop]. rewrite digit_of_char by exact Hd.
  assert (Hq : n < max_uint64 / 10 + 1).
  { apply Z.lt_succ_r, Z.div_le_lower_bound; lia. }
  destruct (Z.geb_spec n (max_uint64 / 10 + 1)); [lia|].
  cbv zeta. destruct (Z.gtb_spec (n * 10 + d) max_uint64); [lia | reflexivity].
Qed.

Lemma parse_format_digits (fuel : nat) (u : Z) (acc : string) :
  0 <= u <= max_uint64 -> u < 10 ^ Z.of_nat fuel ->
  parse_uint_loop (format_digits fuel u acc) 0 = parse_uint_loop acc u.
Proof.
  revert u acc. induction fuel as [|fuel IH]; intros u acc Hu Hlt.
  - change (10 ^ Z.of_nat 0) with 1 in Hlt. assert (u = 0) by lia. subst. reflexivity.
  - cbn [format_digits]. destruct (Z.ltb_spec u 10).
    + rewrite parse_uint_step by lia. f_equal.
    + pose proof (Z.mod_pos_bound u 10 ltac:(lia)).
      pose proof (Z.div_mod u 10 ltac:(lia)).
      assert (0 <= u / 10) by (apply Z.div_pos; lia).
      rewrite IH.
      * rewrite parse_uint_step by lia. f_equal. lia.
      * lia.
      * rewrite Nat2Z.inj_succ, Z.pow_succ_r in Hlt by lia.
        apply Z.div_lt_upper_bound; lia.
Qed.

Lemma ParseUint_format (u : Z) :
  0 <= u <= max_uint64 -> ParseUint (format_digits 20 u "") = Some u.
Proof.
  intros Hu. destruct (format_digits_head 19 u "" ltac:(lia)) as (d & s & _ & E).
  unfold ParseUint. rewrite E, <- E.
  rewrite parse_format_digits; [reflexivity | lia |].
  unfold max_uint64 in Hu. change (10 ^ Z.of_nat 20) with 100000000000000000000. lia.
Qed.

(** Printing an [int64] and parsing it back gives the same number. *)
Lemma ParseInt_FormatInt (z : Z) : in_range z -> ParseInt (FormatInt z) = Some z.
Proof.
  unfold in_range, min_int64, max_int64. intros Hz. unfold FormatInt.
  destruct (Z.ltb_spec z 0).
  - unfold ParseInt. change (Ascii.eqb "-" "-") with true.
    change (Ascii.eqb "-" "+") with false. cbv zeta. cbn [orb negb andb].
    rewrite ParseUint_format by (unfold max_uint64; lia).
    destruct (Z.gtb_spec (- z) (2 ^ 63)); [lia|].
    f_equal. lia.
  - destruct (format_digits_head 19 z "" ltac:(lia)) as (d & s & Hd & E).
    pose proof (ParseUint_format z ltac:(unfold max_uint64; lia)) as HP.
    rewrite E in HP |- *. unfold ParseInt.
    destruct (digit_char_plain d Hd) as (_ & -> & ->). cbv zeta. cbn [orb negb andb].
    rewrite HP.
    destruct (Z.geb_spec z (2 ^ 63)); [lia | reflexivity].
Qed.

Lemma split_no_colon (s : string) : has_colon s = false -> split_colon s = [s].
Proof.
  induction s as [|c s IH]; [reflexivity|]. cbn [has_colon split_colon].
  destruct (Ascii.eqb c ":"); [discriminate|]. cbn [orb]. intros H.
  rewrite IH by exact H. reflexivity.
Qed.

Lemma split_cons_colon (a rest : string) :
  has_colon a = false -> split_colon (a +:+ String ":" rest) = a :: split_colon rest.
Proof.
  induction a as [|c a IH]; [reflexivity|].
  change (String c a +:+ String ":" rest) with (String c (a +:+ String ":" rest)).
  cbn [has_colon split_colon].
  destruct (Ascii.eqb c ":"); [discriminate|]. cbn [orb]. intros H.
  rewrite IH by exact H. reflexivity.
Qed.

Lemma split_app_colon (a rest : string) :
  has_colon a = false -> split_colon (a +:+ ":" +:+ rest) = a :: split_colon rest.
Proof. exact (split_cons_colon a rest). Qed.

Lemma IsValidVerb_cases (v : VerbType) :
  IsValidVerb v = true ->
  v = ExistsVerb \/ v = ContentVerb \/ v = IterVerb \/ v = AttributesVerb \/ v = SubrangeVerb.
Proof.
  unfold IsValidVerb. rewrite !orb_true_iff, !String.eqb_eq. tauto.
Qed.

Lemma verb_no_colon (v : VerbType) : IsValidVerb v = true -> has_colon v = false.
Proof.
  intros H. destruct (IsValidVerb_cases v H) as [-> | [-> | [-> | [-> | ->]]]]; reflexivity.
Qed.

(** ** Cache-key codec *)

Lemma split_two (v n : string) :
  has_colon v = false -> has_colon n = false -> split_colon (v +:+ ":" +:+ n) = [v; n].
Proof.
  intros Hv Hn. rewrite split_app_colon by exact Hv.
  rewrite split_no_colon by exact Hn. reflexivity.
Qed.

Lemma split_four (v n a b : string) :
  has_colon v = false -> has_colon n = false -> has_colon a = false -> has_colon b = false ->
  split_colon (v +:+ ":" +:+ n +:+ ":" +:+ a +:+ ":" +:+ b) = [v; n; a; b].
Proof.
  intros Hv Hn Ha Hb. rewrite !split_app_colon by assumption.
  rewrite split_no_colon by exact Hb. reflexivity.
Qed.

(** C2, as amended: a key whose verb is one of the five, whose name holds no
    colon, and whose range is zero exactly when the verb is not [subrange],
    is decoded from its encoding unchanged and without error. *)
Theorem ParseBucketCacheKey_String_roundtrip (ck : BucketCacheKey) :
  IsValidVerb (Verb ck) = true ->
  has_colon (Name ck) = false ->
  in_range (Start ck) -> in_range (End_ ck) ->
  (Verb ck = SubrangeVerb -> ~ (Start ck = 0 /\ End_ ck = 0)) ->
  (Verb ck <> SubrangeVerb -> Start ck = 0 /\ End_ ck = 0) ->
  ParseBucketCacheKey (BucketCacheKey_String ck) = (ck, None).
Proof.
  destruct ck as [v n s e]. cbn [Verb Name Start End_].
  intros Hv Hn Hs He Hsub Hnsub.
  pose proof (verb_no_colon v Hv) as Hvc.
  unfold BucketCacheKey_String, ParseBucketCacheKey. cbn [Verb Name Start End_].
  destruct (String.eqb_spec v SubrangeVerb) as [Ev | Ev].
  - specialize (Hsub Ev).
    assert (Hz : (s =? 0) && (e =? 0) = false).
    { apply andb_false_iff. destruct (Z.eqb_spec s 0), (Z.eqb_spec e 0); auto. tauto. }
    rewrite Hz, split_four by (auto using FormatInt_colon).
    cbn [length nth]. rewrite Hv. subst v.
    change (String.eqb SubrangeVerb SubrangeVerb) with true.
    rewrite !ParseInt_FormatInt by assumption. reflexivity.
  - destruct (Hnsub Ev) as [-> ->].
    change ((0 =? 0) && (0 =? 0)) with true. cbv iota.
    rewrite split_two by assumption.
    cbn [length nth]. rewrite Hv.
    destruct (String.eqb_spec v SubrangeVerb); [contradiction | reflexivity].
Qed.

Lemma ParseBucketCacheKey_String_roundtrip_witness :
  ParseBucketCacheKey (BucketCacheKey_String (mkKey SubrangeVerb "tenant/01/chunks/000001" 16000 32000))
  = (mkKey SubrangeVerb "tenant/01/chunks/000001" 16000 32000, None).
Proof.
  apply ParseBucketCacheKey_String_roundtrip; cbn [Verb Name Start End_].
  - reflexivity.
  - reflexivity.
  - unfold in_range, min_int64, max_int64. lia.
  - unfold in_range, min_int64, max_int64. lia.
  - intros _ [H _]. discriminate H.
  - intros H. exfalso. apply H. reflexivity.
Defined.

(** C2, as stated, fails: a name holding a colon, a [subrange] key with a
    zero range, and another verb with a range are each encoded to a string
    that the decoder rejects. *)
Lemma ParseBucketCacheKey_String_not_roundtrip :
  ParseBucketCacheKey (BucketCacheKey_String (mkKey ExistsVerb "a:b" 0 0))
    = (zeroKey, Some ErrInvalidBucketCacheKeyFormat)
  /\ ParseBucketCacheKey (BucketCacheKey_String (mkKey SubrangeVerb "a" 0 0))
    = (zeroKey, Some ErrInvalidBucketCacheKeyFormat)
  /\ ParseBucketCacheKey (BucketCacheKey_String (mkKey ContentVerb "a" 0 7))
    = (zeroKey, Some ErrInvalidBucketCacheKeyFormat).
Proof. repeat split; vm_compute; reflexivity. Qed.

(** C6: the decoder's errors, in the order it checks them: fewer than two
    fields (the empty string has one) is a format error; an unknown verb is
    a verb error; a [subrange] key without exactly four fields, or another
    key without exactly two, is a format error; a [subrange] key whose
    start or end [strconv.ParseInt] rejects is an integer error. *)
Theorem ParseBucketCacheKey_errors (key : string) :
  ParseBucketCacheKey "" = (zeroKey, Some ErrInvalidBucketCacheKeyFormat)
  /\ ((length (split_colon key) < 2)%nat ->
      ParseBucketCacheKey key = (zeroKey, Some ErrInvalidBucketCacheKeyFormat))
  /\ ((2 <= length (split_colon key))%nat ->
      IsValidVerb (nth 0 (split_colon key) "") = false ->
      ParseBucketCacheKey key = (zeroKey, Some ErrInvalidBucketCacheKeyVerb))
  /\ ((2 <= length (split_colon key))%nat ->
      nth 0 (split_colon key) "" = SubrangeVerb ->
      length (split_colon key) <> 4%nat ->
      ParseBucketCacheKey key = (zeroKey, Some ErrInvalidBucketCacheKeyFormat))
  /\ ((2 <= length (split_colon key))%nat ->
      IsValidVerb (nth 0 (split_colon key) "") = true ->
      nth 0 (split_colon key) "" <> SubrangeVerb ->
      length (split_colon key) <> 2%nat ->
      ParseBucketCacheKey key = (zeroKey, Some ErrInvalidBucketCacheKeyFormat))
  /\ (length (split_colon key) = 4%nat ->
      nth 0 (split_colon key) "" = SubrangeVerb ->
      ParseInt (nth 2 (split_colon key) "") = None
      \/ ParseInt (nth 3 (split_colon key) "") = None ->
      ParseBucketCacheKey key = (zeroKey, Some ErrParseKeyInt)).
Proof.
  unfold ParseBucketCacheKey. cbv zeta.
  split; [reflexivity|].
  split; [|split; [|split; [|split]]].
  - intros H. destruct (Z.ltb_spec (Z.of_nat (length (split_colon key))) 2); [reflexivity | lia].
  - intros H Hv. destruct (Z.ltb_spec (Z.of_nat (length (split_colon key))) 2); [lia|].
    rewrite Hv. reflexivity.
  - intros H Hv Hn. destruct (Z.ltb_spec (Z.of_nat (length (split_colon key))) 2); [lia|].
    rewrite Hv. change (IsValidVerb SubrangeVerb) with true.
    change (String.eqb SubrangeVerb SubrangeVerb) with true. cbn [negb].
    destruct (Z.eqb_spec (Z.of_nat (length (split_colon key))) 4); [lia | reflexivity].
  - intros H Hv Hs Hn. destruct (Z.ltb_spec (Z.of_nat (length (split_colon key))) 2); [lia|].
    rewrite Hv. cbn [negb].
    destruct (String.eqb_spec (nth 0 (split_colon key) "") SubrangeVerb); [contradiction|].
    destruct (Z.eqb_spec (Z.of_nat (length (split_colon key))) 2); [lia | reflexivity].
  - intros H Hv Hp. rewrite H, Hv.
    change (Z.of_nat 4 <? 2) with false. change (IsValidVerb SubrangeVerb) with true.
    change (String.eqb SubrangeVerb SubrangeVerb) with true.
    change (Z.of_nat 4 =? 4) with true. cbn [negb].
    destruct (ParseInt (nth 2 (split_colon key) "")); [|reflexivity].
    destruct Hp as [Hp | Hp]; [discriminate|]. rewrite Hp. reflexivity.
Qed.

Lemma ParseBucketCacheKey_errors_witness :
  ParseBucketCacheKey "exists" = (zeroKey, Some ErrInvalidBucketCacheKeyFormat)
  /\ ParseBucketCacheKey "list:a" = (zeroKey, Some ErrInvalidBucketCacheKeyVerb)
  /\ ParseBucketCacheKey "subrange:a:10" = (zeroKey, Some ErrInvalidBucketCacheKeyFormat)
  /\ ParseBucketCacheKey "attrs:a:10:20" = (zeroKey, Some ErrInvalidBucketCacheKeyFormat)
  /\ ParseBucketCacheKey "subrange:a:10:2x" = (zeroKey, Some ErrParseKeyInt)
  /\ ParseBucketCacheKey "subrange:a:9223372036854775808:1" = (zeroKey, Some ErrParseKeyInt).
Proof.
  split; [|split; [|split; [|split; [|split]]]].
  - apply (proj1 (proj2 (ParseBucketCacheKey_errors "exists"))). cbn. lia.
  - apply (proj1 (proj2 (proj2 (ParseBucketCacheKey_errors "list:a"))));
      [cbn; lia | reflexivity].
  - apply (proj1 (proj2 (proj2 (proj2 (ParseBucketCacheKey_errors "subrange:a:10")))));
      [cbn; lia | reflexivity | cbn; lia].
  - apply (proj1 (proj2 (proj2 (proj2 (proj2 (ParseBucketCacheKey_errors "attrs:a:10:20"))))));
      [cbn; lia | reflexivity | cbn; discriminate | cbn; lia].
  - apply (proj2 (proj2 (proj2 (proj2 (proj2 (ParseBucketCacheKey_errors "subrange:a:10:2x"))))));
      [reflexivity | reflexivity | right; reflexivity].
  - apply (proj2 (proj2 (proj2 (proj2 (proj2
             (ParseBucketCacheKey_errors "subrange:a:9223372036854775808:1"))))));
      [reflexivity | reflexivity | left; reflexivity].
Defined.

(** ** Range merger *)

Lemma merge_loop_apart (limit : Z) (rest : list rng) (last : rng) :
  exists first tail,
    merge_loop limit last rest = first :: tail
    /\ rng_start first = rng_start last
    /\ apart_from limit first tail.
Proof.
  revert last. induction rest as [|r rest IH]; intros last.
  - exists last, []. repeat split.
  - cbn [merge_loop]. destruct (Z.leb_spec (sub64 (rng_start r) (rng_end last)) limit) as [Hle | Hgt].
    + destruct (IH (mkRng (rng_start last) (rng_end r))) as (f & t & E & Hs & Ha).
      exists f, t. repeat split; assumption.
    + destruct (IH r) as (f & t & E & Hs & Ha).
      exists last, (f :: t). rewrite E. repeat split; [|exact Ha].
      rewrite Hs. exact Hgt.
Qed.

Lemma merge_loop_fixed (limit : Z) (rest : list rng) (last : rng) :
  apart_from limit last rest -> merge_loop limit last rest = last :: rest.
Proof.
  revert last. induction rest as [|r rest IH]; intros last; [reflexivity|].
  cbn [apart_from merge_loop]. intros [Hgt Ha].
  destruct (Z.leb_spec (sub64 (rng_start r) (rng_end last)) limit); [lia|].
  rewrite IH by exact Ha. reflexivity.
Qed.

(** Merging twice with the same tolerance is merging once, whatever the
    input. *)
Lemma mergeRanges_idempotent (input : list rng) (limit : Z) :
  mergeRanges (mergeRanges input limit) limit = mergeRanges input limit.
Proof.
  destruct input as [|r rest]; [reflexivity|]. cbn [mergeRanges].
  destruct (merge_loop_apart limit rest r) as (f & t & E & _ & Ha).
  rewrite E. cbn [mergeRanges]. apply merge_loop_fixed, Ha.
Qed.

Lemma sorted_from_cons (prev : Z) (r : rng) (l : list rng) :
  sorted_from prev (r :: l) = true <->
  prev <= rng_start r /\ rng_start r <= rng_end r /\ sorted_from (rng_end r) l = true.
Proof.
  cbn [sorted_from]. rewrite !andb_true_iff, !Z.leb_le. tauto.
Qed.

Lemma merge_loop_sorted (limit : Z) (rest : list rng) (last : rng) (prev : Z) :
  prev <= rng_start last -> rng_start last <= rng_end last ->
  sorted_from (rng_end last) rest = true ->
  sorted_from prev (merge_loop limit last rest) = true.
Proof.
  revert last prev. induction rest as [|r rest IH]; intros last prev Hp Hl Hs.
  - cbn [merge_loop]. apply sorted_from_cons. auto.
  - apply sorted_from_cons in Hs. destruct Hs as (H1 & H2 & H3).
    cbn [merge_loop]. destruct (Z.leb_spec (sub64 (rng_start r) (rng_end last)) limit).
    + apply IH; cbn [rng_start rng_end]; [lia | lia | exact H3].
    + apply sorted_from_cons. repeat split; [lia | lia |].
      apply IH; [lia | lia | exact H3].
Qed.

Lemma merge_loop_total (limit : Z) (rest : list rng) (last : rng) :
  sorted_from (rng_end last) rest = true ->
  total_length (last :: rest) <= total_length (merge_loop limit last rest).
Proof.
  revert last. induction rest as [|r rest IH]; intros last Hs.
  - cbn [merge_loop]. lia.
  - apply sorted_from_cons in Hs. destruct Hs as (H1 & H2 & H3).
    cbn [merge_loop]. destruct (Z.leb_spec (sub64 (rng_start r) (rng_end last)) limit).
    + specialize (IH (mkRng (rng_start last) (rng_end r)) H3).
      cbn [total_length rng_start rng_end] in IH |- *. lia.
    + specialize (IH r H3). cbn [total_length] in IH |- *. lia.
Qed.

Lemma sorted_gaps_cons (r : rng) (l : list rng) :
  sorted_gaps (r :: l) = true <->
  rng_start r <= rng_end r /\ sorted_from (rng_end r) l = true.
Proof.
  unfold sorted_gaps. rewrite sorted_from_cons.
  split; [tauto | intros [H1 H2]; repeat split; [lia | exact H1 | exact H2]].
Qed.

Lemma sorted_from_gaps (prev : Z) (l : list rng) :
  sorted_from prev l = true -> sorted_gaps l = true.
Proof.
  destruct l as [|r l]; [reflexivity|]. rewrite sorted_from_cons, sorted_gaps_cons. tauto.
Qed.

Lemma mergeRanges_sorted (input : list rng) (limit : Z) :
  sorted_gaps input = true -> sorted_gaps (mergeRanges input limit) = true.
Proof.
  destruct input as [|r rest]; [reflexivity|]. rewrite sorted_gaps_cons. intros [H1 H2].
  cbn [mergeRanges]. apply sorted_from_gaps with (rng_start r).
  apply merge_loop_sorted; [lia | exact H1 | exact H2].
Qed.

(** C4: on gaps sorted by start and not overlapping, for every tolerance,
    [mergeRanges] is idempotent, its output is again sorted and not
    overlapping, and it covers at least as many bytes as the input. *)
Theorem mergeRanges_idempotent_sorted_covering (gaps : list rng) (t : Z) :
  sorted_gaps gaps = true ->
  mergeRanges (mergeRanges gaps t) t = mergeRanges gaps t
  /\ sorted_gaps (mergeRanges gaps t) = true
  /\ total_length gaps <= total_length (mergeRanges gaps t).
Proof.
  intros Hs. split; [apply mergeRanges_idempotent|].
  split; [apply mergeRanges_sorted, Hs|].
  destruct gaps as [|r rest]; [reflexivity|].
  apply sorted_gaps_cons in Hs. apply merge_loop_total, Hs.
Qed.

Lemma mergeRanges_idempotent_sorted_covering_witness :
  mergeRanges (mergeRanges [mkRng 0 1000; mkRng 1000 2000; mkRng 4000 5000; mkRng 9000 9500] 2000) 2000
  = mergeRanges [mkRng 0 1000; mkRng 1000 2000; mkRng 4000 5000; mkRng 9000 9500] 2000
  /\ sorted_gaps (mergeRanges [mkRng 0 1000; mkRng 1000 2000; mkRng 4000 5000; mkRng 9000 9500] 2000) = true
  /\ total_length [mkRng 0 1000; mkRng 1000 2000; mkRng 4000 5000; mkRng 9000 9500]
     <= total_length (mergeRanges [mkRng 0 1000; mkRng 1000 2000; mkRng 4000 5000; mkRng 9000 9500] 2000).
Proof.
  apply (mergeRanges_idempotent_sorted_covering
           [mkRng 0 1000; mkRng 1000 2000; mkRng 4000 5000; mkRng 9000 9500] 2000).
  reflexivity.
Defined.

(** ** The re-merge loop *)

Lemma within_cons (lo hi : Z) (r : rng) (l : list rng) :
  within lo hi (r :: l) = true <->
  (lo <= rng_start r /\ rng_end r <= hi) /\ within lo hi l = true.
Proof.
  unfold within. cbn [forallb]. rewrite !andb_true_iff, !Z.leb_le. tauto.
Qed.

Lemma merge_loop_within (limit lo hi : Z) (rest : list rng) (last : rng) :
  within lo hi (last :: rest) = true -> within lo hi (merge_loop limit last rest) = true.
Proof.
  revert last. induction rest as [|r rest IH]; intros last H; [exact H|].
  cbn [merge_loop]. apply within_cons in H. destruct H as [Hl H].
  pose proof H as H'. apply within_cons in H'. destruct H' as [Hr Hrest].
  destruct (Z.leb_spec (sub64 (rng_start r) (rng_end last)) limit).
  - apply IH. apply within_cons. cbn [rng_start rng_end]. split; [lia | exact Hrest].
  - apply within_cons. split; [exact Hl|]. apply IH, H.
Qed.

Lemma mergeRanges_within (limit lo hi : Z) (input : list rng) :
  within lo hi input = true -> within lo hi (mergeRanges input limit) = true.
Proof.
  destruct input as [|r rest]; [reflexivity|]. apply merge_loop_within.
Qed.

(** A tolerance that spans the whole window merges everything into one
    gap. *)
Lemma merge_loop_single (limit : Z) (rest : list rng) (last : rng) :
  2 ^ 62 <= limit ->
  rng_start last <= rng_end last ->
  sorted_from (rng_end last) rest = true ->
  within 0 (2 ^ 62) (last :: rest) = true ->
  length (merge_loop limit last rest) = 1%nat.
Proof.
  intros Hlim. revert last. induction rest as [|r rest IH]; intros last Hl Hs Hw; [reflexivity|].
  apply sorted_from_cons in Hs. destruct Hs as (H1 & H2 & H3).
  apply within_cons in Hw. destruct Hw as [Hwl Hw].
  apply within_cons in Hw. destruct Hw as [Hwr Hw].
  cbn [merge_loop]. unfold sub64. rewrite wrap64_id
    by (unfold in_range, min_int64, max_int64; lia).
  destruct (Z.leb_spec (rng_start r - rng_end last) limit); [|lia].
  apply IH; cbn [rng_start rng_end]; [lia | exact H3 |].
  apply within_cons. cbn [rng_start rng_end]. split; [lia | exact Hw].
Qed.

Lemma gtb_false_iff (a b : Z) : (a >? b) = false <-> a <= b.
Proof. rewrite Z.gtb_ltb, Z.ltb_ge. reflexivity. Qed.

Lemma mergeUntil_done (fuel : nat) (maxSub limit : Z) (missing : list rng) :
  (maxSub >? 0) && (Z.of_nat (length missing) >? maxSub) = false ->
  mergeUntil fuel maxSub limit missing = Some missing.
Proof. intros H. destruct fuel; cbn [mergeUntil]; rewrite H; reflexivity. Qed.

Lemma mergeUntil_step (fuel : nat) (maxSub limit : Z) (missing : list rng) :
  (maxSub >? 0) && (Z.of_nat (length missing) >? maxSub) = true ->
  mergeUntil (S fuel) maxSub limit missing
  = mergeUntil fuel maxSub (mul64 limit 2) (mergeRanges missing limit).
Proof. intros H. cbn [mergeUntil]. rewrite H. reflexivity. Qed.

Lemma mergeUntil_stops (maxSub : Z) (f : nat) :
  forall (limit : Z) (gaps : list rng) (fuel : nat),
    0 < limit <= max_int64 ->
    2 ^ 62 <= limit * 2 ^ Z.of_nat f ->
    sorted_gaps gaps = true -> within 0 (2 ^ 62) gaps = true ->
    (f < fuel)%nat ->
    exists out,
      mergeUntil fuel maxSub limit gaps = Some out
      /\ (0 < maxSub -> Z.of_nat (length out) <= maxSub)
      /\ (maxSub <= 0 -> out = gaps).
Proof.
  induction f as [|f IH]; intros limit gaps fuel Hlim Hpow Hs Hw Hfuel.
  all: destruct ((maxSub >? 0) && (Z.of_nat (length gaps) >? maxSub)) eqn:Hc;
    [|exists gaps; split; [apply mergeUntil_done, Hc|];
      split; [|reflexivity]; intros Hpos;
      apply andb_false_iff in Hc; destruct Hc as [Hc | Hc];
      [apply gtb_false_iff in Hc; lia | apply gtb_false_iff in Hc; lia]].
  all: pose proof Hc as Hc'; apply andb_true_iff in Hc'; destruct Hc' as [Hmax _];
    apply Z.gtb_lt in Hmax.
  all: destruct fuel as [|fuel]; [lia|]; rewrite mergeUntil_step by exact Hc.
  all: assert (Hbig : 2 ^ 62 <= limit ->
         exists out, mergeUntil fuel maxSub (mul64 limit 2) (mergeRanges gaps limit) = Some out
           /\ (0 < maxSub -> Z.of_nat (length out) <= maxSub)
           /\ (maxSub <= 0 -> out = gaps)).
  1, 3: intros Hge; exists (mergeRanges gaps limit);
    assert (Hlen : (length (mergeRanges gaps limit) <= 1)%nat)
      by (destruct gaps as [|r rest]; [cbn; lia|]; cbn [mergeRanges];
          apply sorted_gaps_cons in Hs; destruct Hs as [Hs1 Hs2];
          rewrite (merge_loop_single limit rest r Hge Hs1 Hs2 Hw); lia);
    split; [apply mergeUntil_done, andb_false_iff; right;
            apply gtb_false_iff; lia | split; [lia | lia]].
  - apply Hbig. change (2 ^ Z.of_nat 0) with 1 in Hpow. lia.
  - destruct (Z.le_gt_cases (2 ^ 62) limit) as [Hge | Hlt]; [apply Hbig, Hge|].
    assert (Hm : mul64 limit 2 = limit * 2).
    { unfold mul64. apply wrap64_id. unfold in_range, min_int64, max_int64. lia. }
    rewrite Hm.
    destruct (IH (limit * 2) (mergeRanges gaps limit) fuel) as (out & E & H1 & H2).
    + unfold max_int64. lia.
    + rewrite Nat2Z.inj_succ, Z.pow_succ_r in Hpow by lia. lia.
    + apply mergeRanges_sorted, Hs.
    + apply mergeRanges_within, Hw.
    + lia.
    + exists out. split; [exact E|]. split; [exact H1 | lia].
Qed.

(** The slicing loop and the fetch of one range issue exactly the calls to
    the bucket that the model logs. *)
Lemma storeLoop_calls (fuel : nat) (cfg : getRangeConfig) (cacheKeys : gmap Z string)
    (lo ll : Z) (m : rng) (buf : list byte) :
  forall (off : Z) (hits : gmap string (option (list byte))) (w : World),
    calls (snd (storeLoop fuel cfg cacheKeys lo ll m buf off hits w)) = calls w.
Proof.
  induction fuel as [|fuel IH]; intros off hits w; cbn [storeLoop].
  - destruct (off <? rng_end m); reflexivity.
  - destruct (off <? rng_end m); [|reflexivity].
    destruct (String.eqb (key_at cacheKeys off) ""); [reflexivity|].
    destruct (slice_bytes buf (sub64 off (rng_start m)) _); [|reflexivity].
    destruct (hits !! key_at cacheKeys off).
    + apply IH.
    + unfold mbind, M_bind, cacheStore. cbn [fst snd]. rewrite IH. reflexivity.
Qed.

Lemma fetchRange_calls (cb : CachingBucket) (name : string) (cfg : getRangeConfig)
    (cacheKeys : gmap Z string) (lo ll : Z) (m : rng)
    (hits : gmap string (option (list byte))) (w : World) :
  calls (snd (fetchRange cb name cfg cacheKeys lo ll m hits w))
  = calls w ++ [CallGetRange name (rng_start m) (sub64 (rng_end m) (rng_start m))].
Proof.
  unfold fetchRange, mbind, M_bind, logCall. cbv zeta.
  destruct (bkt_GetRange (cb_Bucket cb) name (rng_start m) _) as [err | data]; [reflexivity|].
  match goal with |- context [if ?c <? 0 then _ else _] => destruct (c <? 0) end; [reflexivity|].
  match goal with |- context [if ?c then fail _ else _] => destruct c end; [reflexivity|].
  rewrite storeLoop_calls. reflexivity.
Qed.

Lemma fetchRanges_calls (cb : CachingBucket) (name : string) (cfg : getRangeConfig)
    (cacheKeys : gmap Z string) (lo ll : Z) (missing : list rng) :
  forall (hits : gmap string (option (list byte))) (w : World),
    (length (calls (snd (fetchRanges cb name cfg cacheKeys lo ll missing hits w)))
     <= length (calls w) + length missing)%nat.
Proof.
  induction missing as [|m rest IH]; intros hits w; cbn [fetchRanges].
  - cbn. lia.
  - unfold mbind, M_bind.
    pose proof (fetchRange_calls cb name cfg cacheKeys lo ll m hits w) as Hc.
    destruct (fetchRange cb name cfg cacheKeys lo ll m hits w) as [[hits' | e | msg |] w'];
      cbn [snd] in Hc |- *.
    + specialize (IH hits' w'). rewrite Hc, length_app in IH. cbn [length] in IH |- *. lia.
    + rewrite Hc, length_app. cbn [length]. lia.
    + rewrite Hc, length_app. cbn [length]. lia.
    + rewrite Hc, length_app. cbn [length]. lia.
Qed.

(** C5, as amended: for gaps sorted by start, not overlapping and lying
    within the first [2 ^ 62] bytes, and a positive subrange size, the loop
    that re-merges with a doubling tolerance stops within 63 rounds; when
    the maximum is positive it leaves at most that many gaps, and so at most
    that many fetches go to the bucket; when the maximum is zero (or
    negative) only the first merge, with tolerance zero, is applied. *)
Theorem mergeUntil_terminates_within_budget (sz maxSub : Z) (gaps : list rng) (fuel : nat) :
  0 < sz <= max_int64 ->
  sorted_gaps gaps = true ->
  within 0 (2 ^ 62) gaps = true ->
  (63 <= fuel)%nat ->
  exists out,
    mergeUntil fuel maxSub sz (mergeRanges gaps 0) = Some out
    /\ (0 < maxSub -> Z.of_nat (length out) <= maxSub)
    /\ (maxSub <= 0 -> out = mergeRanges gaps 0)
    /\ forall cb name cfg cacheKeys lo ll hits w,
         (length (calls (snd (fetchRanges cb name cfg cacheKeys lo ll out hits w)))
          <= length (calls w) + length out)%nat.
Proof.
  intros Hsz Hs Hw Hfuel.
  destruct (mergeUntil_stops maxSub 62 sz (mergeRanges gaps 0) fuel) as (out & E & H1 & H2).
  - exact Hsz.
  - change (2 ^ Z.of_nat 62) with (2 ^ 62). nia.
  - apply mergeRanges_sorted, Hs.
  - apply mergeRanges_within, Hw.
  - lia.
  - exists out. split; [exact E|]. split; [exact H1|]. split; [exact H2|].
    intros. apply fetchRanges_calls.
Qed.

Lemma mergeUntil_terminates_within_budget_witness :
  exists out,
    mergeUntil 63 2 1000
      (mergeRanges [mkRng 0 1000; mkRng 1000 2000; mkRng 4000 5000; mkRng 9000 10000] 0)
    = Some out
    /\ (0 < 2 -> Z.of_nat (length out) <= 2)
    /\ (2 <= 0 ->
        out = mergeRanges [mkRng 0 1000; mkRng 1000 2000; mkRng 4000 5000; mkRng 9000 10000] 0)
    /\ forall cb name cfg cacheKeys lo ll hits w,
         (length (calls (snd (fetchRanges cb name cfg cacheKeys lo ll out hits w)))
          <= length (calls w) + length out)%nat.
Proof.
  apply (mergeUntil_terminates_within_budget 1000 2
           [mkRng 0 1000; mkRng 1000 2000; mkRng 4000 5000; mkRng 9000 10000] 63).
  - unfold max_int64. lia.
  - reflexivity.
  - reflexivity.
  - lia.
Defined.

Lemma mergeRanges_far_apart (limit : Z) :
  limit < 2 ^ 63 - 3 ->
  mergeRanges [mkRng 0 1; mkRng (2 ^ 63 - 2) (2 ^ 63 - 1)] limit
  = [mkRng 0 1; mkRng (2 ^ 63 - 2) (2 ^ 63 - 1)].
Proof.
  intros H. cbn [mergeRanges merge_loop rng_start rng_end].
  replace (sub64 (2 ^ 63 - 2) 1) with (2 ^ 63 - 3) by reflexivity.
  destruct (Z.leb_spec (2 ^ 63 - 3) limit); [lia | reflexivity].
Qed.

Lemma doubled_from_one_small (limit : Z) : doubled_from_one limit -> limit < 2 ^ 63 - 3.
Proof.
  intros [-> | [-> | (k & Hk & ->)]]; [lia | lia |].
  apply Z.le_lt_trans with (2 ^ 62); [apply Z.pow_le_mono_r; lia | lia].
Qed.

Lemma doubled_from_one_next (limit : Z) :
  doubled_from_one limit -> doubled_from_one (mul64 limit 2).
Proof.
  intros [-> | [-> | (k & Hk & ->)]].
  - left. reflexivity.
  - left. reflexivity.
  - destruct (Z.eq_dec k 62) as [-> | Hne].
    + right. left. reflexivity.
    + right. right. exists (k + 1). split; [lia|].
      unfold mul64. rewrite wrap64_id.
      * rewrite Z.pow_add_r by lia. lia.
      * unfold in_range, min_int64, max_int64.
        assert (2 ^ k <= 2 ^ 61) by (apply Z.pow_le_mono_r; lia).
        assert (0 < 2 ^ k) by (apply Z.pow_pos_nonneg; lia). lia.
Qed.

Lemma mergeUntil_far_apart (fuel : nat) :
  forall limit, doubled_from_one limit ->
    mergeUntil fuel 1 limit [mkRng 0 1; mkRng (2 ^ 63 - 2) (2 ^ 63 - 1)] = None.
Proof.
  induction fuel as [|fuel IH]; intros limit Hl; [reflexivity|].
  rewrite mergeUntil_step by reflexivity.
  rewrite mergeRanges_far_apart by (apply doubled_from_one_small, Hl).
  apply IH, doubled_from_one_next, Hl.
Qed.

(** C5, as stated, fails: with a subrange size of one and a maximum of one
    request, two missing subranges at the two ends of a [2 ^ 63 - 1] byte
    window are never merged, because the doubled tolerance wraps around to
    a negative number and then to zero before it reaches their distance; the
    loop does not stop, whatever the number of rounds. *)
Lemma mergeUntil_not_terminating :
  ~ exists fuel out,
      mergeUntil fuel 1 1 (mergeRanges [mkRng 0 1; mkRng (2 ^ 63 - 2) (2 ^ 63 - 1)] 0)
      = Some out.
Proof.
  intros (fuel & out & H).
  rewrite mergeRanges_far_apart in H by lia.
  rewrite mergeUntil_far_apart in H; [discriminate|].
  right. right. exists 0. split; [lia | reflexivity].
Qed.

(** ** Cache backend *)

Lemma fetch_map_lookup (c : gmap string (option (list byte))) (keys : list string) (k : string) :
  fetch_map c keys !! k = if decide (k ∈ keys) then c !! k else None.
Proof.
  induction keys as [|k' keys IH]; cbn [fetch_map foldr].
  - rewrite lookup_empty. destruct (decide (k ∈ [])) as [H | H]; [inversion H | reflexivity].
  - fold (fetch_map c keys). destruct (decide (k = k')) as [-> | Hne].
    + destruct (decide (k' ∈ k' :: keys)) as [_ | H]; [|exfalso; apply H; left].
      destruct (c !! k') as [v|] eqn:E.
      * rewrite lookup_insert_eq. reflexivity.
      * rewrite IH. destruct (decide (k' ∈ keys)); reflexivity.
    + assert (Hiff : fetch_map c keys !! k = if decide (k ∈ k' :: keys) then c !! k else None).
      { rewrite IH. destruct (decide (k ∈ keys)) as [Hin | Hnin];
          destruct (decide (k ∈ k' :: keys)) as [Hin' | Hnin']; try reflexivity.
        - exfalso. apply Hnin'. right. exact Hin.
        - exfalso. apply elem_of_cons in Hin'. destruct Hin'; [contradiction|]. contradiction. }
      destruct (c !! k'); [rewrite lookup_insert_ne by congruence|]; exact Hiff.
Qed.

Lemma fetch_map_at_key (c : gmap string (option (list byte))) (keys : list string) (k : string) :
  k ∈ keys -> at_key (fetch_map c keys) k = at_key c k.
Proof.
  intros Hin. unfold at_key. rewrite fetch_map_lookup.
  destruct (decide (k ∈ keys)); [reflexivity | contradiction].
Qed.

(** ** Whole-object read cache: the known-absent short cut *)

(** C7: with a matching config, no cached content and a cached [exists]
    entry that parses to false, [Get] returns the not-found error that
    [IsObjNotFoundErr] recognises, and leaves the state as it was: no call
    reaches the bucket and nothing is stored. *)
Theorem Get_known_absent (cb : CachingBucket) (name : string) (elapsed : Z)
    (cfg : getConfig) (ex : list byte) (w : World) :
  findGetConfig (cb_cfg cb) name = Some cfg ->
  at_key (cache w) (keyString ContentVerb name) = None ->
  at_key (cache w) (keyString ExistsVerb name) = Some ex ->
  ParseBool (string_of_list_byte ex) = Some false ->
  Get cb name elapsed w = (Fail errObjNotFound, w)
  /\ IsObjNotFoundErr cb errObjNotFound = true
  /\ calls (snd (Get cb name elapsed w)) = calls w.
Proof.
  intros Hcfg Hcontent Hexists Hparse.
  assert (E : Get cb name elapsed w = (Fail errObjNotFound, w)).
  { unfold Get. rewrite Hcfg. unfold mbind, M_bind, cacheFetch.
    rewrite !fetch_map_at_key by (repeat constructor).
    rewrite Hcontent, Hexists. unfold knownAbsent. rewrite Hparse. reflexivity. }
  rewrite E. repeat split.
Qed.

Lemma Get_known_absent_witness :
  Get demo_cb "marker" 5
      (mkWorld {[ "exists:marker" := Some (list_byte_of_string "false") ]} [] [])
  = (Fail errObjNotFound,
     mkWorld {[ "exists:marker" := Some (list_byte_of_string "false") ]} [] [])
  /\ IsObjNotFoundErr demo_cb errObjNotFound = true
  /\ calls (snd (Get demo_cb "marker" 5
       (mkWorld {[ "exists:marker" := Some (list_byte_of_string "false") ]} [] []))) = [].
Proof.
  apply (Get_known_absent demo_cb "marker" 5 (mkGetCfg 100 100 100 1000)
           (list_byte_of_string "false")).
  - reflexivity.
  - vm_compute. reflexivity.
  - vm_compute. reflexivity.
  - vm_compute. reflexivity.
Defined.

(** ** Directory-listing cache *)

Lemma visited_clean (f : string -> option error) (l : list string) :
  visit f l = None -> visited f l = l.
Proof.
  induction l as [|s l IH]; [reflexivity|]. cbn [visit visited].
  destruct (f s); [discriminate|]. intros H. rewrite IH by exact H. reflexivity.
Qed.

(** C9: with a matching config, an error of the visitor is what [Iter]
    returns, on the replay of a cached listing and on the enumeration of the
    bucket, and then nothing is stored; after an enumeration without error
    the names are encoded and stored with a TTL of the configured TTL minus
    the elapsed time, unless that is not positive; and [Iter] stores nothing
    in any other way. *)
Theorem Iter_visitor_error_and_store (cb : CachingBucket) (dir : string)
    (f : string -> option error) (elapsed : Z) (cfg : iterConfig) (w : World) :
  findIterConfig (cb_cfg cb) dir = Some cfg ->
  (forall raw names e,
      at_key (cache w) (keyString IterVerb dir) = Some raw ->
      codec_Decode cfg raw = inr names ->
      visit f names = Some e ->
      Iter cb dir f elapsed w = (Fail e, w))
  /\ (forall e,
      (at_key (cache w) (keyString IterVerb dir) = None
       \/ exists raw err, at_key (cache w) (keyString IterVerb dir) = Some raw
                          /\ codec_Decode cfg raw = inl err) ->
      visit f (fst (bkt_Iter (cb_Bucket cb) dir)) = Some e ->
      Iter cb dir f elapsed w
      = (Fail e, mkWorld (cache w) (stored w) (calls w ++ [CallIter dir])))
  /\ (forall data,
      (at_key (cache w) (keyString IterVerb dir) = None
       \/ exists raw err, at_key (cache w) (keyString IterVerb dir) = Some raw
                          /\ codec_Decode cfg raw = inl err) ->
      visit f (fst (bkt_Iter (cb_Bucket cb) dir)) = None ->
      snd (bkt_Iter (cb_Bucket cb) dir) = None ->
      0 < sub64 (iter_ttl cfg) elapsed ->
      codec_Encode cfg (fst (bkt_Iter (cb_Bucket cb) dir)) = inr data ->
      Iter cb dir f elapsed w
      = (Ok tt, mkWorld (<[keyString IterVerb dir := data]> (cache w))
                        (stored w ++ [mkStore (keyString IterVerb dir) data
                                              (sub64 (iter_ttl cfg) elapsed)])
                        (calls w ++ [CallIter dir])))
  /\ (stored (snd (Iter cb dir f elapsed w)) = stored w
      \/ exists data,
          fst (Iter cb dir f elapsed w) = Ok tt
          /\ visit f (fst (bkt_Iter (cb_Bucket cb) dir)) = None
          /\ snd (bkt_Iter (cb_Bucket cb) dir) = None
          /\ 0 < sub64 (iter_ttl cfg) elapsed
          /\ codec_Encode cfg (fst (bkt_Iter (cb_Bucket cb) dir)) = inr data
          /\ stored (snd (Iter cb dir f elapsed w))
             = stored w ++ [mkStore (keyString IterVerb dir) data
                                    (sub64 (iter_ttl cfg) elapsed)]).
Proof.
  intros Hcfg. unfold Iter. rewrite Hcfg. unfold mbind, M_bind, cacheFetch.
  rewrite fetch_map_at_key by (repeat constructor).
  assert (Hmiss : forall X : Type, forall (a b : X),
    (at_key (cache w) (keyString IterVerb dir) = None
     \/ exists raw err, at_key (cache w) (keyString IterVerb dir) = Some raw
                        /\ codec_Decode cfg raw = inl err) ->
    match (match at_key (cache w) (keyString IterVerb dir) with
           | Some raw => match codec_Decode cfg raw with
                         | inr names => Some names
                         | inl _ => None
                         end
           | None => None
           end) with
    | Some names => a
    | None => b
    end = b).
  { intros X a b [-> | (raw & err & -> & ->)]; reflexivity. }
  split; [|split; [|split]].
  - intros raw names e -> -> Hv. unfold returnErr. rewrite Hv. reflexivity.
  - intros e Hm Hv.
    destruct Hm as [-> | (raw & err & -> & ->)];
      unfold logCall, bucketIter; rewrite Hv; cbn [fst snd]; reflexivity.
  - intros data Hm Hv Hb Httl Henc.
    destruct Hm as [-> | (raw & err & -> & ->)];
      unfold logCall, bucketIter; rewrite Hv, Hb, (visited_clean f _ Hv), Henc;
      (destruct (Z.gtb_spec (sub64 (iter_ttl cfg) elapsed) 0); [reflexivity | lia]).
  - destruct (match at_key (cache w) (keyString IterVerb dir) with
              | Some raw => match codec_Decode cfg raw with
                            | inr names => Some names
                            | inl _ => None
                            end
              | None => None
              end) as [names|].
    + left. unfold returnErr. destruct (visit f names); reflexivity.
    + unfold logCall, bucketIter.
      destruct (visit f (fst (bkt_Iter (cb_Bucket cb) dir))) as [e|] eqn:Hv.
      * left. reflexivity.
      * rewrite (visited_clean f _ Hv).
        destruct (snd (bkt_Iter (cb_Bucket cb) dir)) as [e|] eqn:Hb.
        { left. reflexivity. }
        destruct (Z.gtb_spec (sub64 (iter_ttl cfg) elapsed) 0) as [Hpos | Hneg];
          [|left; reflexivity].
        destruct (codec_Encode cfg (fst (bkt_Iter (cb_Bucket cb) dir))) as [err | data] eqn:Henc;
          [left; reflexivity|].
        right. exists data. repeat split. lia.
Qed.

Lemma Iter_visitor_error_and_store_witness :
  Iter demo_cb "d" fails_on_c 5 empty_world
  = (Fail (ExternalErr 7), mkWorld ∅ [] [CallIter "d"]).
Proof.
  apply (proj1 (proj2 (Iter_visitor_error_and_store demo_cb "d" fails_on_c 5
                         (mkIterCfg 100 demo_codec_Encode (fun _ => inr ["a"; "b"; "c"]))
                         empty_world eq_refl))).
  - left. reflexivity.
  - reflexivity.
Defined.

(** ** Whole-object read cache: the capturing reader *)

Lemma getReader_Read_dead (rs : list (list byte * option error)) (ce : option error)
    (ttl : Z) (key : string) (maxSize el : Z) (w : World) :
  getReader_Read (mkGetReader (mkStream rs ce) None ttl key maxSize) el w
  = (Ok (nth 0 rs ([], Some io_EOF),
         mkGetReader (mkStream (tl rs) ce) None ttl key maxSize), w).
Proof.
  unfold getReader_Read, stream_Read. cbn [gr_r gr_buf reads close_err gr_ttl gr_cacheKey gr_maxSize].
  destruct rs as [|[d e] rs]; [reflexivity|]. cbn [nth tl].
  destruct e as [[]|]; reflexivity.
Qed.

Lemma getReader_Read_live (rs : list (list byte * option error)) (ce : option error)
    (acc : list byte) (ttl : Z) (key : string) (maxSize el : Z) (w : World) :
  getReader_Read (mkGetReader (mkStream rs ce) (Some acc) ttl key maxSize) el w
  = let r := nth 0 rs ([], Some io_EOF) in
    let n := Z.of_nat (length (fst r)) in
    if (n >? 0) && negb (Z.of_nat (length acc) + n <=? maxSize)
    then (Ok (r, mkGetReader (mkStream (tl rs) ce) None ttl key maxSize), w)
    else if is_eof r
    then (Ok (r, mkGetReader (mkStream (tl rs) ce) None ttl key maxSize),
          if sub64 ttl el >? 0
          then store_in w key (buffer_Bytes (acc ++ fst r)) (sub64 ttl el)
          else w)
    else (Ok (r, mkGetReader (mkStream (tl rs) ce) (Some (acc ++ fst r)) ttl key maxSize), w).
Proof.
  unfold getReader_Read, stream_Read, store_in.
  cbn [gr_r gr_buf reads close_err gr_ttl gr_cacheKey gr_maxSize].
  destruct rs as [|[d e] rs]; cbn [nth tl fst snd length].
  - cbv zeta. cbn. rewrite app_nil_r. destruct (sub64 ttl el >? 0); reflexivity.
  - cbv zeta. cbn [fst snd]. unfold is_eof. cbn [snd].
    destruct (Z.gtb_spec (Z.of_nat (length d)) 0) as [Hpos | Hzero]; cbn [andb].
    + destruct (Z.of_nat (length acc) + Z.of_nat (length d) <=? maxSize); cbn [negb].
      * destruct e as [[]|]; try reflexivity.
        unfold mbind, M_bind. destruct (sub64 ttl el >? 0); reflexivity.
      * destruct e as [[]|]; reflexivity.
    + assert (d = []) as -> by (destruct d; [reflexivity | cbn [length] in Hzero; lia]).
      rewrite app_nil_r.
      destruct e as [[]|]; try reflexivity.
      unfold mbind, M_bind. destruct (sub64 ttl el >? 0); reflexivity.
Qed.

Lemma answers_read (rs : list (list byte * option error)) (el : Z) (rest : list action) :
  answers rs (ActRead el :: rest) = nth 0 rs ([], Some io_EOF) :: answers (tl rs) rest.
Proof. destruct rs; reflexivity. Qed.

Lemma nth_tl {A} (k : nat) (l : list A) (d : A) : nth (S k) l d = nth k (tl l) d.
Proof. destruct l; [destruct k; reflexivity | reflexivity]. Qed.

Lemma bytes_of_cons (r : list byte * option error) (ans : list (list byte * option error)) :
  bytes_of (r :: ans) = fst r ++ bytes_of ans.
Proof. reflexivity. Qed.

Lemma getReader_run_dead (acts : list action) :
  forall (rs : list (list byte * option error)) (ce : option error) (ttl : Z) (key : string)
         (maxSize : Z) (w : World),
  exists g', getReader_run (mkGetReader (mkStream rs ce) None ttl key maxSize) acts w
             = (Ok (answers rs acts, g'), w).
Proof.
  induction acts as [|[el|] acts IH]; intros rs ce ttl key maxSize w.
  - eexists. reflexivity.
  - cbn [getReader_run]. unfold mbind, M_bind. rewrite getReader_Read_dead.
    destruct (IH (tl rs) ce ttl key maxSize w) as (g' & E). rewrite E.
    eexists. rewrite answers_read. reflexivity.
  - cbn [getReader_run]. unfold mbind, M_bind, getReader_Close.
    cbn [gr_r gr_ttl gr_cacheKey gr_maxSize mret M_ret].
    destruct (IH rs ce ttl key maxSize w) as (g' & E). rewrite E.
    eexists. reflexivity.
Qed.

Lemma length_zero_nil {A} (l : list A) : Z.of_nat (length l) <= 0 -> l = [].
Proof. destruct l; [reflexivity | cbn [length]; lia]. Qed.

Lemma getReader_run_captured (pre : list action) :
  forall (rs : list (list byte * option error)) (ce : option error) (acc : list byte)
         (ttl : Z) (key : string) (maxSize el : Z) (post : list action) (w : World),
    captured rs maxSize ttl acc pre el ->
    exists g',
      getReader_run (mkGetReader (mkStream rs ce) (Some acc) ttl key maxSize)
                    (pre ++ ActRead el :: post) w
      = (Ok (answers rs (pre ++ ActRead el :: post), g'),
         store_in w key (buffer_Bytes (acc ++ bytes_of (answers rs (pre ++ [ActRead el]))))
                  (sub64 ttl el)).
Proof.
  induction pre as [|a pre IH]; intros rs ce acc ttl key maxSize el post w
    (Hclose & Heof & Hlast & Hsize & Httl).
  - cbn [app length] in *. rewrite answers_read in Hsize. rewrite bytes_of_cons in Hsize.
    cbn [answers bytes_of map concat] in Hsize. rewrite app_nil_r in Hsize.
    cbn [getReader_run]. unfold mbind, M_bind. rewrite getReader_Read_live. cbv zeta.
    assert (Hfit : (Z.of_nat (length (fst (nth 0 rs ([], Some io_EOF)))) >? 0)
                   && negb (Z.of_nat (length acc)
                            + Z.of_nat (length (fst (nth 0 rs ([], Some io_EOF)))) <=? maxSize)
                   = false).
    { destruct Hsize as [-> | Hle]; [reflexivity|].
      apply andb_false_iff. right. apply negb_false_iff, Z.leb_le. exact Hle. }
    rewrite Hfit, Hlast.
    destruct (Z.gtb_spec (sub64 ttl el) 0); [|lia].
    destruct (getReader_run_dead post (tl rs) ce ttl key maxSize
                (store_in w key (buffer_Bytes (acc ++ fst (nth 0 rs ([], Some io_EOF))))
                          (sub64 ttl el))) as (g' & E).
    rewrite E. eexists. rewrite !answers_read, bytes_of_cons.
    cbn [answers bytes_of map concat]. rewrite app_nil_r. reflexivity.
  - destruct a as [el0|]; [|discriminate Hclose].
    cbn [forallb is_close negb andb] in Hclose.
    rewrite answers_read in Heof. cbn [forallb] in Heof.
    apply andb_true_iff in Heof. destruct Heof as [Hne Heof].
    cbn [length] in Hlast. rewrite nth_tl in Hlast.
    rewrite <- app_comm_cons, answers_read, bytes_of_cons in Hsize.
    set (r0 := nth 0 rs ([], Some io_EOF)) in *.
    rewrite <- app_comm_cons. cbn [getReader_run]. unfold mbind, M_bind.
    rewrite getReader_Read_live. cbv zeta. fold r0.
    assert (Hfit : (Z.of_nat (length (fst r0)) >? 0)
                   && negb (Z.of_nat (length acc) + Z.of_nat (length (fst r0)) <=? maxSize)
                   = false).
    { destruct (Z.gtb_spec (Z.of_nat (length (fst r0))) 0) as [Hpos | Hz]; [|reflexivity].
      cbn [andb]. apply negb_false_iff, Z.leb_le.
      destruct Hsize as [Hnil | Hle].
      - apply app_eq_nil in Hnil. destruct Hnil as [Hnil _]. rewrite Hnil in Hpos.
        cbn [length] in Hpos. lia.
      - rewrite length_app in Hle. lia. }
    rewrite Hfit. apply negb_true_iff in Hne. rewrite Hne.
    destruct (IH (tl rs) ce (acc ++ fst r0) ttl key maxSize el post w) as (g' & E).
    { repeat split; try assumption.
      destruct Hsize as [Hnil | Hle].
      - left. apply app_eq_nil in Hnil. tauto.
      - right. rewrite !length_app in *. lia. }
    rewrite E. eexists. rewrite <- ?app_comm_cons, !answers_read. fold r0.
    rewrite bytes_of_cons, <- app_assoc. reflexivity.
Qed.

Lemma getReader_run_stores (acts : list action) :
  forall (rs : list (list byte * option error)) (ce : option error) (acc : list byte)
         (ttl : Z) (key : string) (maxSize : Z) (w : World),
  exists g' w',
    getReader_run (mkGetReader (mkStream rs ce) (Some acc) ttl key maxSize) acts w
    = (Ok (answers rs acts, g'), w')
    /\ (w' = w
        \/ exists pre el post,
            acts = pre ++ ActRead el :: post /\ captured rs maxSize ttl acc pre el).
Proof.
  induction acts as [|[el|] acts IH]; intros rs ce acc ttl key maxSize w.
  - eexists _, w. split; [reflexivity | left; reflexivity].
  - cbn [getReader_run]. unfold mbind, M_bind. rewrite getReader_Read_live. cbv zeta.
    rewrite answers_read. set (r0 := nth 0 rs ([], Some io_EOF)) in *.
    destruct ((Z.of_nat (length (fst r0)) >? 0)
              && negb (Z.of_nat (length acc) + Z.of_nat (length (fst r0)) <=? maxSize)) eqn:Hfit.
    { destruct (getReader_run_dead acts (tl rs) ce ttl key maxSize w) as (g' & E).
      rewrite E. eexists _, w. split; [reflexivity | left; reflexivity]. }
    assert (Hsz : fst r0 = []
                  \/ Z.of_nat (length acc) + Z.of_nat (length (fst r0)) <= maxSize).
    { apply andb_false_iff in Hfit. destruct Hfit as [Hz | Hle].
      - left. apply length_zero_nil, gtb_false_iff, Hz.
      - right. apply negb_false_iff, Z.leb_le in Hle. exact Hle. }
    destruct (is_eof r0) eqn:Heof.
    + destruct (Z.gtb_spec (sub64 ttl el) 0) as [Hpos | Hneg].
      * destruct (getReader_run_dead acts (tl rs) ce ttl key maxSize
                    (store_in w key (buffer_Bytes (acc ++ fst r0)) (sub64 ttl el))) as (g' & E).
        rewrite E. eexists _, _. split; [reflexivity|]. right.
        exists [], el, acts. split; [reflexivity|].
        repeat split; [exact Heof | | lia].
        cbn [app]. rewrite answers_read. fold r0. rewrite bytes_of_cons.
        cbn [answers bytes_of map concat]. rewrite app_nil_r. exact Hsz.
      * destruct (getReader_run_dead acts (tl rs) ce ttl key maxSize w) as (g' & E).
        rewrite E. eexists _, w. split; [reflexivity | left; reflexivity].
    + destruct (IH (tl rs) ce (acc ++ fst r0) ttl key maxSize w) as (g' & w' & E & Hw).
      rewrite E. eexists _, w'. split; [reflexivity|].
      destruct Hw as [-> | (pre & el' & post & -> & Hc & He & Hl & Hs & Ht)];
        [left; reflexivity|].
      right. exists (ActRead el :: pre), el', post. split; [reflexivity|].
      repeat split.
      * exact Hc.
      * rewrite answers_read. fold r0. cbn [forallb]. rewrite Heof. exact He.
      * cbn [length]. rewrite nth_tl. exact Hl.
      * rewrite <- app_comm_cons, answers_read. fold r0. rewrite bytes_of_cons.
        destruct Hs as [Hnil | Hle].
        -- rewrite Hnil, app_nil_r. destruct Hsz as [-> | Hle]; [left; reflexivity|].
           right. exact Hle.
        -- right. rewrite !length_app in *. lia.
      * exact Ht.
  - cbn [getReader_run]. unfold mbind, M_bind, getReader_Close.
    cbn [gr_r gr_ttl gr_cacheKey gr_maxSize mret M_ret].
    destruct (getReader_run_dead acts rs ce ttl key maxSize w) as (g' & E).
    rewrite E. eexists _, w. split; [reflexivity | left; reflexivity].
Qed.

(** C8, as amended: the reads of the capturing reader return what the
    underlying stream returns, unchanged; the content is stored if and only
    if a read reaches the end of the stream while the capture is still
    active (no [Close] before, no chunk that would have taken the buffer
    past the cap) and the remaining TTL at that read is positive; what is
    stored then is the concatenation of all the bytes read, once. *)
Theorem getReader_stores_iff_full_read (g : getReader) (acts : list action) (w : World) :
  gr_buf g = Some [] ->
  (exists g', fst (getReader_run g acts w) = Ok (answers (reads (gr_r g)) acts, g'))
  /\ (forall pre el post,
        acts = pre ++ ActRead el :: post ->
        captured (reads (gr_r g)) (gr_maxSize g) (gr_ttl g) [] pre el ->
        stored (snd (getReader_run g acts w))
        = stored w ++ [mkStore (gr_cacheKey g)
                         (buffer_Bytes (bytes_of (answers (reads (gr_r g)) (pre ++ [ActRead el]))))
                         (sub64 (gr_ttl g) el)])
  /\ ((~ exists pre el post,
          acts = pre ++ ActRead el :: post
          /\ captured (reads (gr_r g)) (gr_maxSize g) (gr_ttl g) [] pre el) ->
      stored (snd (getReader_run g acts w)) = stored w).
Proof.
  destruct g as [[rs ce] buf ttl key maxSize]. cbn [gr_buf gr_r gr_ttl gr_cacheKey gr_maxSize reads].
  intros ->. split; [|split].
  - destruct (getReader_run_stores acts rs ce [] ttl key maxSize w) as (g' & w' & E & _).
    rewrite E. exists g'. reflexivity.
  - intros pre el post -> Hc.
    destruct (getReader_run_captured pre rs ce [] ttl key maxSize el post w Hc) as (g' & E).
    rewrite E. reflexivity.
  - intros Hno.
    destruct (getReader_run_stores acts rs ce [] ttl key maxSize w) as (g' & w' & E & Hw).
    rewrite E. destruct Hw as [-> | Hex]; [reflexivity | contradiction].
Qed.

Lemma getReader_stores_iff_full_read_witness :
  stored (snd (getReader_run
                 (mkGetReader (mkStream [([x00; x01], None); ([x02], Some io_EOF)] None)
                              (Some []) 100 "content:o" 1000)
                 [ActRead 1; ActRead 2] empty_world))
  = [mkStore "content:o" (Some [x00; x01; x02]) 98].
Proof.
  apply (proj1 (proj2 (getReader_stores_iff_full_read
                         (mkGetReader (mkStream [([x00; x01], None); ([x02], Some io_EOF)] None)
                                      (Some []) 100 "content:o" 1000)
                         [ActRead 1; ActRead 2] empty_world eq_refl))
           [ActRead 1] 2 [] eq_refl).
  repeat split; try reflexivity.
  right. vm_compute. discriminate.
Defined.

(** C8, as stated, fails: the end of the stream is reached with the
    capture still active, yet nothing is stored once the elapsed time has
    used up the TTL; one nanosecond earlier the same read stores the
    content. *)
Lemma getReader_no_store_when_ttl_elapsed :
  stored (snd (getReader_run
                 (mkGetReader (mkStream [([x00; x01], Some io_EOF)] None)
                              (Some []) 100 "content:o" 1000)
                 [ActRead 100] empty_world)) = []
  /\ stored (snd (getReader_run
                    (mkGetReader (mkStream [([x00; x01], Some io_EOF)] None)
                                 (Some []) 100 "content:o" 1000)
                    [ActRead 99] empty_world))
     = [mkStore "content:o" (Some [x00; x01]) 1].
Proof. split; vm_compute; reflexivity. Qed.

(** ** Range cache engine: arithmetic without wrap-around *)

Lemma add64_id (a b : Z) : in_range (a + b) -> add64 a b = a + b.
Proof. apply wrap64_id. Qed.

Lemma sub64_id (a b : Z) : in_range (a - b) -> sub64 a b = a - b.
Proof. apply wrap64_id. Qed.

Lemma div_mul_bounds (a b : Z) : 0 < b -> a - b < a / b * b <= a.
Proof.
  intros Hb. pose proof (Z.div_mod a b ltac:(lia)).
  pose proof (Z.mod_pos_bound a b Hb). lia.
Qed.

Lemma quot64_nonneg (a b : Z) : 0 <= a <= max_int64 -> 0 < b -> quot64 a b = a / b.
Proof.
  intros Ha Hb. unfold quot64. rewrite Z.quot_div_nonneg by lia.
  apply wrap64_id. unfold in_range, min_int64, max_int64 in *.
  pose proof (Z.div_pos a b ltac:(lia) Hb).
  pose proof (Z.div_le_upper_bound a b a Hb ltac:(nia)). lia.
Qed.

Lemma alignDown64 (a b : Z) :
  0 <= a <= max_int64 -> 0 < b -> mul64 (quot64 a b) b = alignDown b a.
Proof.
  intros Ha Hb. rewrite quot64_nonneg by assumption. unfold mul64, alignDown.
  apply wrap64_id. pose proof (div_mul_bounds a b Hb).
  pose proof (Z.div_pos a b ltac:(lia) Hb).
  unfold in_range, min_int64, max_int64 in *. nia.
Qed.

Lemma rem64_nonneg (a b : Z) : 0 <= a -> 0 < b -> rem64 a b = a mod b.
Proof. intros Ha Hb. unfold rem64. apply Z.rem_mod_nonneg; lia. Qed.

Lemma alignDown_bounds (sz x : Z) : 0 < sz -> x - sz < alignDown sz x <= x.
Proof. apply div_mul_bounds. Qed.

Lemma alignDown_mod (sz x : Z) : 0 < sz -> alignDown sz x mod sz = 0.
Proof. intros H. unfold alignDown. apply Z.mod_mul. lia. Qed.

Lemma alignUp_bounds (sz x : Z) : 0 < sz -> x <= alignUp sz x < x + sz.
Proof.
  intros H. unfold alignUp. pose proof (div_mul_bounds (x + sz - 1) sz H). lia.
Qed.

Lemma alignUp_mod (sz x : Z) : 0 < sz -> alignUp sz x mod sz = 0.
Proof. intros H. unfold alignUp. apply Z.mod_mul. lia. Qed.

(** The end of the aligned window, as the code computes it. *)
Lemma alignUp_cases (sz x : Z) :
  0 < sz ->
  alignUp sz x = if x mod sz >? 0 then alignDown sz x + sz else alignDown sz x.
Proof.
  intros H. unfold alignUp, alignDown.
  pose proof (Z.div_mod x sz ltac:(lia)) as Hdm.
  pose proof (Z.mod_pos_bound x sz H) as Hm.
  destruct (Z.gtb_spec (x mod sz) 0) as [Hpos | Hzero].
  - replace (x + sz - 1) with ((x mod sz - 1) + (x / sz + 1) * sz) by lia.
    rewrite Z.div_add by lia. rewrite Z.div_small by lia. lia.
  - assert (x mod sz = 0) as Hz by lia.
    replace (x + sz - 1) with ((sz - 1) + (x / sz) * sz) by lia.
    rewrite Z.div_add by lia. rewrite Z.div_small by lia. lia.
Qed.

Lemma aligned_multiple (sz x : Z) : 0 < sz -> x mod sz = 0 -> exists k, x = k * sz.
Proof.
  intros H Hm. exists (x / sz). pose proof (Z.div_mod x sz ltac:(lia)). lia.
Qed.

(** ** The grid of subrange offsets *)

Lemma gridOffsets_in (n : nat) (sz e : Z) :
  0 < sz ->
  forall off x, In x (gridOffsets n off e sz) ->
    off <= x < e /\ exists k, 0 <= k /\ x = off + k * sz.
Proof.
  intros Hsz. induction n as [|n IH]; intros off x Hin; [inversion Hin|].
  cbn [gridOffsets] in Hin. destruct (Z.ltb_spec off e); [|inversion Hin].
  destruct Hin as [<- | Hin].
  - split; [lia|]. exists 0. lia.
  - destruct (IH _ _ Hin) as (Hx & k & Hk & ->).
    split; [nia|]. exists (k + 1). lia.
Qed.

Lemma gridOffsets_complete (n : nat) (sz e : Z) :
  0 < sz ->
  forall off k, e <= off + Z.of_nat n * sz -> 0 <= k -> off + k * sz < e ->
    In (off + k * sz) (gridOffsets n off e sz).
Proof.
  intros Hsz. induction n as [|n IH]; intros off k Hn Hk Hlt.
  - cbn in Hn. nia.
  - cbn [gridOffsets]. destruct (Z.ltb_spec off e); [|nia].
    destruct (Z.eq_dec k 0) as [-> | Hne]; [left; lia|].
    right. replace (off + k * sz) with ((off + sz) + (k - 1) * sz) by lia.
    apply IH; [rewrite Nat2Z.inj_succ in Hn; lia | lia | lia].
Qed.

Lemma loopBound_enough (from to sz : Z) :
  0 < sz -> to <= from + Z.of_nat (loopBound from to sz) * sz.
Proof.
  intros Hsz. unfold loopBound.
  destruct (Z.le_gt_cases to from) as [Hle | Hgt]; [nia|].
  pose proof (Z.div_pos (to - from) sz ltac:(lia) Hsz).
  rewrite Z2Nat.id by lia.
  pose proof (div_mul_bounds (to - from) sz Hsz). lia.
Qed.

(** ** The loops over the grid, without wrap-around *)

(** Some offset of the grid at or after the end of the window fits in an
    [int64]: no offset that a loop reaches wraps around. *)
Lemma grid_end_step (off sz e : Z) :
  0 < sz -> off < e ->
  (exists k, 0 <= k /\ e <= off + k * sz <= max_int64) ->
  off + sz <= max_int64 /\ exists k, 0 <= k /\ e <= (off + sz) + k * sz <= max_int64.
Proof.
  intros Hsz Hlt (k & Hk & Hg). assert (1 <= k) by nia.
  split; [nia|]. exists (k - 1). split; [lia|]. nia.
Qed.

Lemma grid_end_exists (off sz e : Z) :
  0 < sz -> e + sz <= max_int64 -> min_int64 <= off <= max_int64 ->
  exists k, 0 <= k /\ e <= off + k * sz <= max_int64.
Proof.
  intros Hsz He Hoff. destruct (Z.le_gt_cases e off) as [Hle | Hgt].
  - exists 0. lia.
  - exists ((e - off) / sz + 1).
    pose proof (div_mul_bounds (e - off) sz Hsz).
    pose proof (Z.div_pos (e - off) sz ltac:(lia) Hsz). split; [lia|]. nia.
Qed.

Lemma keyLoop_grid (name : string) (size sz e : Z) (fuel : nat) :
  0 < sz ->
  forall off keys m,
    min_int64 <= off ->
    (exists k, 0 <= k /\ e <= off + k * sz <= max_int64) ->
    e <= off + Z.of_nat fuel * sz ->
    keyLoop fuel name size sz e off keys m
    = Some (keys ++ map (subrangeKey name size sz) (gridOffsets fuel off e sz),
            insertKeys name size sz (gridOffsets fuel off e sz) m).
Proof.
  intros Hsz. induction fuel as [|fuel IH]; intros off keys m Hoff Hg Hfuel.
  - cbn [keyLoop gridOffsets]. destruct (Z.ltb_spec off e); [cbn in Hfuel; lia|].
    cbn. rewrite app_nil_r. reflexivity.
  - cbn [keyLoop gridOffsets]. destruct (Z.ltb_spec off e) as [Hlt | Hge].
    + destruct (grid_end_step off sz e Hsz Hlt Hg) as [Hmax Hg'].
      rewrite add64_id by (unfold in_range; lia).
      rewrite IH by (rewrite ?Nat2Z.inj_succ in Hfuel; first [lia | exact Hg']).
      cbn [map insertKeys fold_left]. rewrite <- app_assoc. reflexivity.
    + cbn. rewrite app_nil_r. reflexivity.
Qed.

Lemma missingLoop_grid (sz e : Z) (cacheKeys : gmap Z string)
    (hits : gmap string (option (list byte))) (fuel : nat) :
  0 < sz ->
  forall off missing,
    min_int64 <= off ->
    (exists k, 0 <= k /\ e <= off + k * sz <= max_int64) ->
    e <= off + Z.of_nat fuel * sz ->
    missingLoop fuel sz e cacheKeys hits off missing
    = Some (missing ++ gapsAt sz cacheKeys hits (gridOffsets fuel off e sz)).
Proof.
  intros Hsz. induction fuel as [|fuel IH]; intros off missing Hoff Hg Hfuel.
  - cbn [missingLoop gridOffsets]. destruct (Z.ltb_spec off e); [cbn in Hfuel; lia|].
    cbn. rewrite app_nil_r. reflexivity.
  - cbn [missingLoop gridOffsets]. destruct (Z.ltb_spec off e) as [Hlt | Hge].
    + destruct (grid_end_step off sz e Hsz Hlt Hg) as [Hmax Hg'].
      rewrite add64_id by (unfold in_range; lia).
      rewrite IH by (rewrite ?Nat2Z.inj_succ in Hfuel; first [lia | exact Hg']).
      unfold gapsAt. cbn [flat_map].
      destruct (at_key hits (key_at cacheKeys off)).
      * reflexivity.
      * rewrite <- app_assoc. reflexivity.
    + cbn. rewrite app_nil_r. reflexivity.
Qed.

(** ** Missing gaps and their merging *)

Lemma gapsAt_onGrid (sz base e hi : Z) (cacheKeys : gmap Z string)
    (hits : gmap string (option (list byte))) (n : nat) :
  0 < sz ->
  (exists k, hi = base + k * sz /\ e <= hi) ->
  forall off, (exists k, 0 <= k /\ off = base + k * sz) ->
    Forall (onGrid base sz hi) (gapsAt sz cacheKeys hits (gridOffsets n off e sz)).
Proof.
  intros Hsz (kh & -> & Hhi). induction n as [|n IH]; intros off (k & Hk & ->); [constructor|].
  cbn [gridOffsets]. destruct (Z.ltb_spec (base + k * sz) e); [|constructor].
  unfold gapsAt. cbn [flat_map]. apply Forall_app. split.
  - destruct (at_key hits (key_at cacheKeys (base + k * sz))); constructor; [|constructor].
    assert (k + 1 <= kh) by nia.
    unfold onGrid. cbn [rng_start rng_end]. repeat split; [nia | nia | |].
    + exists k. reflexivity.
    + exists (k + 1). lia.
  - apply IH. exists (k + 1). split; lia.
Qed.

Lemma gapsAt_sorted (sz e : Z) (cacheKeys : gmap Z string)
    (hits : gmap string (option (list byte))) (n : nat) :
  0 < sz ->
  forall off p, p <= off ->
    sorted_from p (gapsAt sz cacheKeys hits (gridOffsets n off e sz)) = true.
Proof.
  intros Hsz. induction n as [|n IH]; intros off p Hp; [reflexivity|].
  cbn [gridOffsets]. destruct (Z.ltb_spec off e); [|reflexivity].
  unfold gapsAt. cbn [flat_map].
  destruct (at_key hits (key_at cacheKeys off)); cbn [app].
  - apply IH. lia.
  - apply sorted_from_cons. cbn [rng_start rng_end]. repeat split; [lia | lia|].
    apply IH. lia.
Qed.

Lemma gapsAt_covered (sz : Z) (cacheKeys : gmap Z string)
    (hits : gmap string (option (list byte))) (offs : list Z) (x : Z) :
  0 < sz -> In x offs -> at_key hits (key_at cacheKeys x) = None ->
  covered (gapsAt sz cacheKeys hits offs) x.
Proof.
  intros Hsz Hin Hmiss. exists (mkRng x (x + sz)). split; [|cbn; lia].
  unfold gapsAt. apply in_flat_map. exists x. split; [exact Hin|].
  rewrite Hmiss. left. reflexivity.
Qed.

Lemma onGrid_join (base sz hi : Z) (a b : rng) :
  onGrid base sz hi a -> onGrid base sz hi b ->
  onGrid base sz hi (mkRng (rng_start a) (rng_end b)).
Proof. unfold onGrid. cbn [rng_start rng_end]. tauto. Qed.

Lemma merge_loop_onGrid (base sz hi limit : Z) (rest : list rng) (last : rng) :
  Forall (onGrid base sz hi) (last :: rest) ->
  Forall (onGrid base sz hi) (merge_loop limit last rest).
Proof.
  revert last. induction rest as [|r rest IH]; intros last H; [exact H|].
  cbn [merge_loop]. inversion H as [|? ? Hl Hrest]; subst.
  inversion Hrest as [|? ? Hr Hrest']; subst.
  destruct (sub64 (rng_start r) (rng_end last) <=? limit).
  - apply IH. constructor; [apply onGrid_join; assumption | exact Hrest'].
  - constructor; [exact Hl | apply IH, Hrest].
Qed.

Lemma mergeRanges_onGrid (base sz hi limit : Z) (input : list rng) :
  Forall (onGrid base sz hi) input -> Forall (onGrid base sz hi) (mergeRanges input limit).
Proof. destruct input as [|r rest]; [trivial|]. apply merge_loop_onGrid. Qed.

Lemma merge_loop_covered (limit : Z) (rest : list rng) (last : rng) (x : Z) :
  rng_start last <= rng_end last ->
  sorted_from (rng_end last) rest = true ->
  covered (last :: rest) x -> covered (merge_loop limit last rest) x.
Proof.
  revert last. induction rest as [|r rest IH]; intros last Hl Hs Hc; [exact Hc|].
  apply sorted_from_cons in Hs. destruct Hs as (H1 & H2 & H3).
  cbn [merge_loop]. destruct (sub64 (rng_start r) (rng_end last) <=? limit).
  - apply IH; cbn [rng_start rng_end]; [lia | exact H3 |].
    destruct Hc as (g & Hin & Hx). destruct Hin as [<- | [<- | Hin]].
    + exists (mkRng (rng_start last) (rng_end r)). split; [left; reflexivity | cbn; lia].
    + exists (mkRng (rng_start last) (rng_end r)). split; [left; reflexivity | cbn; lia].
    + exists g. split; [right; exact Hin | exact Hx].
  - destruct Hc as (g & Hin & Hx). destruct Hin as [<- | Hin].
    + exists last. split; [left; reflexivity | exact Hx].
    + destruct (IH r H2 H3) as (g' & Hin' & Hx').
      { exists g. split; assumption. }
      exists g'. split; [right; exact Hin' | exact Hx'].
Qed.

Lemma mergeRanges_covered (limit : Z) (input : list rng) (x : Z) :
  sorted_gaps input = true -> covered input x -> covered (mergeRanges input limit) x.
Proof.
  destruct input as [|r rest]; [trivial|]. intros Hs.
  apply sorted_gaps_cons in Hs. destruct Hs as [H1 H2]. apply merge_loop_covered; assumption.
Qed.

(** What every merge keeps, the re-merge loop keeps, whatever the
    tolerances it runs through. *)
Lemma mergeUntil_inv (P : list rng -> Prop) (maxSub : Z) (fuel : nat) :
  (forall l limit, P l -> P (mergeRanges l limit)) ->
  forall limit missing out,
    mergeUntil fuel maxSub limit missing = Some out -> P missing -> P out.
Proof.
  intros Hkeep. induction fuel as [|fuel IH]; intros limit missing out E HP;
    cbn [mergeUntil] in E;
    destruct ((maxSub >? 0) && (Z.of_nat (length missing) >? maxSub)).
  - discriminate.
  - inversion E; subst. exact HP.
  - apply (IH _ _ _ E), Hkeep, HP.
  - inversion E; subst. exact HP.
Qed.

Lemma mergeRanges_gaps_ok (base sz hi : Z) (need : Z -> Prop) (l : list rng) (limit : Z) :
  gaps_ok base sz hi need l -> gaps_ok base sz hi need (mergeRanges l limit).
Proof.
  intros (Hs & Hg & Hc). split; [apply mergeRanges_sorted, Hs|].
  split; [apply mergeRanges_onGrid, Hg|].
  intros x Hx. apply mergeRanges_covered; [exact Hs | apply Hc, Hx].
Qed.

(** ** Fetching the missing subranges: what is known when it succeeds *)

Lemma sorted_from_wf (l : list rng) (p : Z) (r : rng) :
  sorted_from p l = true -> In r l -> rng_start r <= rng_end r.
Proof.
  revert p. induction l as [|a l IH]; intros p Hs Hin; [inversion Hin|].
  apply sorted_from_cons in Hs. destruct Hs as (_ & H2 & H3).
  destruct Hin as [<- | Hin]; [exact H2 | apply (IH _ H3 Hin)].
Qed.

Lemma sorted_gaps_wf (l : list rng) (r : rng) :
  sorted_gaps l = true -> In r l -> rng_start r <= rng_end r.
Proof.
  destruct l as [|a l]; [intros _ []|]. unfold sorted_gaps. apply sorted_from_wf.
Qed.

Lemma storeLoop_total (cfg : getRangeConfig) (cacheKeys : gmap Z string) (lo ll : Z)
    (m : rng) (buf : list byte) (fuel : nat) :
  0 < subrangeSize cfg -> rng_end m <= max_int64 ->
  forall off hits w hits' w',
    min_int64 <= off ->
    (exists k, 0 <= k /\ rng_end m = off + k * subrangeSize cfg) ->
    storeLoop fuel cfg cacheKeys lo ll m buf off hits w = (Ok hits', w') ->
    (forall k v, hits !! k = Some v -> hits' !! k = Some v)
    /\ (forall k, hits' !! k = Some None -> hits !! k = Some None)
    /\ (forall j, 0 <= j -> off + j * subrangeSize cfg < rng_end m ->
          is_Some (hits' !! key_at cacheKeys (off + j * subrangeSize cfg))).
Proof.
  intros Hsz Hmax. induction fuel as [|fuel IH]; intros off hits w hits' w' Hoff (k & Hk & Hend) E;
    cbn [storeLoop] in E; destruct (Z.ltb_spec off (rng_end m)) as [Hlt | Hge].
  - discriminate E.
  - inversion E; subst. repeat split; [auto | auto | intros; nia].
  - destruct (String.eqb (key_at cacheKeys off) ""); [discriminate E|].
    destruct (slice_bytes buf _ _) as [data|]; [|discriminate E].
    assert (1 <= k) by nia.
    rewrite add64_id in E by (unfold in_range; nia).
    assert (Hg : exists k', 0 <= k' /\ rng_end m = off + subrangeSize cfg + k' * subrangeSize cfg)
      by (exists (k - 1); split; lia).
    destruct (hits !! key_at cacheKeys off) as [v|] eqn:Hlk.
    + destruct (IH (off + subrangeSize cfg) _ _ _ _ ltac:(lia) Hg E) as (H1 & H2 & H3).
      repeat split; [exact H1 | exact H2 |].
      intros j Hj Hjlt. destruct (Z.eq_dec j 0) as [-> | Hne].
      * rewrite Z.add_0_r. exists v. apply H1, Hlk.
      * replace (off + j * subrangeSize cfg)
          with (off + subrangeSize cfg + (j - 1) * subrangeSize cfg) by lia.
        apply H3; lia.
    + unfold mbind, M_bind, cacheStore in E.
      destruct (IH (off + subrangeSize cfg) _ _ _ _ ltac:(lia) Hg E) as (H1 & H2 & H3).
      repeat split.
      * intros k0 v Hv. apply H1. rewrite lookup_insert_ne; [exact Hv | congruence].
      * intros k0 Hv. specialize (H2 k0 Hv).
        destruct (decide (key_at cacheKeys off = k0)) as [<- | Hne].
        -- rewrite lookup_insert_eq in H2. discriminate.
        -- rewrite lookup_insert_ne in H2 by exact Hne. exact H2.
      * intros j Hj Hjlt. destruct (Z.eq_dec j 0) as [-> | Hne].
        -- rewrite Z.add_0_r. exists (Some data). apply H1, lookup_insert_eq.
        -- replace (off + j * subrangeSize cfg)
             with (off + subrangeSize cfg + (j - 1) * subrangeSize cfg) by lia.
           apply H3; lia.
  - inversion E; subst. repeat split; [auto | auto | intros; nia].
Qed.

Lemma fetchRange_total (cb : CachingBucket) (name : string) (cfg : getRangeConfig)
    (cacheKeys : gmap Z string) (lo ll : Z) (m : rng)
    (hits hits' : gmap string (option (list byte))) (w w' : World) :
  0 < subrangeSize cfg -> min_int64 <= rng_start m -> rng_end m <= max_int64 ->
  (exists k, 0 <= k /\ rng_end m = rng_start m + k * subrangeSize cfg) ->
  fetchRange cb name cfg cacheKeys lo ll m hits w = (Ok hits', w') ->
  (forall k v, hits !! k = Some v -> hits' !! k = Some v)
  /\ (forall k, hits' !! k = Some None -> hits !! k = Some None)
  /\ (forall j, 0 <= j -> rng_start m + j * subrangeSize cfg < rng_end m ->
        is_Some (hits' !! key_at cacheKeys (rng_start m + j * subrangeSize cfg))).
Proof.
  intros Hsz Hs He Hg E. unfold fetchRange, mbind, M_bind, logCall in E. cbv zeta in E.
  destruct (bkt_GetRange (cb_Bucket cb) name (rng_start m) _) as [err | data]; [discriminate E|].
  match type of E with context [if ?c <? 0 then _ else _] => destruct (c <? 0) end;
    [discriminate E|].
  match type of E with context [if ?c then fail _ else _] => destruct c end;
    [discriminate E|].
  eapply storeLoop_total; eauto.
Qed.

Lemma fetchRanges_total (cb : CachingBucket) (name : string) (cfg : getRangeConfig)
    (cacheKeys : gmap Z string) (lo ll : Z) (missing : list rng) :
  0 < subrangeSize cfg ->
  forall hits hits' w w',
    (forall m, In m missing ->
       min_int64 <= rng_start m /\ rng_end m <= max_int64
       /\ exists k, 0 <= k /\ rng_end m = rng_start m + k * subrangeSize cfg) ->
    fetchRanges cb name cfg cacheKeys lo ll missing hits w = (Ok hits', w') ->
    (forall k v, hits !! k = Some v -> hits' !! k = Some v)
    /\ (forall k, hits' !! k = Some None -> hits !! k = Some None)
    /\ (forall m j, In m missing -> 0 <= j ->
          rng_start m + j * subrangeSize cfg < rng_end m ->
          is_Some (hits' !! key_at cacheKeys (rng_start m + j * subrangeSize cfg))).
Proof.
  intros Hsz. induction missing as [|m rest IH]; intros hits hits' w w' Hall E;
    cbn [fetchRanges] in E.
  - inversion E; subst. repeat split; [auto | auto | intros ? ? []].
  - unfold mbind, M_bind in E.
    destruct (fetchRange cb name cfg cacheKeys lo ll m hits w) as [[hits1 | | |] w1] eqn:E1;
      try discriminate E.
    destruct (Hall m (or_introl eq_refl)) as (Hs & He & Hg).
    destruct (fetchRange_total _ _ _ _ _ _ _ _ _ _ _ Hsz Hs He Hg E1) as (A1 & A2 & A3).
    destruct (IH hits1 hits' w1 w' (fun m' Hin => Hall m' (or_intror Hin)) E) as (B1 & B2 & B3).
    repeat split.
    + intros k v Hv. apply B1, A1, Hv.
    + intros k Hv. apply A2, B2, Hv.
    + intros m' j [<- | Hin] Hj Hlt.
      * destruct (A3 j Hj Hlt) as [v Hv]. exists v. apply B1, Hv.
      * apply B3; assumption.
Qed.

Lemma at_key_Some (m : gmap string (option (list byte))) (k : string) (b : list byte) :
  at_key m k = Some b <-> m !! k = Some (Some b).
Proof.
  unfold at_key. destruct (m !! k) as [[v|]|]; split; intros H; congruence.
Qed.

(** Away from nil values: for a positive subrange size, an aligned window
    whose offsets do not wrap around, and a map of hits in which no key has
    a nil value, when [fetchMissingSubranges] returns without error every
    aligned offset of [[startRange, endRange)] has non-nil bytes in the
    map. *)
Theorem fetchMissingSubranges_total (cb : CachingBucket) (name : string)
    (startRange endRange : Z) (cacheKeys : gmap Z string)
    (hits hits' : gmap string (option (list byte)))
    (lastSubrangeOffset lastSubrangeLength : Z) (cfg : getRangeConfig) (w w' : World) :
  0 < subrangeSize cfg ->
  min_int64 <= startRange <= max_int64 ->
  endRange + subrangeSize cfg <= max_int64 ->
  startRange mod subrangeSize cfg = 0 ->
  (forall k, hits !! k <> Some None) ->
  fetchMissingSubranges cb name startRange endRange cacheKeys hits
    lastSubrangeOffset lastSubrangeLength cfg w = (Ok hits', w') ->
  forall off, startRange <= off < endRange -> off mod subrangeSize cfg = 0 ->
    exists b, at_key hits' (key_at cacheKeys off) = Some b.
Proof.
  intros Hsz Hstart Hend Halign Hnonnil E off Hoff Hmod.
  set (sz := subrangeSize cfg) in *.
  destruct (grid_end_exists startRange sz endRange Hsz Hend Hstart) as (kh & Hkh & Hhi).
  unfold fetchMissingSubranges in E. fold sz in E.
  rewrite (missingLoop_grid sz endRange cacheKeys hits _ Hsz startRange [])
    in E by (first [lia | apply loopBound_enough, Hsz | exists kh; split; lia]).
  cbn [app] in E.
  set (gaps := gapsAt sz cacheKeys hits _) in E.
  destruct (mergeUntil _ (maxSubRequests cfg) sz (mergeRanges gaps 0)) as [ms|] eqn:Em;
    [|discriminate E].
  assert (Hgaps : gaps_ok startRange sz (startRange + kh * sz)
                    (fun x => In x (gridOffsets (loopBound startRange endRange sz)
                                                startRange endRange sz)
                              /\ at_key hits (key_at cacheKeys x) = None) gaps).
  { split; [|split].
    - apply sorted_from_gaps with startRange. apply gapsAt_sorted; [exact Hsz | lia].
    - apply gapsAt_onGrid;
        [exact Hsz | exists kh; split; [reflexivity | lia] | exists 0; split; lia].
    - intros x [Hin Hmiss]. apply gapsAt_covered; assumption. }
  destruct (mergeUntil_inv _ _ _ (mergeRanges_gaps_ok startRange sz _ _) _ _ _ Em
              (mergeRanges_gaps_ok _ _ _ _ _ 0 Hgaps)) as (Hms & Hmg & Hmc).
  destruct (fetchRanges_total cb name cfg cacheKeys lastSubrangeOffset lastSubrangeLength ms
              Hsz hits hits' w w') as (Hmono & Hnil & Hfill).
  { intros m Hin.
    destruct (proj1 (List.Forall_forall _ _) Hmg m Hin) as (H1 & H2 & (k1 & H3) & (k2 & H4)).
    pose proof (sorted_gaps_wf ms m Hms Hin) as Hwf.
    split; [lia|]. split; [lia|]. exists (k2 - k1). fold sz. split; [nia | lia]. }
  { exact E. }
  destruct (aligned_multiple sz off Hsz Hmod) as (ka & Hka).
  destruct (aligned_multiple sz startRange Hsz Halign) as (kb & Hkb).
  destruct (at_key hits (key_at cacheKeys off)) as [b|] eqn:Hat.
  - exists b. apply at_key_Some. apply Hmono. apply at_key_Some. exact Hat.
  - assert (Hin : In off (gridOffsets (loopBound startRange endRange sz) startRange endRange sz)).
    { replace off with (startRange + (ka - kb) * sz) by lia.
      apply gridOffsets_complete; [exact Hsz | apply loopBound_enough, Hsz | nia | lia]. }
    destruct (Hmc off (conj Hin Hat)) as (m & Hm & Hx).
    destruct (proj1 (List.Forall_forall _ _) Hmg m Hm) as (H1 & H2 & (k1 & H3) & (k2 & H4)).
    destruct (Hfill m (ka - kb - k1) Hm) as [v Hv]; [nia | fold sz; nia |].
    fold sz in Hv. replace (rng_start m + (ka - kb - k1) * sz) with off in Hv by lia.
    destruct v as [b|].
    + exists b. apply at_key_Some. exact Hv.
    + exfalso. apply (Hnonnil (key_at cacheKeys off)). apply Hnil. exact Hv.
Qed.

Lemma fetchMissingSubranges_total_witness :
  exists b, at_key demo_fetch_hits (key_at demo_keys 6) = Some b.
Proof.
  apply (fetchMissingSubranges_total demo_cb "o" 3 9 demo_keys demo_hits demo_fetch_hits 6 3
           (mkRangeCfg 3 2 100 100) empty_world (snd demo_fetch)) with (off := 6).
  - cbn. lia.
  - unfold min_int64, max_int64. lia.
  - unfold max_int64. cbn. lia.
  - reflexivity.
  - intros k. unfold demo_hits. destruct (decide (k = "subrange:o:3:6")) as [-> | Hne].
    + rewrite lookup_singleton_eq. discriminate.
    + rewrite lookup_singleton_ne by congruence. discriminate.
  - vm_compute. reflexivity.
  - lia.
  - reflexivity.
Defined.

(** C3, where the code breaks it: when the cache answers the key of a
    subrange with a nil value, the first loop of [fetchMissingSubranges]
    counts the subrange as missing ([hits[key] == nil]) and the bytes are
    fetched from the bucket, but the slicing loop keeps bytes only for keys
    absent from the map ([_, ok := hits[key]; !ok]) and drops them.  The
    fetch returns without error with the entry still nil, against the
    function's own comment (it "stores them into hits map"), and the reader
    handed out by [GetRange] fails at its first read with "subrange for
    offset not found".  Here: the 11-byte object, 3-byte subranges, the
    window [[0, 6)], and a cache that holds the key of the first subrange
    with a nil value. *)
Lemma fetchMissingSubranges_leaves_nil :
  match fetchMissingSubranges demo_cb "o" 0 6
          {[ 0 := "subrange:o:0:3"; 3 := "subrange:o:3:6" ]}
          {[ "subrange:o:0:3" := None ]} 3 3 (mkRangeCfg 3 2 100 100) empty_world with
  | (Ok hits', _) =>
      at_key hits' (key_at {[ 0 := "subrange:o:0:3"; 3 := "subrange:o:3:6" ]} 0) = None
  | _ => False
  end
  /\ match GetRange demo_cb "o" 0 6 nil_entry_world with
     | (Ok (SubrangesReader r), _) =>
         readAll 6 r 4
         = Fail (Wrapf (Errorf "subrange for offset not found") "read position")
     | _ => False
     end.
Proof. split; vm_compute; reflexivity. Qed.

(** ** Subrange keys *)

Lemma append_inv_head (a b c : string) : a +:+ b = a +:+ c -> b = c.
Proof.
  induction a as [|ch a IH]; [trivial|]. intros H.
  change (String ch (a +:+ b) = String ch (a +:+ c)) in H. inversion H. auto.
Qed.

Lemma FormatInt_inj (x y : Z) : in_range x -> in_range y -> FormatInt x = FormatInt y -> x = y.
Proof.
  intros Hx Hy H. apply (f_equal ParseInt) in H.
  rewrite !ParseInt_FormatInt in H by assumption. congruence.
Qed.

Lemma subrangeKey_long (name : string) (size sz x : Z) :
  0 < sz -> 0 < size -> 0 <= x -> x + sz <= max_int64 ->
  subrangeKey name size sz x
  = SubrangeVerb +:+ ":" +:+ name +:+ ":" +:+ FormatInt x +:+ ":"
    +:+ FormatInt (Z.min (x + sz) size).
Proof.
  intros Hsz Hsize Hx Hmax. unfold subrangeKey, BucketCacheKey_String. cbv zeta.
  cbn [Verb Name Start End_].
  rewrite add64_id by (unfold in_range, min_int64; lia).
  assert (Hend : (if x + sz >? size then size else x + sz) = Z.min (x + sz) size).
  { destruct (Z.gtb_spec (x + sz) size); lia. }
  rewrite Hend.
  destruct (Z.eqb_spec (Z.min (x + sz) size) 0) as [H0 | _]; [lia|].
  rewrite andb_false_r. reflexivity.
Qed.

Lemma subrangeKey_inj (name : string) (size sz x y : Z) :
  0 < sz -> 0 < size <= max_int64 -> 0 <= x -> 0 <= y ->
  x + sz <= max_int64 -> y + sz <= max_int64 ->
  subrangeKey name size sz x = subrangeKey name size sz y -> x = y.
Proof.
  intros Hsz Hsize Hx Hy Hxm Hym H.
  rewrite !subrangeKey_long in H by lia.
  do 4 apply append_inv_head in H.
  apply (f_equal split_colon) in H.
  rewrite !split_app_colon in H by apply FormatInt_colon.
  injection H as Hf _.
  apply FormatInt_inj; [| | exact Hf]; unfold in_range, min_int64, max_int64 in *; lia.
Qed.

Lemma subrangeKey_nonempty (name : string) (size sz x : Z) :
  String.eqb (subrangeKey name size sz x) "" = false.
Proof.
  unfold subrangeKey, BucketCacheKey_String. cbv zeta. cbn [Verb Name Start End_].
  match goal with |- context [if ?c then _ else _] => destruct c end; reflexivity.
Qed.

Lemma subrangeKey_not_attrs (name : string) (size sz x : Z) :
  subrangeKey name size sz x <> keyString AttributesVerb name.
Proof.
  unfold subrangeKey, keyString, BucketCacheKey_String. cbv zeta. cbn [Verb Name Start End_].
  match goal with |- context [if ?c then _ else _] => destruct c end; discriminate.
Qed.

Lemma insertKeys_other (name : string) (size sz : Z) (offs : list Z) :
  forall (m : gmap Z string) (x : Z),
    ~ In x offs -> insertKeys name size sz offs m !! x = m !! x.
Proof.
  induction offs as [|a offs IH]; intros m x Hnin; [reflexivity|].
  change (insertKeys name size sz (a :: offs) m)
    with (insertKeys name size sz offs (<[a := subrangeKey name size sz a]> m)).
  rewrite IH by (intros H; apply Hnin; right; exact H).
  apply lookup_insert_ne. intros ->. apply Hnin. left. reflexivity.
Qed.

Lemma insertKeys_lookup (name : string) (size sz : Z) (offs : list Z) :
  forall (m : gmap Z string) (x : Z),
    In x offs -> insertKeys name size sz offs m !! x = Some (subrangeKey name size sz x).
Proof.
  induction offs as [|a offs IH]; intros m x Hin; [inversion Hin|].
  change (insertKeys name size sz (a :: offs) m)
    with (insertKeys name size sz offs (<[a := subrangeKey name size sz a]> m)).
  destruct (in_dec Z.eq_dec x offs) as [Hin' | Hnin].
  - apply IH, Hin'.
  - destruct Hin as [-> | Hin]; [|contradiction].
    rewrite insertKeys_other by exact Hnin. apply lookup_insert_eq.
Qed.

Lemma key_at_insertKeys (name : string) (size sz : Z) (offs : list Z) (x : Z) :
  In x offs -> key_at (insertKeys name size sz offs ∅) x = subrangeKey name size sz x.
Proof. intros Hin. unfold key_at. rewrite insertKeys_lookup by exact Hin. reflexivity. Qed.

(** ** Counting the hits *)

Lemma fetch_map_cons (c : gmap string (option (list byte))) (k : string) (keys : list string) :
  fetch_map c (k :: keys)
  = match c !! k with
    | Some v => <[k := v]> (fetch_map c keys)
    | None => fetch_map c keys
    end.
Proof. reflexivity. Qed.

Lemma fetch_map_size (c : gmap string (option (list byte))) (keys : list string) :
  (size (fetch_map c keys) <= length keys)%nat.
Proof.
  induction keys as [|k keys IH];
    [change (fetch_map c []) with (∅ : gmap string (option (list byte)));
     rewrite map_size_empty; cbn; lia|].
  rewrite fetch_map_cons. cbn [length]. destruct (c !! k) as [v|]; [|lia].
  destruct (fetch_map c keys !! k) eqn:E.
  - rewrite map_size_insert_Some by eauto. lia.
  - rewrite map_size_insert_None by exact E. lia.
Qed.

Lemma fetch_map_full (c : gmap string (option (list byte))) (keys : list string) :
  (length keys <= size (fetch_map c keys))%nat ->
  forall k, In k keys -> is_Some (c !! k).
Proof.
  induction keys as [|k keys IH]; intros Hsize k' Hin; [inversion Hin|].
  rewrite fetch_map_cons in Hsize. cbn [length] in Hsize.
  pose proof (fetch_map_size c keys) as Hle.
  destruct (c !! k) as [v|] eqn:Ek; [|lia].
  assert (Hrest : (length keys <= size (fetch_map c keys))%nat).
  { destruct (fetch_map c keys !! k) eqn:E.
    - rewrite map_size_insert_Some in Hsize by eauto. lia.
    - rewrite map_size_insert_None in Hsize by exact E. lia. }
  destruct Hin as [<- | Hin]; [eauto | apply IH; assumption].
Qed.

(** ** Windows of an object *)

Lemma window_length (obj : list byte) (off len : Z) :
  0 <= off <= Z.of_nat (length obj) -> 0 <= len ->
  Z.of_nat (length (window obj off len)) = Z.min len (Z.of_nat (length obj) - off).
Proof.
  intros Hoff Hlen. unfold window. rewrite length_take, length_drop. lia.
Qed.

Lemma window_nil (obj : list byte) (off len : Z) :
  len <= 0 \/ Z.of_nat (length obj) <= off -> window obj off len = [].
Proof.
  unfold window. intros [H | H].
  - replace (Z.to_nat len) with 0%nat by lia. reflexivity.
  - rewrite drop_ge by lia. apply take_nil.
Qed.

Lemma window_clamp (obj : list byte) (off len : Z) :
  0 <= off -> Z.of_nat (length obj) - off <= len ->
  window obj off len = window obj off (Z.of_nat (length obj) - off).
Proof.
  intros Hoff Hlen. unfold window.
  rewrite !take_ge by (rewrite length_drop; lia). reflexivity.
Qed.

Lemma window_split (obj : list byte) (off a b : Z) :
  0 <= off -> 0 <= a -> 0 <= b ->
  window obj off a ++ window obj (off + a) b = window obj off (a + b).
Proof.
  intros Hoff Ha Hb. unfold window.
  replace (Z.to_nat (off + a)) with (Z.to_nat off + Z.to_nat a)%nat by lia.
  rewrite <- drop_drop, take_take_drop. f_equal. lia.
Qed.

Lemma slice_window (obj : list byte) (s b a n : Z) :
  0 <= s -> 0 <= a -> 0 <= n ->
  a + n <= Z.of_nat (length (window obj s b)) ->
  slice_bytes (window obj s b) a (a + n) = Some (window obj (s + a) n).
Proof.
  intros Hs Ha Hn Hlen. unfold slice_bytes.
  destruct (Z.leb_spec 0 a); [|lia]. destruct (Z.leb_spec a (a + n)); [|lia].
  destruct (Z.leb_spec (a + n) (Z.of_nat (length (window obj s b)))); [|lia].
  cbn [andb]. f_equal. unfold window in *.
  replace (Z.to_nat (a + n - a)) with (Z.to_nat n) by lia.
  rewrite length_take, length_drop in Hlen.
  rewrite take_drop_commute, take_take.
  replace (Z.to_nat (s + a)) with (Z.to_nat s + Z.to_nat a)%nat by lia.
  rewrite <- drop_drop, (take_drop_commute _ (Z.to_nat n) (Z.to_nat a)).
  f_equal. f_equal. lia.
Qed.

(** ** Fetching the missing subranges of an object with fixed contents *)

Lemma aligned_step (sz size y : Z) :
  0 < sz -> y mod sz = 0 -> y < size -> y + sz <= alignUp sz size.
Proof.
  intros Hsz Hy Hlt. destruct (aligned_multiple sz y Hsz Hy) as (k & ->).
  pose proof (alignUp_bounds sz size Hsz).
  destruct (aligned_multiple sz (alignUp sz size) Hsz (alignUp_mod sz size Hsz)) as (k' & Hk').
  rewrite Hk' in *. assert (k + 1 <= k') by nia. nia.
Qed.

Lemma consistent_insert (name : string) (obj : list byte) (sz x : Z)
    (m : gmap string (option (list byte))) :
  0 < sz -> alignUp sz (Z.of_nat (length obj)) <= max_int64 ->
  0 <= x < Z.of_nat (length obj) -> x mod sz = 0 ->
  consistent name obj sz m ->
  consistent name obj sz
    (<[subrangeKey name (Z.of_nat (length obj)) sz x := Some (window obj x sz)]> m).
Proof.
  intros Hsz Hmax Hx Hxa Hm y v Hy Hya Hv.
  destruct (decide (subrangeKey name (Z.of_nat (length obj)) sz x
                    = subrangeKey name (Z.of_nat (length obj)) sz y)) as [Heq | Hne].
  - rewrite Heq, lookup_insert_eq in Hv.
    pose proof (aligned_step sz _ x Hsz Hxa (proj2 Hx)).
    pose proof (aligned_step sz _ y Hsz Hya (proj2 Hy)).
    pose proof (alignUp_bounds sz (Z.of_nat (length obj)) Hsz).
    apply subrangeKey_inj in Heq; [|lia..]. subst y. congruence.
  - rewrite lookup_insert_ne in Hv by exact Hne. apply (Hm y v Hy Hya Hv).
Qed.

Lemma storeLoop_fills (name : string) (obj : list byte) (cfg : getRangeConfig)
    (cacheKeys : gmap Z string) (lo ll : Z) (m : rng) (buf : list byte) (fuel : nat) :
  0 < subrangeSize cfg ->
  alignUp (subrangeSize cfg) (Z.of_nat (length obj)) <= max_int64 ->
  rng_end m <= max_int64 ->
  forall off hits w,
    min_int64 <= off ->
    (exists k, 0 <= k /\ rng_end m = off + k * subrangeSize cfg) ->
    rng_end m <= off + Z.of_nat fuel * subrangeSize cfg ->
    consistent name obj (subrangeSize cfg) hits ->
    (forall j, 0 <= j -> off + j * subrangeSize cfg < rng_end m ->
       let x := off + j * subrangeSize cfg in
       key_at cacheKeys x = subrangeKey name (Z.of_nat (length obj)) (subrangeSize cfg) x
       /\ 0 <= x < Z.of_nat (length obj) /\ x mod subrangeSize cfg = 0
       /\ slice_bytes buf (sub64 x (rng_start m))
            (if x =? lo then add64 (sub64 x (rng_start m)) ll
             else add64 (sub64 x (rng_start m)) (subrangeSize cfg))
          = Some (window obj x (subrangeSize cfg))) ->
    exists hits' w',
      storeLoop fuel cfg cacheKeys lo ll m buf off hits w = (Ok hits', w')
      /\ consistent name obj (subrangeSize cfg) hits'
      /\ (forall k v, hits !! k = Some v -> hits' !! k = Some v)
      /\ (forall j, 0 <= j -> off + j * subrangeSize cfg < rng_end m ->
            is_Some (hits' !! key_at cacheKeys (off + j * subrangeSize cfg)))
      /\ calls w' = calls w.
Proof.
  intros Hsz Hmax Hend. induction fuel as [|fuel IH];
    intros off hits w Hoff (k & Hk & Hg) Hfuel Hcons Hvis; cbn [storeLoop];
    destruct (Z.ltb_spec off (rng_end m)) as [Hlt | Hge].
  - cbn in Hfuel. lia.
  - exists hits, w. repeat split; [exact Hcons | auto | intros; nia].
  - assert (1 <= k) by nia.
    destruct (Hvis 0 ltac:(lia) ltac:(lia)) as (Hkey & Hx & Hxa & Hslice).
    cbv zeta in Hkey, Hx, Hxa, Hslice. rewrite Z.add_0_r in Hkey, Hx, Hxa, Hslice.
    rewrite Hkey, subrangeKey_nonempty, Hslice.
    rewrite add64_id by (unfold in_range; nia).
    assert (Hg' : exists k', 0 <= k'
                   /\ rng_end m = off + subrangeSize cfg + k' * subrangeSize cfg)
      by (exists (k - 1); split; lia).
    assert (Hvis' : forall j, 0 <= j ->
              off + subrangeSize cfg + j * subrangeSize cfg < rng_end m ->
              let x := off + subrangeSize cfg + j * subrangeSize cfg in
              key_at cacheKeys x
              = subrangeKey name (Z.of_nat (length obj)) (subrangeSize cfg) x
              /\ 0 <= x < Z.of_nat (length obj) /\ x mod subrangeSize cfg = 0
              /\ slice_bytes buf (sub64 x (rng_start m))
                   (if x =? lo then add64 (sub64 x (rng_start m)) ll
                    else add64 (sub64 x (rng_start m)) (subrangeSize cfg))
                 = Some (window obj x (subrangeSize cfg))).
    { intros j Hj Hjlt.
      replace (off + subrangeSize cfg + j * subrangeSize cfg)
        with (off + (j + 1) * subrangeSize cfg) in * by lia.
      apply Hvis; lia. }
    assert (Hfuel' : rng_end m <= off + subrangeSize cfg + Z.of_nat fuel * subrangeSize cfg)
      by (rewrite Nat2Z.inj_succ in Hfuel; lia).
    destruct (hits !! subrangeKey name (Z.of_nat (length obj)) (subrangeSize cfg) off)
      as [v|] eqn:Hlk.
    + destruct (IH (off + subrangeSize cfg) hits w ltac:(lia) Hg' Hfuel' Hcons Hvis')
        as (hits' & w' & E & C1 & C2 & C3 & C4).
      exists hits', w'. split; [exact E|]. split; [exact C1|]. split; [exact C2|].
      split; [|exact C4].
      intros j Hj Hjlt. destruct (Z.eq_dec j 0) as [-> | Hne].
      * rewrite Z.add_0_r, Hkey. exists v. apply C2, Hlk.
      * replace (off + j * subrangeSize cfg)
          with (off + subrangeSize cfg + (j - 1) * subrangeSize cfg) by lia.
        apply C3; lia.
    + unfold mbind, M_bind, cacheStore.
      edestruct (IH (off + subrangeSize cfg)
                   (<[subrangeKey name (Z.of_nat (length obj)) (subrangeSize cfg) off
                      := Some (window obj off (subrangeSize cfg))]> hits))
        as (hits' & w' & E & C1 & C2 & C3 & C4);
        [lia | exact Hg' | exact Hfuel' | | exact Hvis' | ].
      { apply consistent_insert; assumption. }
      exists hits', w'. split; [exact E|]. split; [exact C1|]. split; [|split; [|exact C4]].
      * intros k0 v Hv. apply C2. rewrite lookup_insert_ne; [exact Hv | congruence].
      * intros j Hj Hjlt. destruct (Z.eq_dec j 0) as [-> | Hne].
        -- rewrite Z.add_0_r, Hkey. eexists. apply C2, lookup_insert_eq.
        -- replace (off + j * subrangeSize cfg)
             with (off + subrangeSize cfg + (j - 1) * subrangeSize cfg) by lia.
           apply C3; lia.
  - exists hits, w. repeat split; [exact Hcons | auto | intros; nia].
Qed.

(** The last subrange of the window, as [cachedGetRange] computes it: it
    always starts one subrange before the end of the window, and ends at the
    end of the window or of the object. *)
Lemma lastSubrange_cases (sz size endRange : Z) :
  0 < sz -> 0 <= size -> endRange mod sz = 0 -> endRange <= alignUp sz size ->
  (if endRange >? size then alignDown sz size else endRange - sz) = endRange - sz
  /\ (endRange - sz) + (if endRange >? size then size - alignDown sz size else sz)
     = Z.min endRange size
  /\ 0 < (if endRange >? size then size - alignDown sz size else sz) <= sz.
Proof.
  intros Hsz Hsize He Hle.
  destruct (aligned_multiple sz endRange Hsz He) as (ke & ->).
  pose proof (alignUp_bounds sz size Hsz) as Hu.
  pose proof (alignDown_bounds sz size Hsz) as Hd.
  destruct (aligned_multiple sz _ Hsz (alignUp_mod sz size Hsz)) as (ku & Hku).
  destruct (aligned_multiple sz _ Hsz (alignDown_mod sz size Hsz)) as (kd & Hkd).
  rewrite Hku, Hkd in *.
  destruct (Z.gtb_spec (ke * sz) size) as [Hgt | Hle'].
  - assert (ke = ku) by nia. assert (kd = ku - 1) by nia. subst. nia.
  - lia.
Qed.

Lemma grid_last (sz e x : Z) :
  0 < sz -> e mod sz = 0 -> x mod sz = 0 -> e - sz < x -> x <= e -> x = e.
Proof.
  intros Hsz He Hx Hlt Hle.
  destruct (aligned_multiple sz e Hsz He) as (ke & ->).
  destruct (aligned_multiple sz x Hsz Hx) as (kx & ->).
  assert (ke - 1 < kx) by (apply Z.mul_lt_mono_pos_r with sz; lia).
  assert (kx <= ke) by (apply Z.mul_le_mono_pos_r with sz; lia).
  f_equal. lia.
Qed.

Lemma grid_next (sz x y : Z) :
  0 < sz -> x mod sz = 0 -> y mod sz = 0 -> x < y -> x + sz <= y.
Proof.
  intros Hsz Hx Hy Hlt.
  destruct (aligned_multiple sz x Hsz Hx) as (kx & ->).
  destruct (aligned_multiple sz y Hsz Hy) as (ky & ->).
  assert (kx < ky) by (apply Z.mul_lt_mono_pos_r with sz; lia).
  assert ((kx + 1) * sz <= ky * sz) by (apply Z.mul_le_mono_nonneg_r; lia).
  lia.
Qed.

Lemma mod_grid (sz base j : Z) : 0 < sz -> base mod sz = 0 -> (base + j * sz) mod sz = 0.
Proof. intros Hsz Hb. rewrite Z.mod_add by lia. exact Hb. Qed.

Lemma fetchRange_fills (cb : CachingBucket) (name : string) (obj : list byte)
    (cfg : getRangeConfig) (cacheKeys : gmap Z string) (startRange endRange lo ll : Z)
    (m : rng) (hits : gmap string (option (list byte))) (w : World) :
  0 < subrangeSize cfg ->
  alignUp (subrangeSize cfg) (Z.of_nat (length obj)) <= max_int64 ->
  (forall off len, 0 <= off -> 0 <= len ->
     bkt_GetRange (cb_Bucket cb) name off len = inr (window obj off len)) ->
  0 <= startRange -> startRange mod subrangeSize cfg = 0 ->
  endRange mod subrangeSize cfg = 0 ->
  endRange <= alignUp (subrangeSize cfg) (Z.of_nat (length obj)) ->
  lo = endRange - subrangeSize cfg ->
  lo + ll = Z.min endRange (Z.of_nat (length obj)) ->
  0 < ll <= subrangeSize cfg ->
  onGrid startRange (subrangeSize cfg) endRange m ->
  rng_start m < rng_end m ->
  (forall j, 0 <= j -> startRange + j * subrangeSize cfg < endRange ->
     key_at cacheKeys (startRange + j * subrangeSize cfg)
     = subrangeKey name (Z.of_nat (length obj)) (subrangeSize cfg)
         (startRange + j * subrangeSize cfg)) ->
  consistent name obj (subrangeSize cfg) hits ->
  exists hits' w',
    fetchRange cb name cfg cacheKeys lo ll m hits w = (Ok hits', w')
    /\ consistent name obj (subrangeSize cfg) hits'
    /\ (forall k v, hits !! k = Some v -> hits' !! k = Some v)
    /\ (forall j, 0 <= j -> rng_start m + j * subrangeSize cfg < rng_end m ->
          is_Some (hits' !! key_at cacheKeys (rng_start m + j * subrangeSize cfg))).
Proof.
  intros Hsz Hmax Hbucket Hs0 Hsa Hea Hele Hlo Hll Hllr (G1 & G2 & (k1 & G3) & (k2 & G4)) Hprop
    Hkeys Hcons.
  set (sz := subrangeSize cfg) in *. set (size := Z.of_nat (length obj)) in *.
  pose proof (alignUp_bounds sz size Hsz) as Hu.
  destruct (aligned_multiple sz endRange Hsz Hea) as (ke & Hke).
  destruct (aligned_multiple sz startRange Hsz Hsa) as (ks & Hks).
  assert (Hma : rng_start m mod sz = 0) by (rewrite G3; apply mod_grid; assumption).
  assert (Hmb : rng_end m mod sz = 0) by (rewrite G4; apply mod_grid; assumption).
  assert (Hstep : rng_start m + sz <= rng_end m) by (apply grid_next; assumption).
  assert (Hk12 : k1 + 1 <= k2) by nia.
  assert (Hendle : rng_end m <= endRange) by lia.
  assert (Hstart : 0 <= rng_start m < size) by lia.
  unfold fetchRange. cbv zeta. fold sz.
  rewrite sub64_id by (unfold in_range, min_int64; unfold max_int64 in *; lia).
  rewrite Hbucket by lia. unfold mbind, M_bind, logCall.
  assert (Hbuf : (if lo >=? rng_end m then rng_end m - rng_start m
                  else add64 (sub64 (rng_end m - rng_start m) sz) ll)
                 = Z.min (rng_end m) size - rng_start m).
  { destruct (Z.geb_spec lo (rng_end m)) as [Hge | Hlt]; [lia|].
    assert (rng_end m = endRange) by (apply (grid_last sz); first [assumption | lia]).
    rewrite sub64_id by (unfold in_range, min_int64; unfold max_int64 in *; lia).
    rewrite add64_id by (unfold in_range, min_int64; unfold max_int64 in *; lia).
    lia. }
  assert (Hpos : 0 <= Z.min (rng_end m) size - rng_start m) by lia.
  assert (Hlen : Z.of_nat (length (window obj (rng_start m) (rng_end m - rng_start m)))
                 = Z.min (rng_end m) size - rng_start m).
  { rewrite window_length by (fold size; lia). fold size. lia. }
  rewrite Hbuf, Hlen.
  destruct (Z.ltb_spec (Z.min (rng_end m) size - rng_start m) 0) as [Hneg | _];
    [exfalso; clear Hlen; lia|].
  rewrite Z.ltb_irrefl.
  rewrite take_ge by (apply Nat2Z.inj_le; rewrite Hlen, Z2Nat.id by exact Hpos; apply Z.le_refl).
  edestruct (storeLoop_fills name obj cfg cacheKeys lo ll m
               (window obj (rng_start m) (rng_end m - rng_start m))
               (loopBound (rng_start m) (rng_end m) sz) Hsz Hmax ltac:(clear Hlen; lia)
               (rng_start m) hits)
    as (hits' & w' & E & C1 & C2 & C3 & _).
  - unfold min_int64. clear Hlen. lia.
  - exists (k2 - k1). fold sz. clear Hlen. split; lia.
  - apply loopBound_enough, Hsz.
  - exact Hcons.
  - fold sz size. intros j Hj Hjlt. cbv zeta.
    assert (Hxa : (rng_start m + j * sz) mod sz = 0) by (apply mod_grid; assumption).
    assert (Hxe : rng_start m + j * sz + sz <= rng_end m) by (apply grid_next; assumption).
    assert (Hjz : 0 <= j * sz) by (clear Hlen; nia).
    split; [|split; [|split]].
    + replace (rng_start m + j * sz) with (startRange + (k1 + j) * sz) by (clear Hlen; lia).
      apply Hkeys; clear Hlen; nia.
    + clear Hlen. lia.
    + exact Hxa.
    + rewrite sub64_id
        by (clear Hlen; unfold in_range, min_int64; unfold max_int64 in *; lia).
      replace (rng_start m + j * sz - rng_start m) with (j * sz) by (clear Hlen; lia).
      destruct (Z.eqb_spec (rng_start m + j * sz) lo) as [Heq | Hne].
      * rewrite add64_id
          by (clear Hlen; unfold in_range, min_int64; unfold max_int64 in *; lia).
        assert (rng_end m = endRange)
          by (apply (grid_last sz); first [assumption | clear Hlen; lia]).
        rewrite slice_window by (first [rewrite Hlen; clear Hlen; lia | clear Hlen; lia]).
        f_equal. destruct (Z.le_gt_cases endRange size).
        -- f_equal. clear Hlen. lia.
        -- rewrite (window_clamp obj _ sz) by (fold size; clear Hlen; lia).
           f_equal. fold size. clear Hlen. lia.
      * rewrite add64_id
          by (clear Hlen; unfold in_range, min_int64; unfold max_int64 in *; lia).
        assert (rng_start m + j * sz + sz <= lo).
        { assert (Hlm : lo mod sz = 0).
          { rewrite Hlo, Hke. replace (ke * sz - sz) with (0 + (ke - 1) * sz) by lia.
            apply mod_grid; [exact Hsz | reflexivity]. }
          apply grid_next; [exact Hsz | exact Hxa | exact Hlm |].
          clear Hlen. lia. }
        rewrite slice_window by (first [rewrite Hlen; clear Hlen; lia | clear Hlen; lia]).
        reflexivity.
  - exists hits', w'. fold sz in C3. repeat split; eauto.
Qed.

Lemma fetchRanges_fills (cb : CachingBucket) (name : string) (obj : list byte)
    (cfg : getRangeConfig) (cacheKeys : gmap Z string) (startRange endRange lo ll : Z)
    (missing : list rng) :
  0 < subrangeSize cfg ->
  alignUp (subrangeSize cfg) (Z.of_nat (length obj)) <= max_int64 ->
  (forall off len, 0 <= off -> 0 <= len ->
     bkt_GetRange (cb_Bucket cb) name off len = inr (window obj off len)) ->
  0 <= startRange -> startRange mod subrangeSize cfg = 0 ->
  endRange mod subrangeSize cfg = 0 ->
  endRange <= alignUp (subrangeSize cfg) (Z.of_nat (length obj)) ->
  lo = endRange - subrangeSize cfg ->
  lo + ll = Z.min endRange (Z.of_nat (length obj)) ->
  0 < ll <= subrangeSize cfg ->
  (forall j, 0 <= j -> startRange + j * subrangeSize cfg < endRange ->
     key_at cacheKeys (startRange + j * subrangeSize cfg)
     = subrangeKey name (Z.of_nat (length obj)) (subrangeSize cfg)
         (startRange + j * subrangeSize cfg)) ->
  Forall (onGrid startRange (subrangeSize cfg) endRange) missing ->
  Forall (fun r => rng_start r < rng_end r) missing ->
  forall hits w,
    consistent name obj (subrangeSize cfg) hits ->
    exists hits' w',
      fetchRanges cb name cfg cacheKeys lo ll missing hits w = (Ok hits', w')
      /\ consistent name obj (subrangeSize cfg) hits'
      /\ (forall k v, hits !! k = Some v -> hits' !! k = Some v)
      /\ (forall m j, In m missing -> 0 <= j ->
            rng_start m + j * subrangeSize cfg < rng_end m ->
            is_Some (hits' !! key_at cacheKeys (rng_start m + j * subrangeSize cfg))).
Proof.
  intros Hsz Hmax Hbucket Hs0 Hsa Hea Hele Hlo Hll Hllr Hkeys.
  induction missing as [|m rest IH]; intros Hgrid Hprop hits w Hcons; cbn [fetchRanges].
  - exists hits, w. repeat split; [exact Hcons | auto | intros ? ? []].
  - apply Forall_cons in Hgrid. destruct Hgrid as [Hg Hgrid'].
    apply Forall_cons in Hprop. destruct Hprop as [Hp Hprop'].
    destruct (fetchRange_fills cb name obj cfg cacheKeys startRange endRange lo ll m hits w
                Hsz Hmax Hbucket Hs0 Hsa Hea Hele Hlo Hll Hllr Hg Hp Hkeys Hcons)
      as (hits1 & w1 & E1 & A1 & A2 & A3).
    destruct (IH Hgrid' Hprop' hits1 w1 A1) as (hits' & w' & E & B1 & B2 & B3).
    exists hits', w'. unfold mbind, M_bind. rewrite E1. split; [exact E|].
    split; [exact B1|]. split.
    + intros k v Hv. apply B2, A2, Hv.
    + intros m' j [<- | Hin] Hj Hlt.
      * destruct (A3 j Hj Hlt) as [v Hv]. exists v. apply B2, Hv.
      * apply B3; assumption.
Qed.

Lemma merge_loop_proper (limit : Z) (rest : list rng) (last : rng) :
  sorted_from (rng_end last) rest = true ->
  Forall (fun r => rng_start r < rng_end r) (last :: rest) ->
  Forall (fun r => rng_start r < rng_end r) (merge_loop limit last rest).
Proof.
  revert last. induction rest as [|r rest IH]; intros last Hs H; [exact H|].
  apply sorted_from_cons in Hs. destruct Hs as (H1 & H2 & H3).
  inversion H as [|? ? Hl Hrest]; subst. inversion Hrest as [|? ? Hr Hrest']; subst.
  cbn [merge_loop]. destruct (sub64 (rng_start r) (rng_end last) <=? limit).
  - apply IH; [exact H3|]. constructor; [cbn [rng_start rng_end]; lia | exact Hrest'].
  - constructor; [exact Hl | apply IH; assumption].
Qed.

Lemma mergeRanges_proper (limit : Z) (input : list rng) :
  sorted_gaps input = true ->
  Forall (fun r => rng_start r < rng_end r) input ->
  Forall (fun r => rng_start r < rng_end r) (mergeRanges input limit).
Proof.
  destruct input as [|r rest]; [trivial|]. intros Hs.
  apply sorted_gaps_cons in Hs. apply merge_loop_proper, Hs.
Qed.

Lemma gapsAt_proper (sz : Z) (cacheKeys : gmap Z string)
    (hits : gmap string (option (list byte))) (offs : list Z) :
  0 < sz -> Forall (fun r => rng_start r < rng_end r) (gapsAt sz cacheKeys hits offs).
Proof.
  intros Hsz. apply List.Forall_forall. intros r Hin. unfold gapsAt in Hin.
  apply in_flat_map in Hin. destruct Hin as (x & _ & Hin).
  destruct (at_key hits (key_at cacheKeys x)); [inversion Hin|].
  destruct Hin as [<- | []]. cbn. lia.
Qed.

Lemma onGrid_within (base sz hi : Z) (l : list rng) :
  0 <= base -> hi <= 2 ^ 62 -> Forall (onGrid base sz hi) l -> within 0 (2 ^ 62) l = true.
Proof.
  intros Hb Hh H. induction H as [|r l (G1 & G2 & _) _ IH]; [reflexivity|].
  apply within_cons. split; [lia | exact IH].
Qed.

(** With every entry of [hits] agreeing with the object, the fetch of the
    missing subranges succeeds and leaves under the key of every offset of
    the window the bytes of the object. *)
Lemma fetchMissingSubranges_fills (cb : CachingBucket) (name : string) (obj : list byte)
    (cfg : getRangeConfig) (cacheKeys : gmap Z string) (startRange endRange lo ll : Z)
    (hits : gmap string (option (list byte))) (w : World) :
  0 < subrangeSize cfg ->
  alignUp (subrangeSize cfg) (Z.of_nat (length obj)) <= 2 ^ 62 ->
  (forall off len, 0 <= off -> 0 <= len ->
     bkt_GetRange (cb_Bucket cb) name off len = inr (window obj off len)) ->
  0 <= startRange -> startRange mod subrangeSize cfg = 0 ->
  endRange mod subrangeSize cfg = 0 ->
  endRange <= alignUp (subrangeSize cfg) (Z.of_nat (length obj)) ->
  lo = endRange - subrangeSize cfg ->
  lo + ll = Z.min endRange (Z.of_nat (length obj)) ->
  0 < ll <= subrangeSize cfg ->
  (forall j, 0 <= j -> startRange + j * subrangeSize cfg < endRange ->
     key_at cacheKeys (startRange + j * subrangeSize cfg)
     = subrangeKey name (Z.of_nat (length obj)) (subrangeSize cfg)
         (startRange + j * subrangeSize cfg)) ->
  consistent name obj (subrangeSize cfg) hits ->
  exists hits' w',
    fetchMissingSubranges cb name startRange endRange cacheKeys hits lo ll cfg w
    = (Ok hits', w')
    /\ consistent name obj (subrangeSize cfg) hits'
    /\ forall j, 0 <= j -> startRange + j * subrangeSize cfg < endRange ->
         at_key hits' (subrangeKey name (Z.of_nat (length obj)) (subrangeSize cfg)
                         (startRange + j * subrangeSize cfg))
         = Some (window obj (startRange + j * subrangeSize cfg) (subrangeSize cfg)).
Proof.
  intros Hsz Hmax Hbucket Hs0 Hsa Hea Hele Hlo Hll Hllr Hkeys Hcons.
  set (sz := subrangeSize cfg) in *. set (size := Z.of_nat (length obj)) in *.
  assert (Hmax64 : alignUp sz size <= max_int64) by (unfold max_int64; lia).
  pose proof (alignUp_bounds sz size Hsz) as Hu.
  unfold fetchMissingSubranges. fold sz.
  destruct (Z.le_gt_cases endRange startRange) as [Hempty | Hlt].
  { (* an empty window: nothing is missing *)
    assert (Hg0 : gridOffsets (loopBound startRange endRange sz) startRange endRange sz = []).
    { destruct (loopBound startRange endRange sz); [reflexivity|].
      cbn [gridOffsets]. destruct (Z.ltb_spec startRange endRange); [lia | reflexivity]. }
    unfold loopBound at 1. replace (Z.to_nat ((endRange - startRange) / sz + 1)) with
      (loopBound startRange endRange sz) by reflexivity.
    assert (Hml : missingLoop (loopBound startRange endRange sz) sz endRange cacheKeys hits
                    startRange [] = Some []).
    { destruct (loopBound startRange endRange sz); cbn [missingLoop];
        (destruct (Z.ltb_spec startRange endRange); [lia | reflexivity]). }
    rewrite Hml. cbn [mergeRanges length Nat.add].
    rewrite mergeUntil_done.
    - cbn [fetchRanges]. exists hits, w. split; [reflexivity|]. split; [exact Hcons|].
      intros j Hj Hjlt. nia.
    - cbn [length]. destruct (Z.gtb_spec (maxSubRequests cfg) 0);
        destruct (Z.gtb_spec (Z.of_nat 0) (maxSubRequests cfg)); try reflexivity; lia. }
  destruct (aligned_multiple sz endRange Hsz Hea) as (ke & Hke).
  destruct (aligned_multiple sz startRange Hsz Hsa) as (ks & Hks).
  assert (Hkk : 0 <= ke - ks) by nia.
  rewrite (missingLoop_grid sz endRange cacheKeys hits _ Hsz startRange [])
    by (first [unfold min_int64; lia | apply loopBound_enough, Hsz
              | exists (ke - ks); split; [exact Hkk | lia]]).
  cbn [app].
  set (offs := gridOffsets (loopBound startRange endRange sz) startRange endRange sz).
  set (gaps := gapsAt sz cacheKeys hits offs).
  set (need := fun x => In x offs /\ at_key hits (key_at cacheKeys x) = None).
  assert (Hgaps : gaps_ok startRange sz endRange need gaps
                  /\ Forall (fun r => rng_start r < rng_end r) gaps).
  { split; [split; [|split]|].
    - apply sorted_from_gaps with startRange. apply gapsAt_sorted; [exact Hsz | lia].
    - apply gapsAt_onGrid;
        [exact Hsz | exists (ke - ks); split; lia | exists 0; split; lia].
    - intros x [Hin Hmiss]. apply gapsAt_covered; assumption.
    - apply gapsAt_proper, Hsz. }
  assert (Hkeep : forall l limit,
            gaps_ok startRange sz endRange need l
            /\ Forall (fun r => rng_start r < rng_end r) l ->
            gaps_ok startRange sz endRange need (mergeRanges l limit)
            /\ Forall (fun r => rng_start r < rng_end r) (mergeRanges l limit)).
  { intros l limit [Hok Hpr]. split; [apply mergeRanges_gaps_ok, Hok|].
    apply mergeRanges_proper; [apply Hok | exact Hpr]. }
  pose proof (Hkeep gaps 0 Hgaps) as Hgaps0.
  destruct (mergeUntil_stops (maxSubRequests cfg) 62 sz (mergeRanges gaps 0)
              (66 + length (mergeRanges gaps 0))) as (ms & Em & _ & _).
  { pose proof (grid_next sz startRange endRange Hsz Hsa Hea Hlt).
    unfold max_int64 in *. lia. }
  { change (2 ^ Z.of_nat 62) with (2 ^ 62). nia. }
  { apply Hgaps0. }
  { apply onGrid_within with startRange sz endRange; [lia | lia | apply Hgaps0]. }
  { lia. }
  rewrite Em.
  destruct (mergeUntil_inv _ _ _ Hkeep _ _ _ Em Hgaps0) as ((Hms & Hmg & Hmc) & Hmp).
  destruct (fetchRanges_fills cb name obj cfg cacheKeys startRange endRange lo ll ms
              Hsz Hmax64 Hbucket Hs0 Hsa Hea Hele Hlo Hll Hllr Hkeys Hmg Hmp hits w Hcons)
    as (hits' & w' & E & C1 & C2 & C3).
  exists hits', w'. split; [exact E|]. split; [exact C1|].
  intros j Hj Hjlt. fold sz size.
  set (x := startRange + j * sz) in *.
  assert (Hxa : x mod sz = 0) by (apply mod_grid; assumption).
  assert (Hx : 0 <= x < size).
  { pose proof (grid_next sz x endRange Hsz Hxa Hea Hjlt). unfold x in *. nia. }
  assert (Hpresent : is_Some (hits' !! subrangeKey name size sz x)).
  { pose proof (Hkeys j Hj Hjlt) as Hkx. fold x in Hkx. rewrite <- Hkx.
    destruct (at_key hits (key_at cacheKeys x)) as [b|] eqn:Hat.
    - exists (Some b). apply C2. apply at_key_Some. exact Hat.
    - assert (Hin : In x offs) by (apply gridOffsets_complete;
        [exact Hsz | apply loopBound_enough, Hsz | exact Hj | exact Hjlt]).
      destruct (Hmc x (conj Hin Hat)) as (m & Hm & Hxm).
      destruct (proj1 (List.Forall_forall _ _) Hmg m Hm) as (G1 & G2 & (k1 & G3) & (k2 & G4)).
      specialize (C3 m (j - k1) Hm). fold sz in C3.
      replace (rng_start m + (j - k1) * sz) with x in C3 by (unfold x; lia).
      apply C3; [unfold x in *; nia | lia]. }
  destruct Hpresent as [v Hv]. pose proof (C1 x v Hx Hxa Hv) as ->.
  apply at_key_Some. exact Hv.
Qed.

(** ** The assembling reader *)

Lemma alignDown_mono_grid (sz base x : Z) :
  0 < sz -> base mod sz = 0 -> base <= x ->
  exists j, 0 <= j /\ alignDown sz x = base + j * sz.
Proof.
  intros Hsz Hb Hle. destruct (aligned_multiple sz base Hsz Hb) as (kb & ->).
  exists (x / sz - kb). unfold alignDown.
  assert (kb <= x / sz) by (apply Z.div_le_lower_bound; lia).
  split; lia.
Qed.

Lemma subrangesReader_Read_window (obj : list byte) (sz : Z) (keys : gmap Z string)
    (hits : gmap string (option (list byte))) (startRange endRange plen ro rem : Z) :
  0 < sz -> alignUp sz (Z.of_nat (length obj)) <= max_int64 ->
  0 <= startRange -> startRange mod sz = 0 -> endRange mod sz = 0 ->
  (forall j, 0 <= j -> startRange + j * sz < endRange ->
     at_key hits (key_at keys (startRange + j * sz))
     = Some (window obj (startRange + j * sz) sz)) ->
  0 < plen -> startRange <= ro -> 0 < rem ->
  ro + rem <= endRange -> ro + rem <= Z.of_nat (length obj) ->
  exists n, 0 < n <= rem
    /\ subrangesReader_Read (mkSubrangesReader sz keys hits ro rem) plen
       = (Ok (window obj ro n), mkSubrangesReader sz keys hits (ro + n) (rem - n)).
Proof.
  intros Hsz Hmax Hs0 Hsa Hea Hfilled Hplen Hro Hrem Hend Hsize.
  pose proof (alignUp_bounds sz (Z.of_nat (length obj)) Hsz) as Hu.
  pose proof (alignDown_bounds sz ro Hsz) as Hd.
  destruct (alignDown_mono_grid sz startRange ro Hsz Hsa Hro) as (j & Hj & Hcur).
  unfold subrangesReader_Read. cbn [remaining sr_subrangeSize readOffset offsetsKeys subranges].
  destruct (Z.leb_spec rem 0) as [? | _]; [lia|].
  destruct (Z.eqb_spec sz 0) as [? | _]; [lia|].
  rewrite alignDown64 by (unfold max_int64 in *; lia).
  rewrite Hcur, Hfilled by lia. rewrite <- Hcur. clear Hfilled.
  set (cur := alignDown sz ro) in *.
  assert (Hcur0 : 0 <= cur) by nia.
  rewrite (sub64_id ro cur) by (unfold in_range, min_int64; unfold max_int64 in *; lia).
  rewrite window_length by lia.
  set (avail := Z.min sz (Z.of_nat (length obj) - cur) - (ro - cur)).
  assert (Havail : 0 < avail) by (unfold avail; lia).
  rewrite sub64_id by (unfold in_range, min_int64; unfold max_int64 in *; lia).
  fold avail. destruct (Z.leb_spec avail 0); [lia|].
  set (n := if rem <? (if plen <? avail then plen else avail) then rem
            else if plen <? avail then plen else avail).
  assert (Hn : 0 < n <= rem /\ n <= avail).
  { unfold n. destruct (Z.ltb_spec plen avail).
    all: repeat match goal with
           | |- context [if ?a <? ?b then _ else _] => destruct (Z.ltb_spec a b)
           end; lia. }
  rewrite add64_id by (unfold in_range, min_int64; unfold max_int64 in *; unfold avail in *; lia).
  rewrite slice_window by (rewrite ?window_length by lia; unfold avail in *; lia).
  replace (cur + (ro - cur)) with ro by lia.
  rewrite add64_id by (unfold in_range, min_int64; unfold max_int64 in *; lia).
  rewrite sub64_id by (unfold in_range, min_int64; unfold max_int64 in *; lia).
  exists n. split; [lia | reflexivity].
Qed.

Lemma readAll_window (obj : list byte) (sz : Z) (keys : gmap Z string)
    (hits : gmap string (option (list byte))) (startRange endRange plen : Z) (fuel : nat) :
  0 < sz -> alignUp sz (Z.of_nat (length obj)) <= max_int64 ->
  0 <= startRange -> startRange mod sz = 0 -> endRange mod sz = 0 ->
  (forall j, 0 <= j -> startRange + j * sz < endRange ->
     at_key hits (key_at keys (startRange + j * sz))
     = Some (window obj (startRange + j * sz) sz)) ->
  0 < plen ->
  forall ro rem,
    startRange <= ro -> ro + rem <= endRange -> ro + rem <= Z.of_nat (length obj) ->
    (Z.to_nat rem <= fuel)%nat ->
    readAll fuel (mkSubrangesReader sz keys hits ro rem) plen = Ok (window obj ro rem).
Proof.
  intros Hsz Hmax Hs0 Hsa Hea Hfilled Hplen.
  induction fuel as [|fuel IH]; intros ro rem Hro Hend Hsize Hfuel.
  - assert (Hrem : rem <= 0) by lia. cbn [readAll].
    unfold subrangesReader_Read. cbn [remaining].
    destruct (Z.leb_spec rem 0); [|lia]. rewrite window_nil by (left; exact Hrem). reflexivity.
  - destruct (Z.le_gt_cases rem 0) as [Hrem | Hrem].
    + cbn [readAll]. unfold subrangesReader_Read. cbn [remaining].
      destruct (Z.leb_spec rem 0); [|lia]. rewrite window_nil by (left; exact Hrem). reflexivity.
    + destruct (subrangesReader_Read_window obj sz keys hits startRange endRange plen ro rem
                  Hsz Hmax Hs0 Hsa Hea Hfilled Hplen Hro ltac:(lia) Hend Hsize)
        as (n & Hn & E).
      cbn [readAll]. rewrite E. rewrite IH by lia.
      rewrite window_split by lia. f_equal. f_equal. lia.
Qed.

Lemma readAll_done (r : subrangesReader) (plen : Z) (fuel : nat) :
  remaining r <= 0 ->
  subrangesReader_Read r plen = (Fail io_EOF, r) /\ readAll fuel r plen = Ok [].
Proof.
  intros H. assert (E : subrangesReader_Read r plen = (Fail io_EOF, r)).
  { unfold subrangesReader_Read. destruct (Z.leb_spec (remaining r) 0); [reflexivity | lia]. }
  split; [exact E|]. destruct fuel; cbn [readAll]; rewrite E; reflexivity.
Qed.

(** ** The range read on an object with fixed contents *)

Lemma alignUp_mono (sz x y : Z) : 0 < sz -> x <= y -> alignUp sz x <= alignUp sz y.
Proof.
  intros Hsz Hle. unfold alignUp. apply Z.mul_le_mono_nonneg_r; [lia|].
  apply Z.div_le_mono; lia.
Qed.

Lemma alignUp_nonneg (sz x : Z) : 0 < sz -> 0 <= x -> 0 <= alignUp sz x.
Proof. intros Hsz Hx. pose proof (alignUp_bounds sz x Hsz). lia. Qed.

Lemma consistent_fetch (name : string) (obj : list byte) (sz : Z)
    (c : gmap string (option (list byte))) (keys : list string) :
  consistent name obj sz c -> consistent name obj sz (fetch_map c keys).
Proof.
  intros Hc x v Hx Hxa Hv. rewrite fetch_map_lookup in Hv.
  destruct (decide (_ ∈ keys)); [|discriminate]. apply (Hc x v Hx Hxa Hv).
Qed.

Lemma consistent_attrs (name : string) (obj : list byte) (sz : Z)
    (c : gmap string (option (list byte))) (v : option (list byte)) :
  consistent name obj sz c -> consistent name obj sz (<[keyString AttributesVerb name := v]> c).
Proof.
  intros Hc x v' Hx Hxa Hv. rewrite lookup_insert_ne in Hv.
  - apply (Hc x v' Hx Hxa Hv).
  - intros H. symmetry in H. apply subrangeKey_not_attrs in H. exact H.
Qed.

(** Resolving the attributes: from the cache when the cached entry can be
    decoded, from the bucket otherwise. *)
Lemma cachedAttributes_size (cb : CachingBucket) (name : string) (obj : list byte)
    (sz ttl size : Z) (attrs0 : ObjectAttributes) (w : World) :
  bkt_Attributes (cb_Bucket cb) name = inr attrs0 -> Size attrs0 = size ->
  (forall raw a, cache w !! keyString AttributesVerb name = Some raw ->
     json_Unmarshal (cb_json cb) raw = Some a -> Size a = size) ->
  consistent name obj sz (cache w) ->
  exists attrs w1,
    cachedAttributes cb name ttl w = (Ok attrs, w1)
    /\ Size attrs = size
    /\ consistent name obj sz (cache w1).
Proof.
  intros Hb Hs0 Hcached Hcons. unfold cachedAttributes, mbind, M_bind, cacheFetch.
  rewrite fetch_map_lookup.
  destruct (decide (keyString AttributesVerb name ∈ [keyString AttributesVerb name]))
    as [_ | Hn]; [|exfalso; apply Hn; left].
  destruct (cache w !! keyString AttributesVerb name) as [raw|] eqn:Hraw.
  - destruct (json_Unmarshal (cb_json cb) raw) as [a|] eqn:Ha.
    + exists a, w. repeat split; [apply (Hcached raw a eq_refl Ha) | exact Hcons].
    + unfold logCall. rewrite Hb. destruct (json_Marshal (cb_json cb) attrs0) as [raw'|].
      * eexists _, _. split; [reflexivity|]. split; [exact Hs0|].
        cbn [cache]. apply consistent_attrs, Hcons.
      * eexists _, _. split; [reflexivity|]. split; [exact Hs0 | exact Hcons].
  - unfold logCall. rewrite Hb. destruct (json_Marshal (cb_json cb) attrs0) as [raw'|].
    + eexists _, _. split; [reflexivity|]. split; [exact Hs0|].
      cbn [cache]. apply consistent_attrs, Hcons.
    + eexists _, _. split; [reflexivity|]. split; [exact Hs0 | exact Hcons].
Qed.

(** What [cachedGetRange] computes when no offset wraps around and the
    window is not reversed. *)
Lemma cachedGetRange_run (cb : CachingBucket) (name : string) (offset length : Z)
    (cfg : getRangeConfig) (attrs : ObjectAttributes) (w w1 : World) :
  0 < subrangeSize cfg <= max_int64 ->
  0 <= offset -> 0 < length -> offset + length <= max_int64 ->
  0 <= Size attrs -> alignUp (subrangeSize cfg) (Size attrs) <= max_int64 ->
  cachedAttributes cb name (attributesTTL cfg) w = (Ok attrs, w1) ->
  alignDown (subrangeSize cfg) offset
  <= alignUp (subrangeSize cfg) (Z.min (offset + length) (Size attrs)) ->
  cachedGetRange cb name offset length cfg w
  = (let sz := subrangeSize cfg in
     let osize := Size attrs in
     let startRange := alignDown sz offset in
     let endRange := alignUp sz (Z.min (offset + length) osize) in
     let offs := gridOffsets (loopBound startRange endRange sz) startRange endRange sz in
     let keys := map (subrangeKey name osize sz) offs in
     let offsetKeys := insertKeys name osize sz offs ∅ in
     hits ← (if Z.of_nat (size (fetch_map (cache w1) keys)) <? Z.of_nat (List.length keys)
             then fetchMissingSubranges cb name startRange endRange offsetKeys
                    (fetch_map (cache w1) keys)
                    (if endRange >? osize then alignDown sz osize else endRange - sz)
                    (if endRange >? osize then osize - alignDown sz osize else sz) cfg
             else mret (fetch_map (cache w1) keys));
     mret (newSubrangesReader sz offsetKeys hits offset
             (Z.min (offset + length) osize - offset))) w1.
Proof.
  intros [Hsz Hszmax] Hoff Hlen Hsum Hsize Hmax Hattrs Horder. cbv zeta.
  set (sz := subrangeSize cfg) in *. set (osize := Size attrs) in *.
  set (E := Z.min (offset + length) osize) in *.
  pose proof (alignUp_bounds sz osize Hsz) as Hu.
  pose proof (alignUp_bounds sz E Hsz) as HuE.
  pose proof (alignUp_mono sz E osize Hsz ltac:(unfold E; lia)) as HmE.
  pose proof (alignDown_bounds sz offset Hsz) as Hd.
  pose proof (alignDown_bounds sz osize Hsz) as Hds.
  assert (HE0 : 0 <= E) by (unfold E; lia).
  assert (Hs0 : 0 <= alignDown sz offset).
  { unfold alignDown. apply Z.mul_nonneg_nonneg; [apply Z.div_pos|]; lia. }
  unfold cachedGetRange, wrapErr, mbind at 1, M_bind at 1. rewrite Hattrs.
  cbv zeta. fold sz osize.
  rewrite !(add64_id offset length) by (unfold in_range, min_int64; lia).
  assert (Hclamp : (if offset + length >? osize then sub64 osize offset else length) = E - offset).
  { destruct (Z.gtb_spec (offset + length) osize).
    - rewrite (sub64_id osize offset)
        by (unfold in_range, min_int64; unfold max_int64 in *; lia).
      unfold E. lia.
    - unfold E. lia. }
  rewrite Hclamp.
  destruct (Z.eqb_spec sz 0) as [? | _]; [lia|].
  rewrite (add64_id offset (E - offset))
    by (unfold in_range, min_int64; unfold max_int64 in *; lia).
  replace (offset + (E - offset)) with E by lia.
  rewrite (alignDown64 offset sz) by (unfold max_int64 in *; lia).
  rewrite (alignDown64 E sz) by (unfold max_int64 in *; lia).
  rewrite rem64_nonneg by lia.
  assert (HendR : (if E mod sz >? 0 then add64 (alignDown sz E) sz else alignDown sz E)
                  = alignUp sz E).
  { rewrite (alignUp_cases sz E Hsz). destruct (E mod sz >? 0) eqn:Hm; [|reflexivity].
    apply add64_id. rewrite (alignUp_cases sz E Hsz), Hm in HuE, HmE.
    pose proof (alignDown_bounds sz E Hsz).
    unfold in_range, min_int64. unfold max_int64 in *. lia. }
  rewrite HendR.
  set (startRange := alignDown sz offset) in *. set (endRange := alignUp sz E) in *.
  rewrite (alignDown64 osize sz) by (unfold max_int64 in *; lia).
  rewrite (sub64_id endRange sz)
    by (unfold in_range, min_int64; unfold max_int64 in *; lia).
  assert (Hlast : (if endRange >? osize
                   then sub64 osize (if endRange >? osize then alignDown sz osize
                                     else endRange - sz)
                   else sz)
                  = (if endRange >? osize then osize - alignDown sz osize else sz)).
  { destruct (endRange >? osize); [|reflexivity].
    apply sub64_id. unfold in_range, min_int64. unfold max_int64 in *. lia. }
  rewrite Hlast.
  rewrite (sub64_id endRange startRange)
    by (unfold in_range, min_int64; unfold max_int64 in *; lia).
  rewrite quot64_nonneg by (unfold max_int64 in *; lia).
  destruct (Z.ltb_spec ((endRange - startRange) / sz) 0) as [Hneg | _].
  { pose proof (Z.div_pos (endRange - startRange) sz ltac:(lia) Hsz). lia. }
  rewrite keyLoop_grid.
  - cbn [app]. reflexivity.
  - exact Hsz.
  - unfold min_int64. lia.
  - exists ((endRange - startRange) / sz).
    split; [apply Z.div_pos; lia|].
    destruct (aligned_multiple sz endRange Hsz (alignUp_mod sz E Hsz)) as (ke & Hke).
    destruct (aligned_multiple sz startRange Hsz (alignDown_mod sz offset Hsz)) as (ks & Hks).
    rewrite Hke, Hks in *. replace (ke * sz - ks * sz) with ((ke - ks) * sz) by lia.
    rewrite Z.div_mul by lia. unfold max_int64 in *. lia.
  - apply loopBound_enough, Hsz.
Qed.

Lemma drains_window (obj : list byte) (sz : Z) (keys : gmap Z string)
    (hits : gmap string (option (list byte))) (startRange endRange : Z)
    (r : subrangesReader) (bs : list byte) :
  0 < sz -> alignUp sz (Z.of_nat (length obj)) <= max_int64 ->
  0 <= startRange -> startRange mod sz = 0 -> endRange mod sz = 0 ->
  (forall j, 0 <= j -> startRange + j * sz < endRange ->
     at_key hits (key_at keys (startRange + j * sz))
     = Some (window obj (startRange + j * sz) sz)) ->
  drains r bs ->
  sr_subrangeSize r = sz -> offsetsKeys r = keys -> subranges r = hits ->
  startRange <= readOffset r ->
  readOffset r + remaining r <= endRange ->
  readOffset r + remaining r <= Z.of_nat (length obj) ->
  bs = window obj (readOffset r) (remaining r).
Proof.
  intros Hsz Hmax Hs0 Hsa Hea Hfilled Hd.
  induction Hd as [r plen Hplen E | r r' plen data rest Hplen E Hd IH];
    intros <- <- <- Hro Hend Hsize.
  - destruct (Z.le_gt_cases (remaining r) 0) as [Hrem | Hrem].
    + rewrite window_nil by (left; exact Hrem). reflexivity.
    + destruct r as [sz' keys' hits' ro rem]. cbn [remaining readOffset sr_subrangeSize
        offsetsKeys subranges] in *.
      destruct (subrangesReader_Read_window obj sz' keys' hits' startRange endRange plen ro rem
                  Hsz Hmax Hs0 Hsa Hea Hfilled Hplen Hro Hrem Hend Hsize) as (n & Hn & E').
      congruence.
  - destruct (Z.le_gt_cases (remaining r) 0) as [Hrem | Hrem].
    + destruct (readAll_done r plen 0 Hrem) as [E' _]. congruence.
    + destruct r as [sz' keys' hits' ro rem]. cbn [remaining readOffset sr_subrangeSize
        offsetsKeys subranges] in *.
      destruct (subrangesReader_Read_window obj sz' keys' hits' startRange endRange plen ro rem
                  Hsz Hmax Hs0 Hsa Hea Hfilled Hplen Hro Hrem Hend Hsize) as (n & Hn & E').
      rewrite E' in E. inversion E; subst data r'.
      cbn [remaining readOffset sr_subrangeSize offsetsKeys subranges] in IH.
      rewrite IH by (first [reflexivity | lia]).
      rewrite window_split by lia. f_equal. lia.
Qed.

(** ** Range reads that start at or past the end of the object *)

Lemma gridOffsets_empty (n : nat) (off endRange sz : Z) :
  endRange <= off -> gridOffsets n off endRange sz = [].
Proof.
  intros H. destruct n; cbn [gridOffsets]; [reflexivity|].
  destruct (Z.ltb_spec off endRange); [lia | reflexivity].
Qed.

Lemma alignUp_least (sz x y : Z) :
  0 < sz -> y mod sz = 0 -> x <= y -> alignUp sz x <= y.
Proof.
  intros Hsz Hy Hxy. unfold alignUp.
  apply Z.div_exact in Hy; [|lia].
  set (q := y / sz) in *.
  assert (Hk : x + sz - 1 < sz * (q + 1)) by lia.
  apply Z.div_lt_upper_bound in Hk; [|lia].
  assert ((x + sz - 1) / sz <= q) by lia.
  rewrite Hy. rewrite (Z.mul_comm sz q). apply Z.mul_le_mono_nonneg_r; lia.
Qed.

Lemma cachedAttributes_calls (cb : CachingBucket) (name : string) (ttl : Z)
    (res : result ObjectAttributes) (w w1 : World) :
  cachedAttributes cb name ttl w = (res, w1) ->
  calls w1 = calls w \/ calls w1 = calls w ++ [CallAttributes name].
Proof.
  unfold cachedAttributes, cacheFetch, cacheStore, logCall, fail, mbind, M_bind, mret, M_ret.
  intros E.
  repeat match type of E with
         | context [match ?x with _ => _ end] => destruct x
         end; inversion E; subst; cbn [calls]; auto.
Qed.

Lemma cachedGetRange_remaining (cb : CachingBucket) (name : string) (offset length : Z)
    (cfg : getRangeConfig) (attrs : ObjectAttributes) (r : subrangesReader) (w w1 w' : World) :
  cachedAttributes cb name (attributesTTL cfg) w = (Ok attrs, w1) ->
  cachedGetRange cb name offset length cfg w = (Ok r, w') ->
  readOffset r = offset
  /\ remaining r = (if add64 offset length >? Size attrs
                    then sub64 (Size attrs) offset else length).
Proof.
  intros Hattrs E. unfold cachedGetRange, wrapErr, cacheFetch, mbind, M_bind in E.
  rewrite Hattrs in E. cbv zeta in E.
  destruct (subrangeSize cfg =? 0); [discriminate|].
  match type of E with context [if ?c then panic _ else _] => destruct c end;
    [discriminate|].
  match type of E with context [match keyLoop ?a ?b ?c ?d ?e ?f ?g ?h with _ => _ end] =>
    destruct (keyLoop a b c d e f g h) as [[keys offsetKeys]|] end; [|discriminate].
  match type of E with context [if ?c then _ else _] => destruct c end.
  - match type of E with context [fetchMissingSubranges ?a ?b ?c ?d ?e ?f ?g ?h ?i ?j] =>
      destruct (fetchMissingSubranges a b c d e f g h i j) as [[hits | | |] w2] end;
      inversion E; subst; split; reflexivity.
  - inversion E; subst; split; reflexivity.
Qed.

(** C10, as amended: a [GetRange] call with a matching range config, a
    non-negative offset and a positive length (whose sum fits in an int64),
    at an offset at or past the size that the attributes report, has a
    clamped length [size - offset <= 0]; every reader that the call returns
    carries that length and reports [io.EOF] at its first read.  When,
    moreover, the offset rounded down to the subrange grid is at or past the
    size, and not past the size rounded up, the call returns without error
    such a reader with no subrange key and an empty results map, in the
    very state that the attribute lookup left: no [GetRange] reaches the
    bucket, the only bucket call being at most one [Attributes]. *)
Theorem GetRange_past_end (cb : CachingBucket) (name : string) (offset length : Z)
    (cfg : getRangeConfig) (attrs : ObjectAttributes) (w w1 : World) :
  findGetRangeConfig (cb_cfg cb) name = Some cfg ->
  0 < subrangeSize cfg <= max_int64 ->
  0 <= offset -> 0 < length -> offset + length <= max_int64 ->
  cachedAttributes cb name (attributesTTL cfg) w = (Ok attrs, w1) ->
  0 <= Size attrs <= offset ->
  (if add64 offset length >? Size attrs then sub64 (Size attrs) offset else length)
  = Size attrs - offset
  /\ Size attrs - offset <= 0
  /\ (forall r w', GetRange cb name offset length w = (Ok (SubrangesReader r), w') ->
        remaining r = Size attrs - offset
        /\ forall plen, subrangesReader_Read r plen = (Fail io_EOF, r))
  /\ (Size attrs <= alignDown (subrangeSize cfg) offset
                 <= alignUp (subrangeSize cfg) (Size attrs) ->
      alignUp (subrangeSize cfg) (Size attrs) <= max_int64 ->
      GetRange cb name offset length w
      = (Ok (SubrangesReader
               (newSubrangesReader (subrangeSize cfg) ∅ ∅ offset (Size attrs - offset))), w1)
      /\ (calls w1 = calls w \/ calls w1 = calls w ++ [CallAttributes name])).
Proof.
  intros Hcfg Hsz Hoff Hlen Hsum Hattrs Hsize.
  assert (Hclamp : (if add64 offset length >? Size attrs
                    then sub64 (Size attrs) offset else length) = Size attrs - offset).
  { rewrite add64_id by (unfold in_range, min_int64, max_int64 in *; lia).
    destruct (Z.gtb_spec (offset + length) (Size attrs)) as [_ | ?]; [|lia].
    apply sub64_id. unfold in_range, min_int64, max_int64 in *. lia. }
  assert (Hget : GetRange cb name offset length w
                 = (r ← cachedGetRange cb name offset length cfg; mret (SubrangesReader r)) w).
  { unfold GetRange.
    destruct (Z.ltb_spec offset 0) as [? | _]; [lia|].
    destruct (Z.leb_spec length 0) as [? | _]; [lia|].
    cbn [orb]. rewrite Hcfg. reflexivity. }
  split; [exact Hclamp|]. split; [lia|]. split.
  - intros r w' E. rewrite Hget in E. unfold mbind, M_bind, mret, M_ret in E.
    destruct (cachedGetRange cb name offset length cfg w) as [[r0 | | |] w2] eqn:Er;
      inversion E; subst r0 w2.
    destruct (cachedGetRange_remaining _ _ _ _ _ _ _ _ _ _ Hattrs Er) as [_ Hrem].
    rewrite Hclamp in Hrem. split; [exact Hrem|].
    intros plen. apply (readAll_done r plen 0). lia.
  - intros Hgrid Hmax. split; [|exact (cachedAttributes_calls _ _ _ _ _ _ Hattrs)].
    rewrite Hget. unfold mbind at 1, M_bind at 1.
    assert (Hmin : Z.min (offset + length) (Size attrs) = Size attrs) by lia.
    rewrite (cachedGetRange_run cb name offset length cfg attrs w w1)
      by (first [assumption | lia | rewrite Hmin; lia]).
    cbv zeta. rewrite Hmin.
    assert (Hle : alignUp (subrangeSize cfg) (Size attrs)
                  <= alignDown (subrangeSize cfg) offset).
    { apply alignUp_least; [lia | apply alignDown_mod; lia | lia]. }
    rewrite gridOffsets_empty by lia.
    reflexivity.
Qed.

(** C10, at the 11-byte object with 3-byte subranges: a read of 5 bytes at
    offset 12. *)
Lemma GetRange_past_end_witness :
  GetRange demo_cb "o" 12 5 empty_world
  = (Ok (SubrangesReader (newSubrangesReader 3 ∅ ∅ 12 (11 - 12))),
     mkWorld ∅ [] [CallAttributes "o"]).
Proof.
  refine (proj1 (proj2 (proj2 (proj2
    (GetRange_past_end demo_cb "o" 12 5 (mkRangeCfg 3 2 100 100) (mkAttrs 11 0)
       empty_world (mkWorld ∅ [] [CallAttributes "o"]) _ _ _ _ _ _ _))) _ _)).
  - reflexivity.
  - cbn; unfold max_int64; lia.
  - lia.
  - lia.
  - unfold max_int64; lia.
  - reflexivity.
  - cbn; lia.
  - vm_compute; split; discriminate.
  - vm_compute; discriminate.
Defined.

(** C10 as stated does not hold.  On the 11-byte object with 3-byte
    subranges, a read at offset 11 (the size) generates the key of the last
    subrange and fetches that subrange from the bucket; a read at offset 15
    stops with a run-time panic, the slice capacity [numSubranges] being
    negative. *)
Lemma GetRange_past_end_fetches_or_panics :
  (exists r w',
     GetRange demo_cb "o" 11 5 empty_world = (Ok (SubrangesReader r), w')
     /\ offsetsKeys r = {[ 9 := "subrange:o:9:11" ]}
     /\ calls w' = [CallAttributes "o"; CallGetRange "o" 9 3])
  /\ fst (GetRange demo_cb "o" 15 5 empty_world) = Panic "makeslice: cap out of range".
Proof.
  split; [|vm_compute; reflexivity].
  eexists _, _. split; [vm_compute; reflexivity|]. split; [|reflexivity].
  vm_compute. reflexivity.
Qed.

(** ** Range reads against a cache that agrees with the object *)

Lemma GetRange_cached (cb : CachingBucket) (name : string) (offset length : Z)
    (cfg : getRangeConfig) (w : World) :
  findGetRangeConfig (cb_cfg cb) name = Some cfg ->
  0 <= offset -> 0 < length ->
  GetRange cb name offset length w
  = (r ← cachedGetRange cb name offset length cfg; mret (SubrangesReader r)) w.
Proof.
  intros Hcfg Hoff Hlen. unfold GetRange.
  destruct (Z.ltb_spec offset 0) as [? | _]; [lia|].
  destruct (Z.leb_spec length 0) as [? | _]; [lia|].
  cbn [orb]. rewrite Hcfg. reflexivity.
Qed.

Lemma cachedGetRange_window (cb : CachingBucket) (name : string) (obj : list byte)
    (offset length : Z) (cfg : getRangeConfig) (attrs : ObjectAttributes) (w w1 : World) :
  0 < subrangeSize cfg <= max_int64 ->
  0 <= offset -> 0 < length -> offset + length <= max_int64 ->
  alignUp (subrangeSize cfg) (Z.of_nat (List.length obj)) <= 2 ^ 62 ->
  alignDown (subrangeSize cfg) offset <= alignUp (subrangeSize cfg) (Z.of_nat (List.length obj)) ->
  (forall off len, 0 <= off -> 0 <= len ->
     bkt_GetRange (cb_Bucket cb) name off len = inr (window obj off len)) ->
  cachedAttributes cb name (attributesTTL cfg) w = (Ok attrs, w1) ->
  Size attrs = Z.of_nat (List.length obj) ->
  consistent name obj (subrangeSize cfg) (cache w1) ->
  exists keys hits w' startRange endRange,
    cachedGetRange cb name offset length cfg w
    = (Ok (newSubrangesReader (subrangeSize cfg) keys hits offset
             (Z.min (offset + length) (Z.of_nat (List.length obj)) - offset)), w')
    /\ 0 <= startRange <= offset
    /\ startRange mod subrangeSize cfg = 0 /\ endRange mod subrangeSize cfg = 0
    /\ Z.min (offset + length) (Z.of_nat (List.length obj)) <= endRange
    /\ forall j, 0 <= j -> startRange + j * subrangeSize cfg < endRange ->
         at_key hits (key_at keys (startRange + j * subrangeSize cfg))
         = Some (window obj (startRange + j * subrangeSize cfg) (subrangeSize cfg)).
Proof.
  intros Hsz Hoff Hlen Hsum Hmax Hgrid Hbucket Hattrs Hsize Hcons.
  set (sz := subrangeSize cfg) in *. set (osize := Z.of_nat (List.length obj)) in *.
  assert (Hsize0 : 0 <= osize) by (unfold osize; lia).
  set (E := Z.min (offset + length) osize).
  assert (HE : E <= osize) by (unfold E; lia).
  pose proof (alignUp_bounds sz E ltac:(lia)) as HuE.
  pose proof (alignUp_bounds sz osize ltac:(lia)) as Hu.
  pose proof (alignDown_bounds sz offset ltac:(lia)) as Hd.
  assert (Hmono : alignUp sz E <= alignUp sz osize) by (apply alignUp_mono; lia).
  assert (Hstart : alignDown sz offset <= alignUp sz E).
  { unfold E. destruct (Z.le_gt_cases (offset + length) osize).
    - rewrite Z.min_l by lia. pose proof (alignUp_bounds sz (offset + length) ltac:(lia)). lia.
    - rewrite Z.min_r by lia. exact Hgrid. }
  assert (Hd0 : 0 <= alignDown sz offset).
  { unfold alignDown. apply Z.mul_nonneg_nonneg; [apply Z.div_pos|]; lia. }
  rewrite (cachedGetRange_run cb name offset length cfg attrs w w1)
    by (first [assumption | rewrite Hsize; fold osize; fold sz; fold E;
                            first [assumption | unfold max_int64 in *; lia]]).
  cbv zeta. rewrite Hsize. fold osize sz E.
  set (startRange := alignDown sz offset) in *.
  set (endRange := alignUp sz E) in *.
  set (offs := gridOffsets (loopBound startRange endRange sz) startRange endRange sz).
  set (keys := map (subrangeKey name osize sz) offs).
  set (offsetKeys := insertKeys name osize sz offs ∅).
  assert (Hsa : startRange mod sz = 0) by (apply alignDown_mod; lia).
  assert (Hea : endRange mod sz = 0) by (apply alignUp_mod; lia).
  assert (Hin : forall j, 0 <= j -> startRange + j * sz < endRange ->
                  In (startRange + j * sz) offs).
  { intros j Hj Hlt. apply gridOffsets_complete; [lia | | lia | lia].
    apply loopBound_enough. lia. }
  assert (Hkeys : forall j, 0 <= j -> startRange + j * sz < endRange ->
                    key_at offsetKeys (startRange + j * sz)
                    = subrangeKey name osize sz (startRange + j * sz)).
  { intros j Hj Hlt. apply key_at_insertKeys. apply Hin; lia. }
  pose proof (consistent_fetch name obj sz (cache w1) keys Hcons) as Hcons0.
  destruct (Z.ltb_spec (Z.of_nat (size (fetch_map (cache w1) keys)))
              (Z.of_nat (List.length keys))) as [Hmiss | Hfull].
  - destruct (lastSubrange_cases sz osize endRange ltac:(lia) Hsize0 Hea Hmono)
      as (Hlo & Hll & Hllr).
    destruct (fetchMissingSubranges_fills cb name obj cfg offsetKeys startRange endRange
                (if endRange >? osize then alignDown sz osize else endRange - sz)
                (if endRange >? osize then osize - alignDown sz osize else sz)
                (fetch_map (cache w1) keys) w1)
      as (hits' & w' & Hrun & _ & Hfilled);
      try (fold sz; fold osize); try assumption; try lia.
    exists offsetKeys, hits', w', startRange, endRange.
    split.
    { unfold mbind at 1, M_bind at 1. fold sz in Hrun. fold osize in Hrun.
      rewrite Hrun. reflexivity. }
    repeat split; try assumption; try lia.
    intros j Hj Hlt. rewrite Hkeys by lia. apply Hfilled; assumption.
  - exists offsetKeys, (fetch_map (cache w1) keys), w1, startRange, endRange.
    split; [reflexivity|].
    repeat split; try assumption; try lia.
    intros j Hj Hlt. rewrite Hkeys by lia.
    set (x := startRange + j * sz) in *.
    assert (Hx : In (subrangeKey name osize sz x) keys).
    { unfold keys. apply in_map. apply Hin; assumption. }
    destruct (fetch_map_full (cache w1) keys ltac:(lia) _ Hx) as [v Hv].
    assert (Hxm : x mod sz = 0) by (apply mod_grid; [lia | assumption]).
    assert (Hxs : x < osize).
    { pose proof (grid_next sz x endRange ltac:(lia) Hxm Hea Hlt). lia. }
    assert (Hx0 : 0 <= x) by (unfold x; nia).
    rewrite fetch_map_at_key by (apply list_elem_of_In; exact Hx).
    apply at_key_Some. rewrite Hv. f_equal.
    apply (Hcons x v); [lia | assumption | exact Hv].
Qed.

Lemma demo_bucket_GetRange (name : string) (off len : Z) :
  bkt_GetRange demo_bucket name off len = inr (window demo_object off len).
Proof. reflexivity. Qed.

(** C1, as amended: let the object [name] hold the bytes [obj], let the
    bucket report its size and answer every range read with the bytes of
    the window, and let the cache agree with the object (every cached
    subrange of the object holds, non-nil, the bytes of that subrange, and a
    cached attributes entry decodes to the right size).  Let the range
    config match, with a positive subrange size, [0 <= offset],
    [0 < length], [offset + length] within int64, the object's size rounded
    up to the subrange grid at most [2^62], and the offset rounded down to
    the grid not past the size rounded up.  Then [GetRange] returns,
    without error, a reader; reading it to its end, with buffers of any
    positive sizes, gives exactly the bytes of the window
    [[offset, offset + length)] of the object, which are the bytes of the
    direct read of that window from the bucket: whichever of the touched
    subranges the cache held before the call. *)
Theorem GetRange_window (cb : CachingBucket) (name : string) (obj : list byte)
    (offset length : Z) (cfg : getRangeConfig) (attrs0 : ObjectAttributes) (w : World) :
  findGetRangeConfig (cb_cfg cb) name = Some cfg ->
  0 < subrangeSize cfg <= max_int64 ->
  0 <= offset -> 0 < length -> offset + length <= max_int64 ->
  alignUp (subrangeSize cfg) (Z.of_nat (List.length obj)) <= 2 ^ 62 ->
  alignDown (subrangeSize cfg) offset
  <= alignUp (subrangeSize cfg) (Z.of_nat (List.length obj)) ->
  bkt_Attributes (cb_Bucket cb) name = inr attrs0 ->
  Size attrs0 = Z.of_nat (List.length obj) ->
  (forall off len, 0 <= off -> 0 <= len ->
     bkt_GetRange (cb_Bucket cb) name off len = inr (window obj off len)) ->
  (forall raw a, cache w !! keyString AttributesVerb name = Some raw ->
     json_Unmarshal (cb_json cb) raw = Some a -> Size a = Z.of_nat (List.length obj)) ->
  consistent name obj (subrangeSize cfg) (cache w) ->
  exists r w',
    GetRange cb name offset length w = (Ok (SubrangesReader r), w')
    /\ (forall bs, drains r bs -> bs = window obj offset length)
    /\ (forall plen fuel, 0 < plen -> (Z.to_nat length <= fuel)%nat ->
          readAll fuel r plen = Ok (window obj offset length))
    /\ bkt_GetRange (cb_Bucket cb) name offset length = inr (window obj offset length).
Proof.
  intros Hcfg Hsz Hoff Hlen Hsum Hmax Hgrid Hbattrs Hbsize Hbucket Hcattrs Hcons.
  destruct (cachedAttributes_size cb name obj (subrangeSize cfg) (attributesTTL cfg)
              _ attrs0 w Hbattrs Hbsize Hcattrs Hcons) as (attrs & w1 & Hattrs & Hsize & Hcons1).
  destruct (cachedGetRange_window cb name obj offset length cfg attrs w w1
              Hsz Hoff Hlen Hsum Hmax Hgrid Hbucket Hattrs Hsize Hcons1)
    as (keys & hits & w' & startRange & endRange & Hrun & Hs & Hsa & Hea & HE & Hfilled).
  set (osize := Z.of_nat (List.length obj)) in *.
  assert (Hmax64 : alignUp (subrangeSize cfg) osize <= max_int64)
    by (unfold max_int64; lia).
  assert (Hwin : window obj offset (Z.min (offset + length) osize - offset)
                 = window obj offset length).
  { destruct (Z.le_gt_cases (offset + length) osize).
    - rewrite Z.min_l by lia. f_equal. lia.
    - rewrite Z.min_r by lia. symmetry. apply window_clamp; fold osize; lia. }
  eexists _, w'. split.
  { rewrite (GetRange_cached cb name offset length cfg w Hcfg Hoff Hlen).
    unfold mbind, M_bind. rewrite Hrun. reflexivity. }
  split; [|split].
  - intros bs Hd. rewrite <- Hwin.
    apply (drains_window obj (subrangeSize cfg) keys hits startRange endRange _ bs
             ltac:(lia) Hmax64 ltac:(lia) Hsa Hea Hfilled Hd);
      cbn [newSubrangesReader sr_subrangeSize offsetsKeys subranges readOffset remaining];
      first [reflexivity | fold osize; lia].
  - intros plen fuel Hplen Hfuel. rewrite <- Hwin. unfold newSubrangesReader.
    apply (readAll_window obj (subrangeSize cfg) keys hits startRange endRange plen fuel);
      first [assumption | fold osize; lia].
  - apply Hbucket; lia.
Qed.

(** C1, at the 11-byte object with 3-byte subranges: 5 bytes at offset 4,
    with the second subrange already in the cache. *)
Lemma GetRange_window_witness :
  exists r w',
    GetRange demo_cb "o" 4 5 warm_world = (Ok (SubrangesReader r), w')
    /\ (forall bs, drains r bs -> bs = window demo_object 4 5)
    /\ (forall plen fuel, 0 < plen -> (Z.to_nat 5 <= fuel)%nat ->
          readAll fuel r plen = Ok (window demo_object 4 5))
    /\ bkt_GetRange (cb_Bucket demo_cb) "o" 4 5 = inr (window demo_object 4 5).
Proof.
  apply (GetRange_window demo_cb "o" demo_object 4 5 (mkRangeCfg 3 2 100 100)
           (mkAttrs 11 0) warm_world).
  - reflexivity.
  - cbn; unfold max_int64; lia.
  - lia.
  - lia.
  - unfold max_int64; lia.
  - vm_compute; discriminate.
  - vm_compute; discriminate.
  - reflexivity.
  - reflexivity.
  - intros off len _ _. apply demo_bucket_GetRange.
  - intros raw a _ H. discriminate H.
  - intros x v Hx Hm H. cbn in Hx.
    assert (Hc : x = 0 \/ x = 1 \/ x = 2 \/ x = 3 \/ x = 4 \/ x = 5 \/ x = 6 \/ x = 7
                 \/ x = 8 \/ x = 9 \/ x = 10) by lia.
    repeat (destruct Hc as [-> | Hc]); try subst x;
      vm_compute in Hm; try discriminate Hm;
      vm_compute in H; try discriminate H;
      inversion H; vm_compute; reflexivity.
Defined.

(** C1 as stated does not hold.  On the 11-byte object with 3-byte
    subranges and an empty cache, the direct read of 5 bytes at offset 15
    gives no byte, and the direct read of [2^63 - 1] bytes at offset 1 gives
    the last ten bytes; [GetRange] stops with a run-time panic in both
    cases, the slice capacity [numSubranges] being negative. *)
Lemma GetRange_not_window :
  (fst (GetRange demo_cb "o" 15 5 empty_world) = Panic "makeslice: cap out of range"
   /\ bkt_GetRange demo_bucket "o" 15 5 = inr [])
  /\ (fst (GetRange demo_cb "o" 1 9223372036854775807 empty_world)
      = Panic "makeslice: cap out of range"
      /\ bkt_GetRange demo_bucket "o" 1 9223372036854775807
         = inr (window demo_object 1 9223372036854775807)
      /\ window demo_object 1 9223372036854775807
         = [x01; x02; x03; x04; x05; x06; x07; x08; x09; x0a]).
Proof.
  split; [split; vm_compute; reflexivity|].
  split; [vm_compute; reflexivity|].
  split; [exact (demo_bucket_GetRange "o" 1 9223372036854775807)|].
  rewrite window_clamp by (cbn; lia). vm_compute. reflexivity.
Qed.

(** ** Existence cache *)

Lemma keyString_eq (verb : VerbType) (name : string) :
  keyString verb name = verb +:+ ":" +:+ name.
Proof. reflexivity. Qed.

Lemma fetch_one (c : gmap string (option (list byte))) (k : string) :
  at_key (fetch_map c [k]) k = at_key c k.
Proof. apply fetch_map_at_key. apply list_elem_of_singleton. reflexivity. Qed.

Lemma ParseBool_FormatBool (b : bool) :
  ParseBool (string_of_list_byte (list_byte_of_string (FormatBool b))) = Some b.
Proof. destruct b; reflexivity. Qed.

Lemma at_key_insert (m : gmap string (option (list byte))) (k : string)
    (v : option (list byte)) :
  at_key (<[k := v]> m) k = v.
Proof. unfold at_key. rewrite lookup_insert_eq. reflexivity. Qed.

Lemma at_key_insert_ne (m : gmap string (option (list byte))) (k k' : string)
    (v : option (list byte)) :
  k <> k' -> at_key (<[k := v]> m) k' = at_key m k'.
Proof. intros H. unfold at_key. rewrite lookup_insert_ne by exact H. reflexivity. Qed.

Lemma Exists_hit (cb : CachingBucket) (name : string) (elapsed : Z) (cfg : existsConfig)
    (ex : list byte) (b : bool) (w : World) :
  findExistConfig (cb_cfg cb) name = Some cfg ->
  at_key (cache w) (keyString ExistsVerb name) = Some ex ->
  ParseBool (string_of_list_byte ex) = Some b ->
  Exists cb name elapsed w = (Ok b, w).
Proof.
  intros Hcfg Hex Hb. unfold Exists. rewrite Hcfg.
  unfold mbind, M_bind, cacheFetch. rewrite fetch_one, Hex, Hb. reflexivity.
Qed.

Lemma Exists_miss (cb : CachingBucket) (name : string) (elapsed : Z) (cfg : existsConfig)
    (w : World) :
  findExistConfig (cb_cfg cb) name = Some cfg ->
  match at_key (cache w) (keyString ExistsVerb name) with
  | Some ex => ParseBool (string_of_list_byte ex)
  | None => None
  end = None ->
  Exists cb name elapsed w
  = match bkt_Exists (cb_Bucket cb) name with
    | inl err => (Fail err, mkWorld (cache w) (stored w) (calls w ++ [CallExists name]))
    | inr ok =>
        let ttl := sub64 (if ok then ex_existsTTL cfg else ex_doesntExistTTL cfg) elapsed in
        (Ok ok,
         if ttl >? 0
         then mkWorld (<[keyString ExistsVerb name
                         := Some (list_byte_of_string (FormatBool ok))]> (cache w))
                      (stored w ++ [mkStore (keyString ExistsVerb name)
                                      (Some (list_byte_of_string (FormatBool ok))) ttl])
                      (calls w ++ [CallExists name])
         else mkWorld (cache w) (stored w) (calls w ++ [CallExists name]))
    end.
Proof.
  intros Hcfg Hmiss. unfold Exists. rewrite Hcfg.
  unfold mbind, M_bind, cacheFetch. rewrite fetch_one, Hmiss.
  unfold logCall. destruct (bkt_Exists (cb_Bucket cb) name) as [err | ok]; [reflexivity|].
  unfold storeExistsCacheEntry, cacheStore, mret, M_ret. cbv zeta.
  destruct ok; match goal with |- context [if ?c then _ else _] => destruct c end;
    reflexivity.
Qed.

(** ** Whole-object read cache *)

Lemma content_exists_keys (name : string) :
  keyString ExistsVerb name <> keyString ContentVerb name.
Proof. rewrite !keyString_eq. discriminate. Qed.

Lemma fetch_two (c : gmap string (option (list byte))) (k1 k2 : string) :
  at_key (fetch_map c [k1; k2]) k1 = at_key c k1
  /\ at_key (fetch_map c [k1; k2]) k2 = at_key c k2.
Proof.
  split; apply fetch_map_at_key.
  - apply elem_of_cons. left. reflexivity.
  - apply elem_of_cons. right. apply list_elem_of_singleton. reflexivity.
Qed.

Lemma Get_hit (cb : CachingBucket) (name : string) (elapsed : Z) (cfg : getConfig)
    (content : list byte) (w : World) :
  findGetConfig (cb_cfg cb) name = Some cfg ->
  at_key (cache w) (keyString ContentVerb name) = Some content ->
  Get cb name elapsed w = (Ok (BytesReader content), w).
Proof.
  intros Hcfg Hc. unfold Get. rewrite Hcfg.
  unfold mbind, M_bind, cacheFetch.
  destruct (fetch_two (cache w) (keyString ContentVerb name) (keyString ExistsVerb name))
    as [-> _].
  rewrite Hc. reflexivity.
Qed.

Lemma Get_absent (cb : CachingBucket) (name : string) (elapsed : Z) (cfg : getConfig)
    (w : World) :
  findGetConfig (cb_cfg cb) name = Some cfg ->
  at_key (cache w) (keyString ContentVerb name) = None ->
  knownAbsent (at_key (cache w) (keyString ExistsVerb name)) = true ->
  Get cb name elapsed w = (Fail errObjNotFound, w).
Proof.
  intros Hcfg Hc Hex. unfold Get. rewrite Hcfg.
  unfold mbind, M_bind, cacheFetch.
  destruct (fetch_two (cache w) (keyString ContentVerb name) (keyString ExistsVerb name))
    as [-> ->].
  rewrite Hc, Hex. reflexivity.
Qed.

Lemma Get_miss (cb : CachingBucket) (name : string) (elapsed : Z) (cfg : getConfig)
    (w : World) :
  findGetConfig (cb_cfg cb) name = Some cfg ->
  at_key (cache w) (keyString ContentVerb name) = None ->
  knownAbsent (at_key (cache w) (keyString ExistsVerb name)) = false ->
  Get cb name elapsed w
  = let w0 := mkWorld (cache w) (stored w) (calls w ++ [CallGet name]) in
    let entry (b : bool) (ttl : Z) :=
      if sub64 ttl elapsed >? 0
      then store_in w0 (keyString ExistsVerb name)
             (Some (list_byte_of_string (FormatBool b))) (sub64 ttl elapsed)
      else w0 in
    match bkt_Get (cb_Bucket cb) name with
    | inl err =>
        (Fail err,
         if bkt_IsObjNotFoundErr (cb_Bucket cb) err
         then entry false (doesntExistTTL cfg) else w0)
    | inr reader =>
        (Ok (CaptureReader (mkGetReader reader (Some []) (contentTTL cfg)
                              (keyString ContentVerb name) (maxCacheableSize cfg))),
         entry true (existsTTL cfg))
    end.
Proof.
  intros Hcfg Hc Hex. unfold Get. rewrite Hcfg.
  unfold mbind, M_bind, cacheFetch.
  destruct (fetch_two (cache w) (keyString ContentVerb name) (keyString ExistsVerb name))
    as [-> ->].
  rewrite Hc, Hex. unfold logCall, storeExistsCacheEntry, cacheStore, store_in, mret, M_ret, fail.
  cbv zeta.
  destruct (bkt_Get (cb_Bucket cb) name) as [err | reader].
  - destruct (bkt_IsObjNotFoundErr (cb_Bucket cb) err); [|reflexivity].
    destruct (sub64 (doesntExistTTL cfg) elapsed >? 0); reflexivity.
  - destruct (sub64 (existsTTL cfg) elapsed >? 0); reflexivity.
Qed.

(** X1: after an [Exists] that had to ask the bucket and whose entry got a
    positive TTL ([existsTTL] or [doesntExistTTL], by the answer, minus the
    time the bucket took), the answer is stored as [true] or [false] under
    the [exists] key, and any later [Exists] on that state returns the same
    answer without a call to the bucket and without a change of state. *)
Theorem Exists_repeat_from_cache (cb : CachingBucket) (name : string) (elapsed : Z)
    (cfg : existsConfig) (ok : bool) (w : World) :
  findExistConfig (cb_cfg cb) name = Some cfg ->
  match at_key (cache w) (keyString ExistsVerb name) with
  | Some ex => ParseBool (string_of_list_byte ex)
  | None => None
  end = None ->
  bkt_Exists (cb_Bucket cb) name = inr ok ->
  0 < sub64 (if ok then ex_existsTTL cfg else ex_doesntExistTTL cfg) elapsed ->
  exists w1,
    Exists cb name elapsed w = (Ok ok, w1)
    /\ calls w1 = calls w ++ [CallExists name]
    /\ stored w1
       = stored w ++ [mkStore (keyString ExistsVerb name)
                        (Some (list_byte_of_string (FormatBool ok)))
                        (sub64 (if ok then ex_existsTTL cfg else ex_doesntExistTTL cfg)
                               elapsed)]
    /\ forall elapsed', Exists cb name elapsed' w1 = (Ok ok, w1).
Proof.
  intros Hcfg Hmiss Hb Httl.
  rewrite (Exists_miss cb name elapsed cfg w Hcfg Hmiss), Hb. cbv zeta.
  destruct (Z.gtb_spec (sub64 (if ok then ex_existsTTL cfg else ex_doesntExistTTL cfg)
                          elapsed) 0) as [_ | ?]; [|lia].
  eexists. split; [reflexivity|]. split; [reflexivity|]. split; [reflexivity|].
  intros elapsed'.
  apply (Exists_hit cb name elapsed' cfg (list_byte_of_string (FormatBool ok)) ok _ Hcfg).
  - cbn [cache]. apply at_key_insert.
  - apply ParseBool_FormatBool.
Qed.

Lemma Exists_repeat_from_cache_witness :
  exists w1,
    Exists demo_cb "o" 10 empty_world = (Ok true, w1)
    /\ calls w1 = calls empty_world ++ [CallExists "o"]
    /\ stored w1
       = stored empty_world ++ [mkStore (keyString ExistsVerb "o")
                                  (Some (list_byte_of_string (FormatBool true)))
                                  (sub64 100 10)]
    /\ forall elapsed', Exists demo_cb "o" elapsed' w1 = (Ok true, w1).
Proof.
  apply (Exists_repeat_from_cache demo_cb "o" 10 (mkExistsCfg 100 100) true empty_world).
  - reflexivity.
  - vm_compute. reflexivity.
  - reflexivity.
  - vm_compute. reflexivity.
Defined.

(** X2: [Exists] stores nothing when the bucket fails, or when the bucket took
    as long as the TTL of the entry or longer: the error, or the answer, is
    returned as the bucket gave it, and the cache is left as it was. *)
Theorem Exists_stores_nothing (cb : CachingBucket) (name : string) (elapsed : Z)
    (cfg : existsConfig) (w : World) :
  findExistConfig (cb_cfg cb) name = Some cfg ->
  match at_key (cache w) (keyString ExistsVerb name) with
  | Some ex => ParseBool (string_of_list_byte ex)
  | None => None
  end = None ->
  (forall err, bkt_Exists (cb_Bucket cb) name = inl err ->
     Exists cb name elapsed w
     = (Fail err, mkWorld (cache w) (stored w) (calls w ++ [CallExists name])))
  /\ (forall ok, bkt_Exists (cb_Bucket cb) name = inr ok ->
        sub64 (if ok then ex_existsTTL cfg else ex_doesntExistTTL cfg) elapsed <= 0 ->
        Exists cb name elapsed w
        = (Ok ok, mkWorld (cache w) (stored w) (calls w ++ [CallExists name]))).
Proof.
  intros Hcfg Hmiss. rewrite (Exists_miss cb name elapsed cfg w Hcfg Hmiss).
  split.
  - intros err ->. reflexivity.
  - intros ok -> Httl. cbv zeta.
    destruct (Z.gtb_spec (sub64 (if ok then ex_existsTTL cfg else ex_doesntExistTTL cfg)
                            elapsed) 0) as [? | _]; [lia | reflexivity].
Qed.

Lemma Exists_stores_nothing_witness :
  Exists demo_cb "o" 100 empty_world = (Ok true, mkWorld ∅ [] [CallExists "o"]).
Proof.
  apply (proj2 (Exists_stores_nothing demo_cb "o" 100 (mkExistsCfg 100 100) empty_world
                  eq_refl eq_refl) true eq_refl).
  vm_compute. discriminate.
Defined.

(** X3: a cached content entry that is not nil is what [Get] returns, whatever
    the [exists] entry says: no call reaches the bucket and nothing is
    stored. *)
Theorem Get_cached_content (cb : CachingBucket) (name : string) (elapsed : Z)
    (cfg : getConfig) (content : list byte) (w : World) :
  findGetConfig (cb_cfg cb) name = Some cfg ->
  at_key (cache w) (keyString ContentVerb name) = Some content ->
  Get cb name elapsed w = (Ok (BytesReader content), w).
Proof. apply Get_hit. Qed.

Lemma Get_cached_content_witness :
  Get demo_cb "o" 5
      (mkWorld {[ "content:o" := Some [x00; x01; x02];
                  "exists:o" := Some (list_byte_of_string "false") ]} [] [])
  = (Ok (BytesReader [x00; x01; x02]),
     mkWorld {[ "content:o" := Some [x00; x01; x02];
                "exists:o" := Some (list_byte_of_string "false") ]} [] []).
Proof.
  apply (Get_cached_content demo_cb "o" 5 (mkGetCfg 100 100 100 1000)).
  - reflexivity.
  - vm_compute. reflexivity.
Defined.

(** X4: when the bucket's [Get] fails with an error that the bucket recognises
    as "not found", and [doesntExistTTL] has not run out meanwhile, that
    error is returned and [false] is stored under the [exists] key; any
    later [Get] on that state fails with the package's own not-found error
    without a call to the bucket. *)
Theorem Get_not_found_repeat (cb : CachingBucket) (name : string) (elapsed : Z)
    (cfg : getConfig) (err : error) (w : World) :
  findGetConfig (cb_cfg cb) name = Some cfg ->
  at_key (cache w) (keyString ContentVerb name) = None ->
  knownAbsent (at_key (cache w) (keyString ExistsVerb name)) = false ->
  bkt_Get (cb_Bucket cb) name = inl err ->
  bkt_IsObjNotFoundErr (cb_Bucket cb) err = true ->
  0 < sub64 (doesntExistTTL cfg) elapsed ->
  exists w1,
    Get cb name elapsed w = (Fail err, w1)
    /\ IsObjNotFoundErr cb err = true
    /\ calls w1 = calls w ++ [CallGet name]
    /\ stored w1 = stored w ++ [mkStore (keyString ExistsVerb name)
                                  (Some (list_byte_of_string "false"))
                                  (sub64 (doesntExistTTL cfg) elapsed)]
    /\ forall elapsed', Get cb name elapsed' w1 = (Fail errObjNotFound, w1).
Proof.
  intros Hcfg Hc Hex Hget Hnf Httl.
  rewrite (Get_miss cb name elapsed cfg w Hcfg Hc Hex), Hget, Hnf. cbv beta zeta.
  destruct (Z.gtb_spec (sub64 (doesntExistTTL cfg) elapsed) 0) as [_ | ?]; [|lia].
  eexists. split; [reflexivity|].
  split; [unfold IsObjNotFoundErr; rewrite Hnf; destruct err; reflexivity|].
  split; [reflexivity|]. split; [reflexivity|].
  intros elapsed'. apply (Get_absent cb name elapsed' cfg _ Hcfg).
  - cbn [store_in cache]. rewrite at_key_insert_ne by apply content_exists_keys. exact Hc.
  - cbn [store_in cache]. rewrite at_key_insert. reflexivity.
Qed.

Lemma Get_not_found_repeat_witness :
  exists w1,
    Get absent_cb "o" 5 empty_world = (Fail (ExternalErr 404), w1)
    /\ IsObjNotFoundErr absent_cb (ExternalErr 404) = true
    /\ calls w1 = calls empty_world ++ [CallGet "o"]
    /\ stored w1 = stored empty_world ++ [mkStore (keyString ExistsVerb "o")
                                            (Some (list_byte_of_string "false"))
                                            (sub64 100 5)]
    /\ forall elapsed', Get absent_cb "o" elapsed' w1 = (Fail errObjNotFound, w1).
Proof.
  apply (Get_not_found_repeat absent_cb "o" 5 (mkGetCfg 100 100 100 1000)
           (ExternalErr 404) empty_world).
  - reflexivity.
  - vm_compute. reflexivity.
  - vm_compute. reflexivity.
  - reflexivity.
  - reflexivity.
  - vm_compute. reflexivity.
Defined.

(** X5: when the bucket's [Get] fails, the error comes back unchanged and no
    content entry is stored; an error that the bucket does not recognise as
    "not found", or one that took [doesntExistTTL] or longer, leaves the
    cache as it was. *)
Theorem Get_failure (cb : CachingBucket) (name : string) (elapsed : Z)
    (cfg : getConfig) (err : error) (w : World) :
  findGetConfig (cb_cfg cb) name = Some cfg ->
  at_key (cache w) (keyString ContentVerb name) = None ->
  knownAbsent (at_key (cache w) (keyString ExistsVerb name)) = false ->
  bkt_Get (cb_Bucket cb) name = inl err ->
  fst (Get cb name elapsed w) = Fail err
  /\ at_key (cache (snd (Get cb name elapsed w))) (keyString ContentVerb name) = None
  /\ (bkt_IsObjNotFoundErr (cb_Bucket cb) err = false
      \/ sub64 (doesntExistTTL cfg) elapsed <= 0 ->
      snd (Get cb name elapsed w)
      = mkWorld (cache w) (stored w) (calls w ++ [CallGet name])).
Proof.
  intros Hcfg Hc Hex Hget.
  rewrite (Get_miss cb name elapsed cfg w Hcfg Hc Hex), Hget. cbv beta zeta. cbn [fst snd].
  split; [reflexivity|]. split.
  - destruct (bkt_IsObjNotFoundErr (cb_Bucket cb) err); [|exact Hc].
    destruct (sub64 (doesntExistTTL cfg) elapsed >? 0); [|exact Hc].
    cbn [store_in cache]. rewrite at_key_insert_ne by apply content_exists_keys. exact Hc.
  - intros [-> | Httl]; [reflexivity|].
    destruct (bkt_IsObjNotFoundErr (cb_Bucket cb) err); [|reflexivity].
    destruct (Z.gtb_spec (sub64 (doesntExistTTL cfg) elapsed) 0); [lia | reflexivity].
Qed.

Lemma Get_failure_witness :
  fst (Get absent_cb "o" 100 empty_world) = Fail (ExternalErr 404)
  /\ at_key (cache (snd (Get absent_cb "o" 100 empty_world))) (keyString ContentVerb "o")
     = None
  /\ (bkt_IsObjNotFoundErr (cb_Bucket absent_cb) (ExternalErr 404) = false
      \/ sub64 (doesntExistTTL (mkGetCfg 100 100 100 1000)) 100 <= 0 ->
      snd (Get absent_cb "o" 100 empty_world)
      = mkWorld (cache empty_world) (stored empty_world)
                (calls empty_world ++ [CallGet "o"])).
Proof.
  apply (Get_failure absent_cb "o" 100 (mkGetCfg 100 100 100 1000) (ExternalErr 404)
           empty_world).
  - reflexivity.
  - vm_compute. reflexivity.
  - vm_compute. reflexivity.
  - reflexivity.
Defined.

(** X6: the whole-object round trip.  A [Get] that reaches the bucket hands out
    a capturing reader; once the caller has read it to the end of the
    stream (without closing before, within the size cap and the content
    TTL) and the stream held at least one byte, any later [Get] returns
    exactly the bytes that were read, from the cache, without a call to the
    bucket. *)
Theorem Get_read_then_Get (cb : CachingBucket) (name : string) (elapsed : Z)
    (cfg : getConfig) (s : Stream) (pre post : list action) (el : Z) (w : World) :
  findGetConfig (cb_cfg cb) name = Some cfg ->
  at_key (cache w) (keyString ContentVerb name) = None ->
  knownAbsent (at_key (cache w) (keyString ExistsVerb name)) = false ->
  bkt_Get (cb_Bucket cb) name = inr s ->
  captured (reads s) (maxCacheableSize cfg) (contentTTL cfg) [] pre el ->
  bytes_of (answers (reads s) (pre ++ [ActRead el])) <> [] ->
  exists g w1 g' w2,
    Get cb name elapsed w = (Ok (CaptureReader g), w1)
    /\ calls w1 = calls w ++ [CallGet name]
    /\ getReader_run g (pre ++ ActRead el :: post) w1
       = (Ok (answers (reads s) (pre ++ ActRead el :: post), g'), w2)
    /\ calls w2 = calls w1
    /\ forall elapsed',
         Get cb name elapsed' w2
         = (Ok (BytesReader (bytes_of (answers (reads s) (pre ++ [ActRead el])))), w2).
Proof.
  intros Hcfg Hc Hex Hget Hcap Hne.
  rewrite (Get_miss cb name elapsed cfg w Hcfg Hc Hex), Hget. cbv beta zeta.
  destruct s as [rs ce]. cbn [reads] in *.
  match goal with |- context [(Ok (CaptureReader ?g0), ?w0)] =>
    destruct (getReader_run_captured pre rs ce [] (contentTTL cfg)
                (keyString ContentVerb name) (maxCacheableSize cfg) el post w0 Hcap)
      as [g' Hrun];
    exists g0, w0, g'
  end.
  eexists. split; [reflexivity|]. split.
  { destruct (sub64 (existsTTL cfg) elapsed >? 0); reflexivity. }
  split; [exact Hrun|]. split; [reflexivity|].
  intros elapsed'. apply (Get_hit cb name elapsed' cfg _ _ Hcfg).
  cbn [store_in cache app]. rewrite at_key_insert.
  destruct (bytes_of (answers rs (pre ++ [ActRead el]))); [contradiction | reflexivity].
Qed.

Lemma Get_read_then_Get_witness :
  exists g w1 g' w2,
    Get demo_cb "o" 5 empty_world = (Ok (CaptureReader g), w1)
    /\ calls w1 = calls empty_world ++ [CallGet "o"]
    /\ getReader_run g ([ActRead 1] ++ ActRead 2 :: []) w1
       = (Ok (answers [([x00; x01], None); ([x02], Some io_EOF)]
                      ([ActRead 1] ++ ActRead 2 :: []), g'), w2)
    /\ calls w2 = calls w1
    /\ forall elapsed',
         Get demo_cb "o" elapsed' w2
         = (Ok (BytesReader (bytes_of (answers [([x00; x01], None); ([x02], Some io_EOF)]
                                               ([ActRead 1] ++ [ActRead 2])))), w2).
Proof.
  apply (Get_read_then_Get demo_cb "o" 5 (mkGetCfg 100 100 100 1000)
           (mkStream [([x00; x01], None); ([x02], Some io_EOF)] None)
           [ActRead 1] [] 2 empty_world).
  - reflexivity.
  - vm_compute. reflexivity.
  - vm_compute. reflexivity.
  - reflexivity.
  - repeat split; try reflexivity. right. vm_compute. discriminate.
  - vm_compute. discriminate.
Defined.

(** ** Attributes cache *)

Lemma fetch_one_lookup (c : gmap string (option (list byte))) (k : string) :
  fetch_map c [k] !! k = c !! k.
Proof.
  rewrite fetch_map_lookup. destruct (decide (k ∈ [k])) as [_ | H]; [reflexivity|].
  exfalso. apply H. apply list_elem_of_singleton. reflexivity.
Qed.

Lemma cachedAttributes_hit (cb : CachingBucket) (name : string) (ttl : Z)
    (raw : option (list byte)) (attrs : ObjectAttributes) (w : World) :
  cache w !! keyString AttributesVerb name = Some raw ->
  json_Unmarshal (cb_json cb) raw = Some attrs ->
  cachedAttributes cb name ttl w = (Ok attrs, w).
Proof.
  intros Hraw Hdec. unfold cachedAttributes, mbind, M_bind, cacheFetch.
  rewrite fetch_one_lookup, Hraw, Hdec. reflexivity.
Qed.

Lemma cachedAttributes_miss (cb : CachingBucket) (name : string) (ttl : Z) (w : World) :
  match cache w !! keyString AttributesVerb name with
  | Some raw => json_Unmarshal (cb_json cb) raw
  | None => None
  end = None ->
  cachedAttributes cb name ttl w
  = let w0 := mkWorld (cache w) (stored w) (calls w ++ [CallAttributes name]) in
    match bkt_Attributes (cb_Bucket cb) name with
    | inl err => (Fail err, w0)
    | inr attrs =>
        (Ok attrs,
         match json_Marshal (cb_json cb) attrs with
         | Some raw => store_in w0 (keyString AttributesVerb name) (Some raw) ttl
         | None => w0
         end)
    end.
Proof.
  intros Hmiss. unfold cachedAttributes, mbind, M_bind, cacheFetch.
  rewrite fetch_one_lookup, Hmiss. unfold logCall, cacheStore, store_in, fail, mret, M_ret.
  cbv zeta.
  destruct (bkt_Attributes (cb_Bucket cb) name) as [err | attrs]; [reflexivity|].
  destruct (json_Marshal (cb_json cb) attrs); reflexivity.
Qed.

(** X7: after an [Attributes] that had to ask the bucket, the attributes are
    stored, encoded, under the [attrs] key with the configured TTL; when the
    encoding decodes to the same attributes, a later [Attributes] on that
    state returns them without a call to the bucket and without a change of
    state. *)
Theorem Attributes_repeat_from_cache (cb : CachingBucket) (name : string) (ttl : Z)
    (attrs : ObjectAttributes) (raw : list byte) (w : World) :
  findAttributesConfig (cb_cfg cb) name = Some ttl ->
  match cache w !! keyString AttributesVerb name with
  | Some raw => json_Unmarshal (cb_json cb) raw
  | None => None
  end = None ->
  bkt_Attributes (cb_Bucket cb) name = inr attrs ->
  json_Marshal (cb_json cb) attrs = Some raw ->
  json_Unmarshal (cb_json cb) (Some raw) = Some attrs ->
  exists w1,
    Attributes cb name w = (Ok attrs, w1)
    /\ calls w1 = calls w ++ [CallAttributes name]
    /\ stored w1 = stored w ++ [mkStore (keyString AttributesVerb name) (Some raw) ttl]
    /\ Attributes cb name w1 = (Ok attrs, w1).
Proof.
  intros Hcfg Hmiss Hb Henc Hdec. unfold Attributes. rewrite Hcfg.
  rewrite (cachedAttributes_miss cb name ttl w Hmiss), Hb, Henc. cbv zeta.
  eexists. split; [reflexivity|]. split; [reflexivity|]. split; [reflexivity|].
  apply (cachedAttributes_hit cb name ttl (Some raw) attrs); [|exact Hdec].
  cbn [store_in cache]. apply lookup_insert_eq.
Qed.

Lemma Attributes_repeat_from_cache_witness :
  exists w1,
    Attributes json_cb "o" empty_world = (Ok (mkAttrs 11 0), w1)
    /\ calls w1 = calls empty_world ++ [CallAttributes "o"]
    /\ stored w1 = stored empty_world
                   ++ [mkStore (keyString AttributesVerb "o") (Some [x7b; x7d]) 100]
    /\ Attributes json_cb "o" w1 = (Ok (mkAttrs 11 0), w1).
Proof.
  apply (Attributes_repeat_from_cache json_cb "o" 100 (mkAttrs 11 0) [x7b; x7d] empty_world).
  - reflexivity.
  - vm_compute. reflexivity.
  - reflexivity.
  - reflexivity.
  - reflexivity.
Defined.

(** X8: [Attributes] on a miss (no entry, or an entry that does not decode):
    an error of the bucket is returned as it is and nothing is stored;
    attributes that cannot be encoded are returned all the same, and
    nothing is stored. *)
Theorem Attributes_stores_nothing (cb : CachingBucket) (name : string) (ttl : Z)
    (w : World) :
  findAttributesConfig (cb_cfg cb) name = Some ttl ->
  match cache w !! keyString AttributesVerb name with
  | Some raw => json_Unmarshal (cb_json cb) raw
  | None => None
  end = None ->
  (forall err, bkt_Attributes (cb_Bucket cb) name = inl err ->
     Attributes cb name w
     = (Fail err, mkWorld (cache w) (stored w) (calls w ++ [CallAttributes name])))
  /\ (forall attrs, bkt_Attributes (cb_Bucket cb) name = inr attrs ->
        json_Marshal (cb_json cb) attrs = None ->
        Attributes cb name w
        = (Ok attrs, mkWorld (cache w) (stored w) (calls w ++ [CallAttributes name]))).
Proof.
  intros Hcfg Hmiss. unfold Attributes. rewrite Hcfg.
  rewrite (cachedAttributes_miss cb name ttl w Hmiss). cbv zeta. split.
  - intros err ->. reflexivity.
  - intros attrs -> ->. reflexivity.
Qed.

Lemma Attributes_stores_nothing_witness :
  Attributes absent_cb "o" empty_world
  = (Fail (ExternalErr 404), mkWorld ∅ [] [CallAttributes "o"]).
Proof.
  apply (proj1 (Attributes_stores_nothing absent_cb "o" 100 empty_world eq_refl eq_refl)
           (ExternalErr 404) eq_refl).
Defined.

(** ** Directory-listing cache *)

Lemma Iter_hit (cb : CachingBucket) (dir : string) (f : string -> option error)
    (elapsed : Z) (cfg : iterConfig) (raw : list byte) (names : list string) (w : World) :
  findIterConfig (cb_cfg cb) dir = Some cfg ->
  at_key (cache w) (keyString IterVerb dir) = Some raw ->
  codec_Decode cfg raw = inr names ->
  Iter cb dir f elapsed w
  = (match visit f names with Some e => Fail e | None => Ok tt end, w).
Proof.
  intros Hcfg Hraw Hdec. unfold Iter. rewrite Hcfg.
  unfold mbind, M_bind, cacheFetch. rewrite fetch_one, Hraw, Hdec.
  unfold returnErr. destruct (visit f names); reflexivity.
Qed.

(** X9: after an [Iter] that enumerated the bucket without error and within
    the TTL, the listing is in the cache; when its encoding is not nil and
    decodes to the same names, any later [Iter], with any visitor, replays
    exactly those names from the cache: the visitor sees them in order, up
    to its first error, which is returned; no call reaches the bucket and
    the state does not change. *)
Theorem Iter_repeat_from_cache (cb : CachingBucket) (dir : string)
    (f : string -> option error) (elapsed : Z) (cfg : iterConfig) (raw : list byte)
    (w : World) :
  findIterConfig (cb_cfg cb) dir = Some cfg ->
  match at_key (cache w) (keyString IterVerb dir) with
  | Some r => match codec_Decode cfg r with inr names => Some names | inl _ => None end
  | None => None
  end = None ->
  visit f (fst (bkt_Iter (cb_Bucket cb) dir)) = None ->
  snd (bkt_Iter (cb_Bucket cb) dir) = None ->
  0 < sub64 (iter_ttl cfg) elapsed ->
  codec_Encode cfg (fst (bkt_Iter (cb_Bucket cb) dir)) = inr (Some raw) ->
  codec_Decode cfg raw = inr (fst (bkt_Iter (cb_Bucket cb) dir)) ->
  exists w1,
    Iter cb dir f elapsed w = (Ok tt, w1)
    /\ calls w1 = calls w ++ [CallIter dir]
    /\ forall f' elapsed',
         Iter cb dir f' elapsed' w1
         = (match visit f' (fst (bkt_Iter (cb_Bucket cb) dir)) with
            | Some e => Fail e
            | None => Ok tt
            end, w1).
Proof.
  intros Hcfg Hmiss Hvisit Herr Httl Henc Hdec.
  unfold Iter at 1. rewrite Hcfg.
  unfold mbind, M_bind, cacheFetch. rewrite fetch_one, Hmiss.
  unfold logCall, bucketIter. rewrite Hvisit, Herr, (visited_clean _ _ Hvisit), Henc.
  destruct (Z.gtb_spec (sub64 (iter_ttl cfg) elapsed) 0) as [_ | ?]; [|lia].
  unfold cacheStore. cbn [cache stored calls].
  eexists. split; [reflexivity|]. split; [reflexivity|].
  intros f' elapsed'. apply (Iter_hit cb dir f' elapsed' cfg raw _ _ Hcfg); [|exact Hdec].
  cbn [cache]. apply at_key_insert.
Qed.

Lemma Iter_repeat_from_cache_witness :
  exists w1,
    Iter demo_cb "d" (fun _ => None) 10 empty_world = (Ok tt, w1)
    /\ calls w1 = calls empty_world ++ [CallIter "d"]
    /\ forall f' elapsed',
         Iter demo_cb "d" f' elapsed' w1
         = (match visit f' (fst (bkt_Iter (cb_Bucket demo_cb) "d")) with
            | Some e => Fail e
            | None => Ok tt
            end, w1).
Proof.
  apply (Iter_repeat_from_cache demo_cb "d" (fun _ => None) 10
           (mkIterCfg 100 demo_codec_Encode (fun _ => inr ["a"; "b"; "c"]))
           (list_byte_of_string "a,b,c") empty_world).
  - reflexivity.
  - vm_compute. reflexivity.
  - reflexivity.
  - reflexivity.
  - vm_compute. reflexivity.
  - vm_compute. reflexivity.
  - reflexivity.
Defined.

(** ** More on the cache-key codec *)

Lemma string_app_assoc (a b c : string) : (a +:+ b) +:+ c = a +:+ (b +:+ c).
Proof.
  induction a as [|x a IH]; [reflexivity|].
  change (String x ((a +:+ b) +:+ c) = String x (a +:+ (b +:+ c))).
  rewrite IH. reflexivity.
Qed.

Lemma has_colon_app (a b : string) : has_colon (a +:+ String ":" b) = true.
Proof.
  induction a as [|x a IH]; [reflexivity|].
  change (String x a +:+ String ":" b) with (String x (a +:+ String ":" b)).
  cbn [has_colon]. rewrite IH. apply orb_true_r.
Qed.

(** A string is cut in one way only at its last colon. *)
Lemma last_field_unique (x1 x2 t1 t2 : string) :
  has_colon t1 = false -> has_colon t2 = false ->
  x1 +:+ String ":" t1 = x2 +:+ String ":" t2 -> x1 = x2 /\ t1 = t2.
Proof.
  intros H1 H2. revert x2. induction x1 as [|c x1 IH]; intros [|c' x2] E.
  - injection E as E. split; [reflexivity | exact E].
  - change (String c' x2 +:+ String ":" t2) with (String c' (x2 +:+ String ":" t2)) in E.
    injection E as _ E. rewrite E, has_colon_app in H1. discriminate.
  - change (String c x1 +:+ String ":" t1) with (String c (x1 +:+ String ":" t1)) in E.
    injection E as _ E. rewrite <- E, has_colon_app in H2. discriminate.
  - change (String c x1 +:+ String ":" t1) with (String c (x1 +:+ String ":" t1)) in E.
    change (String c' x2 +:+ String ":" t2) with (String c' (x2 +:+ String ":" t2)) in E.
    injection E as -> E. destruct (IH x2 E) as [-> ->]. split; reflexivity.
Qed.

Lemma last_two_fields_unique (n1 n2 a1 a2 b1 b2 : string) :
  has_colon a1 = false -> has_colon a2 = false ->
  has_colon b1 = false -> has_colon b2 = false ->
  n1 +:+ ":" +:+ a1 +:+ ":" +:+ b1 = n2 +:+ ":" +:+ a2 +:+ ":" +:+ b2 ->
  n1 = n2 /\ a1 = a2 /\ b1 = b2.
Proof.
  intros Ha1 Ha2 Hb1 Hb2 E.
  assert (E' : (n1 +:+ String ":" a1) +:+ String ":" b1
               = (n2 +:+ String ":" a2) +:+ String ":" b2).
  { rewrite !string_app_assoc. exact E. }
  destruct (last_field_unique _ _ _ _ Hb1 Hb2 E') as [E1 ->].
  destruct (last_field_unique _ _ _ _ Ha1 Ha2 E1) as [-> ->].
  repeat split.
Qed.

(** X10: the keys of the range engine never collide: two subrange keys are
    equal only for the same object name, the same offset and the same end,
    also when the names hold colons. *)
Theorem subrange_keys_distinct (name1 name2 : string) (size1 size2 sz1 sz2 x y : Z) :
  0 < sz1 -> 0 < sz2 -> 0 < size1 <= max_int64 -> 0 < size2 <= max_int64 ->
  0 <= x -> 0 <= y -> x + sz1 <= max_int64 -> y + sz2 <= max_int64 ->
  subrangeKey name1 size1 sz1 x = subrangeKey name2 size2 sz2 y ->
  name1 = name2 /\ x = y /\ Z.min (x + sz1) size1 = Z.min (y + sz2) size2.
Proof.
  intros Hsz1 Hsz2 Hs1 Hs2 Hx Hy Hxm Hym E.
  rewrite !subrangeKey_long in E by lia.
  apply append_inv_head in E.
  change (":" +:+ name1 +:+ ":" +:+ FormatInt x +:+ ":" +:+ FormatInt (Z.min (x + sz1) size1))
    with (String ":" (name1 +:+ ":" +:+ FormatInt x +:+ ":"
                        +:+ FormatInt (Z.min (x + sz1) size1))) in E.
  change (":" +:+ name2 +:+ ":" +:+ FormatInt y +:+ ":" +:+ FormatInt (Z.min (y + sz2) size2))
    with (String ":" (name2 +:+ ":" +:+ FormatInt y +:+ ":"
                        +:+ FormatInt (Z.min (y + sz2) size2))) in E.
  injection E as E.
  destruct (last_two_fields_unique _ _ _ _ _ _ (FormatInt_colon _) (FormatInt_colon _)
              (FormatInt_colon _) (FormatInt_colon _) E) as (-> & Ex & Ee).
  split; [reflexivity|].
  split; apply FormatInt_inj; try assumption;
    unfold in_range, min_int64, max_int64 in *; lia.
Qed.

Lemma subrange_keys_distinct_witness :
  "o" = "o" /\ 3 = 3 /\ Z.min (3 + 3) 11 = Z.min (3 + 3) 11.
Proof.
  apply (subrange_keys_distinct "o" "o" 11 11 3 3 3 3);
    first [reflexivity | unfold max_int64; lia].
Defined.

(** X11: the keys of the other operations never collide either: for the five
    verbs, the key of a verb and a name is the key of no other verb or
    name, and no subrange key is the key of one of the four other verbs. *)
Theorem verb_keys_distinct :
  (forall v1 v2 n1 n2,
      IsValidVerb v1 = true -> IsValidVerb v2 = true ->
      keyString v1 n1 = keyString v2 n2 -> v1 = v2 /\ n1 = n2)
  /\ (forall v n name size sz x,
        IsValidVerb v = true -> v <> SubrangeVerb ->
        keyString v n <> subrangeKey name size sz x).
Proof.
  split.
  - intros v1 v2 n1 n2 H1 H2 E. rewrite !keyString_eq in E.
    destruct (IsValidVerb_cases v1 H1) as [-> | [-> | [-> | [-> | ->]]]];
      destruct (IsValidVerb_cases v2 H2) as [-> | [-> | [-> | [-> | ->]]]];
      try discriminate E;
      (split; [reflexivity|]; apply append_inv_head in E; injection E as E; exact E).
  - intros v n name size sz x Hv Hns E. rewrite keyString_eq in E.
    unfold subrangeKey, BucketCacheKey_String in E. cbn [Verb] in E.
    destruct (IsValidVerb_cases v Hv) as [-> | [-> | [-> | [-> | ->]]]];
      try (apply Hns; reflexivity);
      match type of E with context [if ?c then _ else _] => destruct c end;
      discriminate E.
Qed.

Lemma verb_keys_distinct_witness :
  ExistsVerb = ExistsVerb /\ "o" = "o".
Proof.
  apply (proj1 verb_keys_distinct ExistsVerb ExistsVerb "o" "o");
    reflexivity.
Defined.

Lemma split_colon_fields (s : string) :
  Forall (fun f => has_colon f = false) (split_colon s).
Proof.
  induction s as [|c s IH]; cbn [split_colon].
  - repeat constructor.
  - destruct (Ascii.eqb c ":") eqn:Ec.
    + constructor; [reflexivity | exact IH].
    + destruct (split_colon s) as [|h t].
      * repeat constructor. cbn [has_colon]. rewrite Ec. reflexivity.
      * apply Forall_cons in IH. destruct IH as [Hh Ht].
        constructor; [|exact Ht]. cbn [has_colon]. rewrite Ec, Hh. reflexivity.
Qed.

Lemma split_colon_nonnil (s : string) : split_colon s <> [].
Proof.
  destruct s as [|c s]; cbn [split_colon]; [discriminate|].
  destruct (Ascii.eqb c ":"); [discriminate|].
  destruct (split_colon s); discriminate.
Qed.

(** Joining the fields with colons gives the string back. *)
Lemma concat_split_colon (s : string) : String.concat ":" (split_colon s) = s.
Proof.
  induction s as [|c s IH]; [reflexivity|]. cbn [split_colon].
  pose proof (split_colon_nonnil s) as Hn.
  destruct (Ascii.eqb c ":") eqn:Ec.
  - apply Ascii.eqb_eq in Ec. subst c.
    destruct (split_colon s) as [|h t]; [contradiction|].
    change (String.concat ":" ("" :: h :: t)) with (String ":" (String.concat ":" (h :: t))).
    rewrite IH. reflexivity.
  - destruct (split_colon s) as [|h t]; [contradiction|].
    destruct t as [|h2 t].
    + cbn [String.concat] in *. rewrite IH. reflexivity.
    + change (String.concat ":" (String c h :: h2 :: t))
        with (String c (String.concat ":" (h :: h2 :: t))).
      rewrite IH. reflexivity.
Qed.

Lemma digit_of_range (c : ascii) (d : Z) : digit_of c = Some d -> 0 <= d <= 9.
Proof.
  unfold digit_of. set (n := Z.of_nat (nat_of_ascii c)).
  destruct (Z.leb_spec 48 n); destruct (Z.leb_spec n 57); cbn [andb]; intros E;
    try discriminate E. injection E as <-. lia.
Qed.

Lemma parse_uint_loop_nonneg (s : string) :
  forall n r, 0 <= n -> parse_uint_loop s n = Some r -> 0 <= r.
Proof.
  induction s as [|c s IH]; intros n r Hn E; cbn [parse_uint_loop] in E.
  - injection E as <-. exact Hn.
  - destruct (digit_of c) as [d|] eqn:Ed; [|discriminate E].
    apply digit_of_range in Ed.
    destruct (n >=? max_uint64 / 10 + 1); [discriminate E|].
    cbv zeta in E. destruct (n * 10 + d >? max_uint64); [discriminate E|].
    apply (IH (n * 10 + d) r); [lia | exact E].
Qed.

Lemma ParseInt_range (s : string) (v : Z) : ParseInt s = Some v -> in_range v.
Proof.
  unfold ParseInt. destruct s as [|c s]; [discriminate|]. cbv zeta.
  set (body := if Ascii.eqb c "+" || Ascii.eqb c "-" then s else String c s).
  destruct (ParseUint body) as [un|] eqn:Eu; [|discriminate].
  assert (Hun : 0 <= un).
  { unfold ParseUint in Eu. destruct body as [|c0 body0]; [discriminate Eu|].
    apply (parse_uint_loop_nonneg (String c0 body0) 0 un); [lia | exact Eu]. }
  destruct (Ascii.eqb c "-"); cbn [negb andb].
  - destruct (Z.gtb_spec un (2 ^ 63)); [discriminate|].
    intros E. injection E as <-. unfold in_range, min_int64, max_int64. lia.
  - destruct (Z.geb_spec un (2 ^ 63)); [discriminate|].
    intros E. injection E as <-. unfold in_range, min_int64, max_int64. lia.
Qed.

(** X12: what the decoder accepts, and what it returns.  A key that
    [ParseBucketCacheKey] returns without error has one of the five verbs,
    a name without colon and bounds within int64; for a verb other than
    [subrange] the bounds are zero and encoding the key gives the input
    back; for [subrange] the input is the verb, the name and two fields
    that [strconv.ParseInt] reads as the bounds.  With an error, the key
    returned is the zero key. *)
Theorem ParseBucketCacheKey_sound (s : string) :
  (forall k, ParseBucketCacheKey s = (k, None) ->
     IsValidVerb (Verb k) = true
     /\ has_colon (Name k) = false
     /\ in_range (Start k) /\ in_range (End_ k)
     /\ (Verb k <> SubrangeVerb ->
         Start k = 0 /\ End_ k = 0 /\ BucketCacheKey_String k = s)
     /\ (Verb k = SubrangeVerb ->
         exists a b,
           s = SubrangeVerb +:+ ":" +:+ Name k +:+ ":" +:+ a +:+ ":" +:+ b
           /\ ParseInt a = Some (Start k) /\ ParseInt b = Some (End_ k)))
  /\ (forall k e, ParseBucketCacheKey s = (k, Some e) -> k = zeroKey).
Proof.
  pose proof (split_colon_fields s) as Hf. pose proof (concat_split_colon s) as Hc.
  unfold ParseBucketCacheKey. cbv zeta.
  set (slice := split_colon s) in *. clearbody slice.
  split.
  - intros k E.
    destruct (Z.ltb_spec (Z.of_nat (length slice)) 2) as [? | Hlen2]; [discriminate E|].
    destruct (IsValidVerb (nth 0 slice "")) eqn:Hv; cbn [negb] in E; [|discriminate E].
    destruct (String.eqb_spec (nth 0 slice "") SubrangeVerb) as [Hsub | Hsub].
    + destruct (Z.eqb_spec (Z.of_nat (length slice)) 4) as [Hlen | ?]; cbn [negb] in E;
        [|discriminate E].
      destruct (ParseInt (nth 2 slice "")) as [start|] eqn:Hstart; [|discriminate E].
      destruct (ParseInt (nth 3 slice "")) as [end_|] eqn:Hend; [|discriminate E].
      injection E as <-. cbn [Verb Name Start End_].
      destruct slice as [|v [|n [|a [|b [|c rest]]]]]; cbn [length] in Hlen; try lia.
      cbn [nth] in *. subst v.
      apply Forall_cons in Hf. destruct Hf as [_ Hf].
      apply Forall_cons in Hf. destruct Hf as [Hn _].
      split; [reflexivity|]. split; [exact Hn|].
      split; [exact (ParseInt_range _ _ Hstart)|].
      split; [exact (ParseInt_range _ _ Hend)|].
      split; [intros H; contradiction H; reflexivity|].
      intros _. exists a, b. split; [|split; assumption].
      rewrite <- Hc. reflexivity.
    + destruct (Z.eqb_spec (Z.of_nat (length slice)) 2) as [Hlen | ?]; cbn [negb] in E;
        [|discriminate E].
      injection E as <-. cbn [Verb Name Start End_].
      destruct slice as [|v [|n [|a rest]]]; cbn [length] in Hlen; try lia.
      cbn [nth] in *.
      apply Forall_cons in Hf. destruct Hf as [_ Hf].
      apply Forall_cons in Hf. destruct Hf as [Hn _].
      split; [exact Hv|]. split; [exact Hn|].
      split; [unfold in_range, min_int64, max_int64; lia|].
      split; [unfold in_range, min_int64, max_int64; lia|].
      split; [|intros H; contradiction].
      intros _. split; [reflexivity|]. split; [reflexivity|].
      rewrite <- Hc. reflexivity.
  - intros k e E.
    repeat match type of E with
           | context [if ?c then _ else _] => destruct c
           | context [match ?x with _ => _ end] => destruct x
           end; try discriminate E; injection E as <- _; reflexivity.
Qed.

Lemma ParseBucketCacheKey_sound_witness :
  IsValidVerb (Verb (mkKey "subrange" "o" 3 6)) = true
  /\ has_colon (Name (mkKey "subrange" "o" 3 6)) = false
  /\ in_range (Start (mkKey "subrange" "o" 3 6)) /\ in_range (End_ (mkKey "subrange" "o" 3 6))
  /\ (Verb (mkKey "subrange" "o" 3 6) <> SubrangeVerb ->
      Start (mkKey "subrange" "o" 3 6) = 0 /\ End_ (mkKey "subrange" "o" 3 6) = 0
      /\ BucketCacheKey_String (mkKey "subrange" "o" 3 6) = "subrange:o:+3:06")
  /\ (Verb (mkKey "subrange" "o" 3 6) = SubrangeVerb ->
      exists a b,
        "subrange:o:+3:06"
        = SubrangeVerb +:+ ":" +:+ Name (mkKey "subrange" "o" 3 6) +:+ ":" +:+ a +:+ ":" +:+ b
        /\ ParseInt a = Some (Start (mkKey "subrange" "o" 3 6))
        /\ ParseInt b = Some (End_ (mkKey "subrange" "o" 3 6))).
Proof.
  apply (proj1 (ParseBucketCacheKey_sound "subrange:o:+3:06") (mkKey "subrange" "o" 3 6)).
  vm_compute. reflexivity.
Defined.

(** ** More on the range cache engine *)

(** X13: when the attributes of the object are not in the cache and the bucket
    fails to give them, [GetRange] fails with that error, wrapped; no range
    is asked of the bucket and nothing is stored. *)
Theorem GetRange_attributes_failure (cb : CachingBucket) (name : string)
    (offset length : Z) (cfg : getRangeConfig) (err : error) (w : World) :
  findGetRangeConfig (cb_cfg cb) name = Some cfg ->
  0 <= offset -> 0 < length ->
  match cache w !! keyString AttributesVerb name with
  | Some raw => json_Unmarshal (cb_json cb) raw
  | None => None
  end = None ->
  bkt_Attributes (cb_Bucket cb) name = inl err ->
  GetRange cb name offset length w
  = (Fail (Wrapf err "failed to get object attributes"),
     mkWorld (cache w) (stored w) (calls w ++ [CallAttributes name])).
Proof.
  intros Hcfg Hoff Hlen Hmiss Hb.
  rewrite (GetRange_cached cb name offset length cfg w Hcfg Hoff Hlen).
  unfold cachedGetRange, wrapErr, mbind, M_bind.
  rewrite (cachedAttributes_miss cb name (attributesTTL cfg) w Hmiss), Hb. reflexivity.
Qed.

Lemma GetRange_attributes_failure_witness :
  GetRange absent_cb "o" 0 5 empty_world
  = (Fail (Wrapf (ExternalErr 404) "failed to get object attributes"),
     mkWorld ∅ [] [CallAttributes "o"]).
Proof.
  apply (GetRange_attributes_failure absent_cb "o" 0 5 (mkRangeCfg 3 2 100 100)
           (ExternalErr 404) empty_world).
  - reflexivity.
  - lia.
  - lia.
  - reflexivity.
  - reflexivity.
Defined.

(** X14: one [Read] of the assembling reader, when the subrange under the read
    position is there and reaches past that position: the read returns at
    least one byte and at most the smallest of the buffer size, the bytes
    left in that subrange and the bytes left to return; they are the bytes
    of the subrange from the read position on; the position advances and
    the count of bytes left decreases by exactly that number. *)
Theorem subrangesReader_Read_progress (c : subrangesReader) (plen : Z) (cur : list byte) :
  0 < sr_subrangeSize c ->
  0 <= readOffset c -> 0 < remaining c ->
  readOffset c + remaining c <= max_int64 ->
  0 < plen ->
  at_key (subranges c)
         (key_at (offsetsKeys c) (alignDown (sr_subrangeSize c) (readOffset c))) = Some cur ->
  readOffset c - alignDown (sr_subrangeSize c) (readOffset c) < Z.of_nat (List.length cur) ->
  Z.of_nat (List.length cur) <= max_int64 ->
  let inSubrange := readOffset c - alignDown (sr_subrangeSize c) (readOffset c) in
  let n := Z.min plen (Z.min (Z.of_nat (List.length cur) - inSubrange) (remaining c)) in
  0 < n
  /\ Z.of_nat (List.length (window cur inSubrange n)) = n
  /\ subrangesReader_Read c plen
     = (Ok (window cur inSubrange n),
        mkSubrangesReader (sr_subrangeSize c) (offsetsKeys c) (subranges c)
                          (readOffset c + n) (remaining c - n)).
Proof.
  intros Hsz Hro Hrem Hsum Hplen Hcur Hleft Hlen. cbv zeta.
  pose proof (alignDown_bounds (sr_subrangeSize c) (readOffset c) Hsz) as Hd.
  assert (Hd0 : 0 <= alignDown (sr_subrangeSize c) (readOffset c)).
  { unfold alignDown. apply Z.mul_nonneg_nonneg; [apply Z.div_pos|]; lia. }
  set (cur0 := alignDown (sr_subrangeSize c) (readOffset c)) in *.
  set (L := Z.of_nat (List.length cur)) in *.
  set (n := Z.min plen (Z.min (L - (readOffset c - cur0)) (remaining c))).
  assert (Hn : 0 < n) by (unfold n; lia).
  assert (HnL : readOffset c - cur0 + n <= L) by (unfold n; lia).
  assert (Hwl : Z.of_nat (List.length (window cur (readOffset c - cur0) n)) = n).
  { rewrite window_length by (fold L; lia). fold L. lia. }
  split; [exact Hn|]. split; [exact Hwl|].
  unfold subrangesReader_Read.
  destruct (Z.leb_spec (remaining c) 0) as [? | _]; [lia|].
  destruct (Z.eqb_spec (sr_subrangeSize c) 0) as [? | _]; [lia|].
  rewrite alignDown64 by (unfold max_int64 in *; lia). fold cur0. rewrite Hcur.
  rewrite (sub64_id (readOffset c) cur0)
    by (unfold in_range, min_int64, max_int64 in *; lia).
  fold L. rewrite (sub64_id L (readOffset c - cur0))
    by (unfold in_range, min_int64, max_int64 in *; lia).
  destruct (Z.leb_spec (L - (readOffset c - cur0)) 0) as [? | _]; [lia|].
  assert (Hmin : (if remaining c
                     <? (if plen <? L - (readOffset c - cur0)
                         then plen else L - (readOffset c - cur0))
                  then remaining c
                  else if plen <? L - (readOffset c - cur0)
                       then plen else L - (readOffset c - cur0)) = n).
  { unfold n. destruct (Z.ltb_spec plen (L - (readOffset c - cur0)));
      match goal with |- context [?a <? ?b] => destruct (Z.ltb_spec a b) end; lia. }
  rewrite Hmin.
  rewrite (add64_id (readOffset c - cur0) n)
    by (unfold in_range, min_int64, max_int64 in *; lia).
  rewrite (add64_id (readOffset c) n)
    by (unfold in_range, min_int64, max_int64 in *; lia).
  rewrite (sub64_id (remaining c) n)
    by (unfold in_range, min_int64, max_int64 in *; lia).
  unfold slice_bytes. fold L.
  destruct (Z.leb_spec 0 (readOffset c - cur0)) as [_ | ?]; [|lia].
  destruct (Z.leb_spec (readOffset c - cur0) (readOffset c - cur0 + n)) as [_ | ?]; [|lia].
  destruct (Z.leb_spec (readOffset c - cur0 + n) L) as [_ | ?]; [|lia].
  cbn [andb]. unfold window.
  replace (readOffset c - cur0 + n - (readOffset c - cur0)) with n by lia.
  reflexivity.
Qed.

Lemma subrangesReader_Read_progress_witness :
  subrangesReader_Read
    (mkSubrangesReader 3 {[ 3 := "subrange:o:3:6" ]}
       {[ "subrange:o:3:6" := Some [x03; x04; x05] ]} 4 5) 2
  = (Ok [x04; x05],
     mkSubrangesReader 3 {[ 3 := "subrange:o:3:6" ]}
       {[ "subrange:o:3:6" := Some [x03; x04; x05] ]} 6 3).
Proof.
  refine (proj2 (proj2 (subrangesReader_Read_progress
           (mkSubrangesReader 3 {[ 3 := "subrange:o:3:6" ]}
              {[ "subrange:o:3:6" := Some [x03; x04; x05] ]} 4 5) 2 [x03; x04; x05]
           _ _ _ _ _ _ _ _))).
  - reflexivity.
  - cbn; lia.
  - reflexivity.
  - vm_compute; discriminate.
  - lia.
  - vm_compute; reflexivity.
  - vm_compute; reflexivity.
  - vm_compute; discriminate.
Defined.

(** ** More on the range merger *)

Lemma merge_loop_length (limit : Z) (rest : list rng) :
  forall last, (length (merge_loop limit last rest) <= S (length rest))%nat.
Proof.
  induction rest as [|r rest IH]; intros last; cbn [merge_loop length]; [lia|].
  destruct (sub64 (rng_start r) (rng_end last) <=? limit).
  - specialize (IH (mkRng (rng_start last) (rng_end r))). lia.
  - cbn [length]. specialize (IH r). lia.
Qed.

Lemma merge_loop_last_end (limit : Z) (rest : list rng) :
  forall last d,
    rng_end (List.last (merge_loop limit last rest) d)
    = rng_end (List.last (last :: rest) d).
Proof.
  induction rest as [|r rest IH]; intros last d; [reflexivity|].
  cbn [merge_loop].
  destruct (sub64 (rng_start r) (rng_end last) <=? limit).
  - rewrite IH. destruct rest; reflexivity.
  - change (List.last (last :: merge_loop limit r rest) d)
      with (match merge_loop limit r rest with
            | [] => last
            | _ :: _ => List.last (merge_loop limit r rest) d
            end).
    destruct (merge_loop_apart limit rest r) as (first & tail & E & _).
    rewrite E. rewrite <- E. rewrite IH. reflexivity.
Qed.

(** X15: what the merger leaves.  The output has no more gaps than the input
    and is empty only for an empty input; it starts where the input starts
    and ends where the input ends; any two neighbours in it are further
    apart than the tolerance (as the int64 difference the merger
    computes); and, on an input sorted by start, every offset that lay in a
    gap of the input lies in a gap of the output. *)
Theorem mergeRanges_extent_and_gaps (input : list rng) (limit : Z) :
  (length (mergeRanges input limit) <= length input)%nat
  /\ (mergeRanges input limit = [] <-> input = [])
  /\ (forall d, rng_start (hd d (mergeRanges input limit)) = rng_start (hd d input))
  /\ (forall d, rng_end (List.last (mergeRanges input limit) d)
                = rng_end (List.last input d))
  /\ match mergeRanges input limit with
     | [] => True
     | first :: tail => apart_from limit first tail
     end
  /\ (sorted_gaps input = true ->
      forall x, covered input x -> covered (mergeRanges input limit) x).
Proof.
  destruct input as [|r rest].
  - cbn [mergeRanges length hd]. repeat split; trivial.
  - cbn [mergeRanges].
    destruct (merge_loop_apart limit rest r) as (first & tail & E & Hs & Ha).
    split; [apply merge_loop_length|].
    split; [rewrite E; split; discriminate|].
    split; [intros d; rewrite E; exact Hs|].
    split; [intros d; apply merge_loop_last_end|].
    split; [rewrite E; exact Ha|].
    intros Hsorted x Hx.
    apply (mergeRanges_covered limit (r :: rest) x Hsorted Hx).
Qed.

Lemma mergeRanges_extent_and_gaps_witness :
  covered (mergeRanges [mkRng 0 3; mkRng 3 6; mkRng 12 15] 0) 4.
Proof.
  apply (proj2 (proj2 (proj2 (proj2 (proj2
           (mergeRanges_extent_and_gaps [mkRng 0 3; mkRng 3 6; mkRng 12 15] 0)))))).
  - reflexivity.
  - exists (mkRng 3 6). split; [right; left; reflexivity | cbn; lia].
Defined.

(** ** What the missing-subrange fetch asks of the bucket *)

Lemma mergeUntil_budget (maxSub : Z) (fuel : nat) :
  forall limit missing out,
    mergeUntil fuel maxSub limit missing = Some out ->
    (maxSub >? 0) && (Z.of_nat (length out) >? maxSub) = false.
Proof.
  induction fuel as [|fuel IH]; intros limit missing out E; cbn [mergeUntil] in E;
    destruct ((maxSub >? 0) && (Z.of_nat (length missing) >? maxSub)) eqn:Ec;
    try discriminate E.
  - injection E as <-. exact Ec.
  - apply (IH _ _ _ E).
  - injection E as <-. exact Ec.
Qed.

Lemma fetchRanges_calls_ok (cb : CachingBucket) (name : string) (cfg : getRangeConfig)
    (cacheKeys : gmap Z string) (lo ll : Z) (missing : list rng) :
  forall hits w hits' w',
    fetchRanges cb name cfg cacheKeys lo ll missing hits w = (Ok hits', w') ->
    calls w' = calls w
               ++ map (fun m => CallGetRange name (rng_start m)
                                  (sub64 (rng_end m) (rng_start m))) missing.
Proof.
  induction missing as [|m rest IH]; intros hits w hits' w' E; cbn [fetchRanges] in E.
  - injection E as _ <-. cbn [map]. rewrite app_nil_r. reflexivity.
  - unfold mbind, M_bind in E.
    pose proof (fetchRange_calls cb name cfg cacheKeys lo ll m hits w) as Hc.
    destruct (fetchRange cb name cfg cacheKeys lo ll m hits w) as [[h1 | | |] w1];
      try discriminate E.
    cbn [snd] in Hc. rewrite (IH _ _ _ _ E), Hc. cbn [map].
    rewrite <- app_assoc. reflexivity.
Qed.

(** X16: the requests of [fetchMissingSubranges].  When the fetch returns
    without error, the calls it made to the bucket are [GetRange] calls
    for the object, one per range of a list of ranges that is sorted and
    without overlap; every range starts and ends at subrange-aligned
    offsets within [[startRange, endRange]] and is not empty; with a
    positive [maxSubRequests] there are no more ranges than that; and
    every aligned offset of the window that had no bytes in [hits] lies in
    one of the ranges. *)
Theorem fetchMissingSubranges_requests (cb : CachingBucket) (name : string)
    (startRange endRange : Z) (cacheKeys : gmap Z string)
    (hits hits' : gmap string (option (list byte)))
    (lastSubrangeOffset lastSubrangeLength : Z) (cfg : getRangeConfig) (w w' : World) :
  0 < subrangeSize cfg ->
  0 <= startRange <= max_int64 -> endRange <= max_int64 ->
  startRange mod subrangeSize cfg = 0 -> endRange mod subrangeSize cfg = 0 ->
  fetchMissingSubranges cb name startRange endRange cacheKeys hits
    lastSubrangeOffset lastSubrangeLength cfg w = (Ok hits', w') ->
  exists ranges,
    calls w' = calls w
               ++ map (fun m => CallGetRange name (rng_start m) (rng_end m - rng_start m))
                      ranges
    /\ sorted_gaps ranges = true
    /\ Forall (fun m => startRange <= rng_start m /\ rng_start m < rng_end m
                        /\ rng_end m <= endRange
                        /\ rng_start m mod subrangeSize cfg = 0
                        /\ rng_end m mod subrangeSize cfg = 0) ranges
    /\ (0 < maxSubRequests cfg -> Z.of_nat (length ranges) <= maxSubRequests cfg)
    /\ (forall j, 0 <= j -> startRange + j * subrangeSize cfg < endRange ->
          at_key hits (key_at cacheKeys (startRange + j * subrangeSize cfg)) = None ->
          covered ranges (startRange + j * subrangeSize cfg)).
Proof.
  intros Hsz Hs0 He Hsa Hea E.
  set (sz := subrangeSize cfg) in *.
  destruct (aligned_multiple sz endRange Hsz Hea) as (ke & Hke).
  destruct (aligned_multiple sz startRange Hsz Hsa) as (ks & Hks).
  unfold fetchMissingSubranges in E. fold sz in E.
  rewrite (missingLoop_grid sz endRange cacheKeys hits _ Hsz startRange []) in E
    by (first [unfold min_int64; lia | apply loopBound_enough, Hsz
              | exists (Z.max 0 (ke - ks)); split; [lia | nia]]).
  cbn [app] in E.
  set (offs := gridOffsets (loopBound startRange endRange sz) startRange endRange sz) in *.
  set (gaps := gapsAt sz cacheKeys hits offs) in *.
  set (need := fun x => In x offs /\ at_key hits (key_at cacheKeys x) = None).
  assert (Hgaps : gaps_ok startRange sz (Z.max startRange endRange) need gaps
                  /\ Forall (fun r => rng_start r < rng_end r) gaps).
  { split; [split; [|split]|].
    - apply sorted_from_gaps with startRange. apply gapsAt_sorted; [exact Hsz | lia].
    - apply gapsAt_onGrid;
        [exact Hsz | exists (Z.max 0 (ke - ks)); split; nia | exists 0; split; lia].
    - intros x [Hin Hmiss]. apply gapsAt_covered; assumption.
    - apply gapsAt_proper, Hsz. }
  assert (Hkeep : forall l limit,
            gaps_ok startRange sz (Z.max startRange endRange) need l
            /\ Forall (fun r => rng_start r < rng_end r) l ->
            gaps_ok startRange sz (Z.max startRange endRange) need (mergeRanges l limit)
            /\ Forall (fun r => rng_start r < rng_end r) (mergeRanges l limit)).
  { intros l limit [Hok Hpr]. split; [apply mergeRanges_gaps_ok, Hok|].
    apply mergeRanges_proper; [apply Hok | exact Hpr]. }
  pose proof (Hkeep gaps 0 Hgaps) as Hgaps0.
  destruct (mergeUntil (66 + length (mergeRanges gaps 0)) (maxSubRequests cfg) sz
              (mergeRanges gaps 0)) as [ms|] eqn:Em; [|discriminate E].
  destruct (mergeUntil_inv _ _ _ Hkeep _ _ _ Em Hgaps0) as ((Hms & Hmg & Hmc) & Hmp).
  pose proof (mergeUntil_budget _ _ _ _ _ Em) as Hbudget.
  pose proof (fetchRanges_calls_ok _ _ _ _ _ _ _ _ _ _ _ E) as Hcalls.
  assert (Hshape : Forall (fun m => startRange <= rng_start m /\ rng_start m < rng_end m
                        /\ rng_end m <= endRange
                        /\ rng_start m mod sz = 0 /\ rng_end m mod sz = 0) ms).
  { apply List.Forall_forall. intros m Hm.
    destruct (proj1 (List.Forall_forall _ _) Hmg m Hm) as (G1 & G2 & (k1 & G3) & (k2 & G4)).
    pose proof (proj1 (List.Forall_forall _ _) Hmp m Hm) as G5. cbn beta in G5.
    split; [exact G1|]. split; [exact G5|]. split; [lia|].
    split; [rewrite G3 | rewrite G4]; apply mod_grid; assumption. }
  exists ms. split; [|split; [exact Hms|split; [exact Hshape|split]]].
  - rewrite Hcalls. f_equal. apply map_ext_in. intros m Hm.
    destruct (proj1 (List.Forall_forall _ _) Hshape m Hm) as (G1 & G2 & G3 & _).
    rewrite sub64_id by (unfold in_range, min_int64, max_int64 in *; lia). reflexivity.
  - intros Hpos. destruct (Z.gtb_spec (maxSubRequests cfg) 0) as [_ | ?]; [|lia].
    cbn [andb] in Hbudget. destruct (Z.gtb_spec (Z.of_nat (length ms)) (maxSubRequests cfg));
      [discriminate Hbudget | lia].
  - intros j Hj Hlt Hnone. apply Hmc. split; [|exact Hnone].
    apply gridOffsets_complete; [exact Hsz | apply loopBound_enough, Hsz | exact Hj | exact Hlt].
Qed.

Lemma fetchMissingSubranges_requests_witness :
  exists ranges,
    calls (snd demo_fetch)
    = calls empty_world
      ++ map (fun m => CallGetRange "o" (rng_start m) (rng_end m - rng_start m)) ranges
    /\ sorted_gaps ranges = true
    /\ Forall (fun m => 3 <= rng_start m /\ rng_start m < rng_end m
                        /\ rng_end m <= 9
                        /\ rng_start m mod subrangeSize (mkRangeCfg 3 2 100 100) = 0
                        /\ rng_end m mod subrangeSize (mkRangeCfg 3 2 100 100) = 0) ranges
    /\ (0 < maxSubRequests (mkRangeCfg 3 2 100 100) ->
        Z.of_nat (length ranges) <= maxSubRequests (mkRangeCfg 3 2 100 100))
    /\ (forall j, 0 <= j -> 3 + j * subrangeSize (mkRangeCfg 3 2 100 100) < 9 ->
          at_key demo_hits (key_at demo_keys (3 + j * subrangeSize (mkRangeCfg 3 2 100 100)))
          = None ->
          covered ranges (3 + j * subrangeSize (mkRangeCfg 3 2 100 100))).
Proof.
  apply (fetchMissingSubranges_requests demo_cb "o" 3 9 demo_keys demo_hits demo_fetch_hits
           6 3 (mkRangeCfg 3 2 100 100) empty_world (snd demo_fetch)).
  - reflexivity.
  - unfold max_int64. lia.
  - unfold max_int64. lia.
  - reflexivity.
  - reflexivity.
  - vm_compute. reflexivity.
Defined.

(** ** The cache after a range read *)

Lemma cache_follows_refl (P : string -> Prop) (hits c : gmap string (option (list byte))) :
  cache_follows P hits c hits c.
Proof. unfold cache_follows. repeat split; auto. Qed.

Lemma cache_follows_trans (P : string -> Prop)
    (h0 c0 h1 c1 h2 c2 : gmap string (option (list byte))) :
  cache_follows P h0 c0 h1 c1 -> cache_follows P h1 c1 h2 c2 ->
  cache_follows P h0 c0 h2 c2.
Proof.
  intros (M1 & N1 & J1 & S1) (M2 & N2 & J2 & S2). repeat split.
  - intros k v H. apply M2, M1, H.
  - intros k H. destruct (N2 k H) as [H1 | HP]; [|right; exact HP]. apply N1, H1.
  - intros k. destruct (J2 k) as [E2 | [E2 I2]]; [|right; split; assumption].
    destruct (J1 k) as [E1 | [E1 [v I1]]].
    + left. congruence.
    + right. rewrite E2, E1, I1, (M2 k v I1). split; [reflexivity | eexists; reflexivity].
  - intros Hsub. apply S2, S1, Hsub.
Qed.

Lemma cache_follows_store (P : string -> Prop) (hits c : gmap string (option (list byte)))
    (key : string) (v : option (list byte)) :
  hits !! key = None -> P key ->
  cache_follows P hits c (<[key := v]> hits) (<[key := v]> c).
Proof.
  intros Hnone HP. repeat split.
  - intros k v' H. rewrite lookup_insert_ne by congruence. exact H.
  - intros k H. destruct (decide (key = k)) as [<- | Hne]; [right; exact HP|].
    rewrite lookup_insert_ne in H by exact Hne. left. exact H.
  - intros k. destruct (decide (key = k)) as [<- | Hne].
    + right. rewrite !lookup_insert_eq. split; [reflexivity | eexists; reflexivity].
    + left. apply lookup_insert_ne, Hne.
  - intros Hsub k v' H. destruct (decide (key = k)) as [<- | Hne].
    + rewrite lookup_insert_eq in *. exact H.
    + rewrite lookup_insert_ne in * by exact Hne. apply Hsub, H.
Qed.

Lemma key_at_lookup (m : gmap Z string) (off : Z) :
  String.eqb (key_at m off) "" = false -> m !! off = Some (key_at m off).
Proof.
  unfold key_at. destruct (m !! off); [reflexivity|]. cbn. discriminate.
Qed.

Lemma storeLoop_follows (fuel : nat) (cfg : getRangeConfig) (cacheKeys : gmap Z string)
    (lo ll : Z) (m : rng) (buf : list byte) :
  forall off hits w hits' w',
    storeLoop fuel cfg cacheKeys lo ll m buf off hits w = (Ok hits', w') ->
    cache_follows (fun k => exists x, cacheKeys !! x = Some k)
                  hits (cache w) hits' (cache w').
Proof.
  induction fuel as [|fuel IH]; intros off hits w hits' w' E; cbn [storeLoop] in E;
    (destruct (off <? rng_end m);
     [|injection E as <- <-; apply cache_follows_refl]); [discriminate E|].
  cbv zeta in E.
  destruct (String.eqb (key_at cacheKeys off) "") eqn:Ek; [discriminate E|].
  match type of E with context [match slice_bytes ?a ?b ?c with _ => _ end] =>
    destruct (slice_bytes a b c) as [data|] end; [|discriminate E].
  destruct (hits !! key_at cacheKeys off) eqn:Eh.
  - apply (IH _ _ _ _ _ E).
  - unfold mbind, M_bind, cacheStore in E.
    eapply cache_follows_trans; [|apply (IH _ _ _ _ _ E)].
    cbn [cache]. apply cache_follows_store; [exact Eh|].
    exists off. apply key_at_lookup, Ek.
Qed.

Lemma fetchRange_follows (cb : CachingBucket) (name : string) (cfg : getRangeConfig)
    (cacheKeys : gmap Z string) (lo ll : Z) (m : rng)
    (hits hits' : gmap string (option (list byte))) (w w' : World) :
  fetchRange cb name cfg cacheKeys lo ll m hits w = (Ok hits', w') ->
  cache_follows (fun k => exists x, cacheKeys !! x = Some k)
                hits (cache w) hits' (cache w').
Proof.
  unfold fetchRange, mbind, M_bind, logCall. cbv zeta. intros E.
  destruct (bkt_GetRange (cb_Bucket cb) name (rng_start m)
              (sub64 (rng_end m) (rng_start m))) as [err | data]; [discriminate E|].
  destruct (_ <? 0); [discriminate E|].
  destruct (_ <? _); [discriminate E|].
  apply storeLoop_follows in E. exact E.
Qed.

Lemma fetchRanges_follows (cb : CachingBucket) (name : string) (cfg : getRangeConfig)
    (cacheKeys : gmap Z string) (lo ll : Z) (missing : list rng) :
  forall hits w hits' w',
    fetchRanges cb name cfg cacheKeys lo ll missing hits w = (Ok hits', w') ->
    cache_follows (fun k => exists x, cacheKeys !! x = Some k)
                  hits (cache w) hits' (cache w').
Proof.
  induction missing as [|m rest IH]; intros hits w hits' w' E; cbn [fetchRanges] in E.
  - injection E as <- <-. apply cache_follows_refl.
  - unfold mbind, M_bind in E.
    destruct (fetchRange cb name cfg cacheKeys lo ll m hits w) as [[h1 | | |] w1] eqn:E1;
      try discriminate E.
    eapply cache_follows_trans; [apply (fetchRange_follows _ _ _ _ _ _ _ _ _ _ _ E1)|].
    apply (IH _ _ _ _ E).
Qed.

Lemma fetchMissingSubranges_follows (cb : CachingBucket) (name : string)
    (startRange endRange : Z) (cacheKeys : gmap Z string)
    (hits hits' : gmap string (option (list byte))) (lo ll : Z)
    (cfg : getRangeConfig) (w w' : World) :
  fetchMissingSubranges cb name startRange endRange cacheKeys hits lo ll cfg w
  = (Ok hits', w') ->
  cache_follows (fun k => exists x, cacheKeys !! x = Some k)
                hits (cache w) hits' (cache w').
Proof.
  unfold fetchMissingSubranges. intros E.
  repeat match type of E with
         | context [match ?x with Some _ => _ | None => _ end] =>
             destruct x; [|discriminate E]
         end.
  apply (fetchRanges_follows _ _ _ _ _ _ _ _ _ _ _ E).
Qed.

Lemma insertKeys_lookup_inv (name : string) (size sz : Z) (offs : list Z) :
  forall (m : gmap Z string) (x : Z) (k : string),
    insertKeys name size sz offs m !! x = Some k ->
    m !! x = Some k \/ k = subrangeKey name size sz x.
Proof.
  unfold insertKeys. induction offs as [|o offs IH]; intros m x k H; cbn [fold_left] in H.
  - left. exact H.
  - destruct (IH _ _ _ H) as [H1 | H1]; [|right; exact H1].
    destruct (decide (o = x)) as [-> | Hne].
    + rewrite lookup_insert_eq in H1. injection H1 as <-. right. reflexivity.
    + rewrite lookup_insert_ne in H1 by exact Hne. left. exact H1.
Qed.

Lemma fetch_map_sub (c : gmap string (option (list byte))) (keys : list string)
    (k : string) (v : option (list byte)) :
  fetch_map c keys !! k = Some v -> c !! k = Some v /\ k ∈ keys.
Proof.
  rewrite fetch_map_lookup. destruct (decide (k ∈ keys)); [|discriminate].
  intros H. split; assumption.
Qed.

Lemma on_grid_from (sz base x : Z) :
  0 < sz -> base mod sz = 0 -> x mod sz = 0 -> base <= x ->
  exists j, 0 <= j /\ x = base + j * sz.
Proof.
  intros Hsz Hb Hx Hle.
  destruct (aligned_multiple sz base Hsz Hb) as (kb & Hkb).
  destruct (aligned_multiple sz x Hsz Hx) as (kx & Hkx).
  exists (kx - kb). split; [nia | lia].
Qed.

(** What [cachedGetRange] leaves in the cache, on an object with fixed
    contents and a cache that agrees with it. *)
Lemma cachedGetRange_cache (cb : CachingBucket) (name : string) (obj : list byte)
    (offset length : Z) (cfg : getRangeConfig) (attrs : ObjectAttributes) (w w1 : World) :
  0 < subrangeSize cfg <= max_int64 ->
  0 <= offset -> 0 < length -> offset + length <= max_int64 ->
  alignUp (subrangeSize cfg) (Z.of_nat (List.length obj)) <= 2 ^ 62 ->
  alignDown (subrangeSize cfg) offset <= alignUp (subrangeSize cfg) (Z.of_nat (List.length obj)) ->
  (forall off len, 0 <= off -> 0 <= len ->
     bkt_GetRange (cb_Bucket cb) name off len = inr (window obj off len)) ->
  cachedAttributes cb name (attributesTTL cfg) w = (Ok attrs, w1) ->
  Size attrs = Z.of_nat (List.length obj) ->
  consistent name obj (subrangeSize cfg) (cache w1) ->
  exists r w',
    cachedGetRange cb name offset length cfg w = (Ok r, w')
    /\ consistent name obj (subrangeSize cfg) (cache w')
    /\ cache w' !! keyString AttributesVerb name = cache w1 !! keyString AttributesVerb name
    /\ forall x,
         alignDown (subrangeSize cfg) offset <= x ->
         x < alignUp (subrangeSize cfg) (Z.min (offset + length) (Z.of_nat (List.length obj))) ->
         x mod subrangeSize cfg = 0 ->
         cache w' !! subrangeKey name (Z.of_nat (List.length obj)) (subrangeSize cfg) x
         = Some (Some (window obj x (subrangeSize cfg))).
Proof.
  intros Hsz Hoff Hlen Hsum Hmax Hgrid Hbucket Hattrs Hsize Hcons.
  set (sz := subrangeSize cfg) in *. set (osize := Z.of_nat (List.length obj)) in *.
  assert (Hsize0 : 0 <= osize) by (unfold osize; lia).
  set (E := Z.min (offset + length) osize).
  assert (HE : E <= osize) by (unfold E; lia).
  pose proof (alignUp_bounds sz E ltac:(lia)) as HuE.
  pose proof (alignUp_bounds sz osize ltac:(lia)) as Hu.
  pose proof (alignDown_bounds sz offset ltac:(lia)) as Hd.
  assert (Hmono : alignUp sz E <= alignUp sz osize) by (apply alignUp_mono; lia).
  assert (Hstart : alignDown sz offset <= alignUp sz E).
  { unfold E. destruct (Z.le_gt_cases (offset + length) osize).
    - rewrite Z.min_l by lia. pose proof (alignUp_bounds sz (offset + length) ltac:(lia)). lia.
    - rewrite Z.min_r by lia. exact Hgrid. }
  assert (Hd0 : 0 <= alignDown sz offset).
  { unfold alignDown. apply Z.mul_nonneg_nonneg; [apply Z.div_pos|]; lia. }
  rewrite (cachedGetRange_run cb name offset length cfg attrs w w1)
    by (first [assumption | rewrite Hsize; fold osize; fold sz; fold E;
                            first [assumption | unfold max_int64 in *; lia]]).
  cbv zeta. rewrite Hsize. fold osize sz E.
  set (startRange := alignDown sz offset) in *.
  set (endRange := alignUp sz E) in *.
  set (offs := gridOffsets (loopBound startRange endRange sz) startRange endRange sz).
  set (keys := map (subrangeKey name osize sz) offs).
  set (offsetKeys := insertKeys name osize sz offs ∅).
  assert (Hsa : startRange mod sz = 0) by (apply alignDown_mod; lia).
  assert (Hea : endRange mod sz = 0) by (apply alignUp_mod; lia).
  assert (Hin : forall j, 0 <= j -> startRange + j * sz < endRange ->
                  In (startRange + j * sz) offs).
  { intros j Hj Hlt. apply gridOffsets_complete; [lia | | lia | lia].
    apply loopBound_enough. lia. }
  assert (Hkeys : forall j, 0 <= j -> startRange + j * sz < endRange ->
                    key_at offsetKeys (startRange + j * sz)
                    = subrangeKey name osize sz (startRange + j * sz)).
  { intros j Hj Hlt. apply key_at_insertKeys. apply Hin; lia. }
  assert (Hinside : forall x, startRange <= x -> x < endRange -> x mod sz = 0 ->
                      0 <= x < osize /\ exists j, 0 <= j /\ x = startRange + j * sz).
  { intros x Hx1 Hx2 Hxm. split.
    - pose proof (grid_next sz x endRange ltac:(lia) Hxm Hea Hx2). lia.
    - apply on_grid_from; [lia | assumption | assumption | assumption]. }
  pose proof (consistent_fetch name obj sz (cache w1) keys Hcons) as Hcons0.
  destruct (Z.ltb_spec (Z.of_nat (size (fetch_map (cache w1) keys)))
              (Z.of_nat (List.length keys))) as [Hmiss | Hfull].
  - destruct (lastSubrange_cases sz osize endRange ltac:(lia) Hsize0 Hea Hmono)
      as (Hlo & Hll & Hllr).
    destruct (fetchMissingSubranges_fills cb name obj cfg offsetKeys startRange endRange
                (if endRange >? osize then alignDown sz osize else endRange - sz)
                (if endRange >? osize then osize - alignDown sz osize else sz)
                (fetch_map (cache w1) keys) w1)
      as (hits' & w' & Hrun & Hcons' & Hfilled);
      try (fold sz; fold osize); try assumption; try lia.
    fold sz in Hrun. fold osize in Hrun.
    destruct (fetchMissingSubranges_follows _ _ _ _ _ _ _ _ _ _ _ _ Hrun)
      as (Mo & Ne & Jo & Su).
    assert (Hsub : forall k v, hits' !! k = Some v -> cache w' !! k = Some v).
    { apply Su. intros k v H. apply (fetch_map_sub _ _ _ _ H). }
    eexists _, w'. split.
    { unfold mbind at 1, M_bind at 1. rewrite Hrun. reflexivity. }
    split; [|split].
    + intros x v Hx Hxm Hv. destruct (Jo (subrangeKey name osize sz x)) as [Eq | [Eq _]].
      * apply (Hcons x v Hx Hxm). exact (eq_trans (eq_sym Eq) Hv).
      * apply (Hcons' x v Hx Hxm). exact (eq_trans (eq_sym Eq) Hv).
    + destruct (Jo (keyString AttributesVerb name)) as [Eq | [_ Hs]]; [exact Eq|].
      exfalso. destruct (Ne _ Hs) as [[v Hv] | [x Hx]].
      * apply fetch_map_sub in Hv. destruct Hv as [_ Hv].
        apply list_elem_of_In, in_map_iff in Hv. destruct Hv as (y & Hy & _).
        exact (subrangeKey_not_attrs _ _ _ _ Hy).
      * apply insertKeys_lookup_inv in Hx. destruct Hx as [Hx | Hx].
        -- rewrite lookup_empty in Hx. discriminate Hx.
        -- symmetry in Hx. exact (subrangeKey_not_attrs _ _ _ _ Hx).
    + intros x Hx1 Hx2 Hxm. destruct (Hinside x Hx1 Hx2 Hxm) as (_ & j & Hj & ->).
      apply Hsub. apply at_key_Some. fold sz osize in Hfilled. apply Hfilled; assumption.
  - eexists _, w1. split; [reflexivity|]. split; [exact Hcons|]. split; [reflexivity|].
    intros x Hx1 Hx2 Hxm. destruct (Hinside x Hx1 Hx2 Hxm) as (Hxr & j & Hj & Hxj).
    assert (Hk : In (subrangeKey name osize sz x) keys).
    { unfold keys. apply in_map. rewrite Hxj. apply Hin; lia. }
    destruct (fetch_map_full (cache w1) keys ltac:(lia) _ Hk) as [v Hv].
    rewrite Hv. f_equal. apply (Hcons x v Hxr Hxm Hv).
Qed.

Lemma fetch_map_size_full (c : gmap string (option (list byte))) (keys : list string) :
  List.NoDup keys -> (forall k, In k keys -> is_Some (c !! k)) ->
  size (fetch_map c keys) = List.length keys.
Proof.
  induction keys as [|k keys IH]; intros Hnd Hall; [reflexivity|].
  apply List.NoDup_cons_iff in Hnd. destruct Hnd as [Hk Hnd].
  rewrite fetch_map_cons. destruct (Hall k (or_introl eq_refl)) as [v ->].
  rewrite map_size_insert_None.
  - cbn [List.length]. f_equal. apply IH; [exact Hnd|].
    intros k' Hk'. apply Hall. right. exact Hk'.
  - rewrite fetch_map_lookup. destruct (decide (k ∈ keys)) as [Hin | _]; [|reflexivity].
    exfalso. apply Hk. apply list_elem_of_In. exact Hin.
Qed.

Lemma subrange_keys_NoDup (name : string) (size sz e : Z) (n : nat) :
  0 < sz -> 0 < size <= max_int64 ->
  forall off, 0 <= off ->
    (forall x, In x (gridOffsets n off e sz) -> x + sz <= max_int64) ->
    List.NoDup (map (subrangeKey name size sz) (gridOffsets n off e sz)).
Proof.
  intros Hsz Hsize. induction n as [|n IH]; intros off Hoff Hfit; cbn [gridOffsets] in *.
  - constructor.
  - destruct (Z.ltb_spec off e) as [Hlt | _]; [|constructor].
    cbn [map]. constructor.
    + intros Hin. apply in_map_iff in Hin. destruct Hin as (y & Hy & Hyin).
      destruct (gridOffsets_in n sz e Hsz _ _ Hyin) as (Hyr & _).
      pose proof (Hfit off (or_introl eq_refl)).
      pose proof (Hfit y (or_intror Hyin)).
      apply subrangeKey_inj in Hy; lia.
    + apply IH; [lia|]. intros x Hx. apply Hfit. right. exact Hx.
Qed.

Lemma cachedAttributes_cache (cb : CachingBucket) (name : string) (ttl : Z)
    (res : result ObjectAttributes) (w w1 : World) :
  cachedAttributes cb name ttl w = (res, w1) ->
  forall k, k <> keyString AttributesVerb name -> cache w1 !! k = cache w !! k.
Proof.
  unfold cachedAttributes, cacheFetch, cacheStore, logCall, fail, mbind, M_bind, mret, M_ret.
  intros E k Hk.
  repeat match type of E with
         | context [match ?x with _ => _ end] => destruct x
         end; inversion E; subst; cbn [cache]; try reflexivity;
    apply lookup_insert_ne; congruence.
Qed.

Lemma cachedAttributes_entry (cb : CachingBucket) (name : string) (ttl : Z)
    (attrs0 attrs : ObjectAttributes) (w w1 : World) :
  bkt_Attributes (cb_Bucket cb) name = inr attrs0 ->
  cachedAttributes cb name ttl w = (Ok attrs, w1) ->
  cache w1 !! keyString AttributesVerb name = cache w !! keyString AttributesVerb name
  \/ exists raw, json_Marshal (cb_json cb) attrs0 = Some raw
                 /\ cache w1 !! keyString AttributesVerb name = Some (Some raw).
Proof.
  intros Hb. unfold cachedAttributes, cacheFetch, cacheStore, logCall, fail, mbind, M_bind,
    mret, M_ret. rewrite Hb. intros E.
  repeat match type of E with
         | context [match ?x with _ => _ end] => destruct x eqn:?
         end; inversion E; subst; cbn [cache]; auto.
  right. eexists. split; [reflexivity|]. apply lookup_insert_eq.
Qed.

(** [cachedGetRange] when every subrange of the window is in the cache
    with the bytes of the object. *)
Lemma cachedGetRange_warm (cb : CachingBucket) (name : string) (obj : list byte)
    (offset length : Z) (cfg : getRangeConfig) (attrs : ObjectAttributes) (w w1 : World) :
  0 < subrangeSize cfg <= max_int64 ->
  0 <= offset -> 0 < length -> offset + length <= max_int64 ->
  alignUp (subrangeSize cfg) (Z.of_nat (List.length obj)) <= max_int64 ->
  alignDown (subrangeSize cfg) offset <= alignUp (subrangeSize cfg) (Z.of_nat (List.length obj)) ->
  cachedAttributes cb name (attributesTTL cfg) w = (Ok attrs, w1) ->
  Size attrs = Z.of_nat (List.length obj) ->
  (forall x,
     alignDown (subrangeSize cfg) offset <= x ->
     x < alignUp (subrangeSize cfg) (Z.min (offset + length) (Z.of_nat (List.length obj))) ->
     x mod subrangeSize cfg = 0 ->
     cache w1 !! subrangeKey name (Z.of_nat (List.length obj)) (subrangeSize cfg) x
     = Some (Some (window obj x (subrangeSize cfg)))) ->
  exists r,
    cachedGetRange cb name offset length cfg w = (Ok r, w1)
    /\ (forall bs, drains r bs -> bs = window obj offset length)
    /\ (forall plen fuel, 0 < plen -> (Z.to_nat length <= fuel)%nat ->
          readAll fuel r plen = Ok (window obj offset length)).
Proof.
  intros Hsz Hoff Hlen Hsum Hmax Hgrid Hattrs Hsize Hcached.
  set (sz := subrangeSize cfg) in *. set (osize := Z.of_nat (List.length obj)) in *.
  assert (Hsize0 : 0 <= osize) by (unfold osize; lia).
  set (E := Z.min (offset + length) osize) in *.
  assert (HE : E <= osize) by (unfold E; lia).
  pose proof (alignUp_bounds sz E ltac:(lia)) as HuE.
  pose proof (alignUp_bounds sz osize ltac:(lia)) as Hu.
  pose proof (alignDown_bounds sz offset ltac:(lia)) as Hd.
  assert (Hmono : alignUp sz E <= alignUp sz osize) by (apply alignUp_mono; lia).
  assert (Hstart : alignDown sz offset <= alignUp sz E).
  { unfold E. destruct (Z.le_gt_cases (offset + length) osize).
    - rewrite Z.min_l by lia. pose proof (alignUp_bounds sz (offset + length) ltac:(lia)). lia.
    - rewrite Z.min_r by lia. exact Hgrid. }
  assert (Hd0 : 0 <= alignDown sz offset).
  { unfold alignDown. apply Z.mul_nonneg_nonneg; [apply Z.div_pos|]; lia. }
  rewrite (cachedGetRange_run cb name offset length cfg attrs w w1)
    by (first [assumption | rewrite Hsize; fold osize; fold sz; fold E;
                            first [assumption | unfold max_int64 in *; lia]]).
  cbv zeta. rewrite Hsize. fold osize sz E.
  set (startRange := alignDown sz offset) in *.
  set (endRange := alignUp sz E) in *.
  set (offs := gridOffsets (loopBound startRange endRange sz) startRange endRange sz).
  set (keys := map (subrangeKey name osize sz) offs).
  set (offsetKeys := insertKeys name osize sz offs ∅).
  assert (Hsa : startRange mod sz = 0) by (apply alignDown_mod; lia).
  assert (Hea : endRange mod sz = 0) by (apply alignUp_mod; lia).
  assert (Hin : forall j, 0 <= j -> startRange + j * sz < endRange ->
                  In (startRange + j * sz) offs).
  { intros j Hj Hlt. apply gridOffsets_complete; [lia | | lia | lia].
    apply loopBound_enough. lia. }
  assert (Hkeys : forall j, 0 <= j -> startRange + j * sz < endRange ->
                    key_at offsetKeys (startRange + j * sz)
                    = subrangeKey name osize sz (startRange + j * sz)).
  { intros j Hj Hlt. apply key_at_insertKeys. apply Hin; lia. }
  assert (Hall : forall k, In k keys ->
                   exists x, In x offs /\ k = subrangeKey name osize sz x
                             /\ cache w1 !! k = Some (Some (window obj x sz))).
  { intros k Hk. apply in_map_iff in Hk. destruct Hk as (x & <- & Hx).
    exists x. split; [exact Hx|]. split; [reflexivity|].
    destruct (gridOffsets_in _ sz endRange ltac:(lia) _ _ Hx) as (Hxr & j & Hj & Hxj).
    apply Hcached; [lia | lia |]. rewrite Hxj. apply mod_grid; [lia | exact Hsa]. }
  assert (Hsize_eq : size (fetch_map (cache w1) keys) = List.length keys).
  { apply fetch_map_size_full.
    - destruct (Z.le_gt_cases endRange startRange) as [Hempty | Hlt].
      + unfold keys, offs. rewrite gridOffsets_empty by exact Hempty. constructor.
      + pose proof (grid_next sz startRange endRange ltac:(lia) Hsa Hea Hlt).
        unfold keys, offs. apply subrange_keys_NoDup; try (unfold max_int64 in *; lia).
        intros x Hx.
        destruct (gridOffsets_in _ sz endRange ltac:(lia) _ _ Hx) as (Hxr & j & Hj & Hxj).
        assert (Hxm : x mod sz = 0) by (rewrite Hxj; apply mod_grid; [lia | exact Hsa]).
        pose proof (grid_next sz x endRange ltac:(lia) Hxm Hea ltac:(lia)). lia.
    - intros k Hk. destruct (Hall k Hk) as (x & _ & _ & Hv). rewrite Hv. eexists; reflexivity. }
  destruct (Z.ltb_spec (Z.of_nat (size (fetch_map (cache w1) keys)))
              (Z.of_nat (List.length keys))) as [? | _]; [lia|].
  assert (Hfilled : forall j, 0 <= j -> startRange + j * sz < endRange ->
            at_key (fetch_map (cache w1) keys) (key_at offsetKeys (startRange + j * sz))
            = Some (window obj (startRange + j * sz) sz)).
  { intros j Hj Hlt. rewrite Hkeys by assumption.
    assert (Hk : In (subrangeKey name osize sz (startRange + j * sz)) keys)
      by (unfold keys; apply in_map, Hin; assumption).
    rewrite fetch_map_at_key by (apply list_elem_of_In; exact Hk).
    apply at_key_Some. apply Hcached; [nia | lia | apply mod_grid; [lia | exact Hsa]]. }
  assert (Hwin : window obj offset (E - offset) = window obj offset length).
  { unfold E. destruct (Z.le_gt_cases (offset + length) osize).
    - rewrite Z.min_l by lia. f_equal. lia.
    - rewrite Z.min_r by lia. symmetry. apply window_clamp; fold osize; lia. }
  eexists. split; [reflexivity|]. split.
  - intros bs Hdr. rewrite <- Hwin.
    apply (drains_window obj sz offsetKeys (fetch_map (cache w1) keys) startRange endRange
             _ bs ltac:(lia) Hmax ltac:(lia) Hsa Hea Hfilled Hdr);
      cbn [newSubrangesReader sr_subrangeSize offsetsKeys subranges readOffset remaining];
      first [reflexivity | fold osize; lia].
  - intros plen fuel Hplen Hfuel. rewrite <- Hwin. unfold newSubrangesReader.
    apply (readAll_window obj sz offsetKeys (fetch_map (cache w1) keys) startRange endRange
             plen fuel); first [assumption | fold osize; lia].
Qed.

(** X17: after a range read on an object with fixed contents, from a cache
    that agrees with the object (under the conditions of the range read
    above), the cache still agrees with the object, and it holds every
    subrange of the aligned window of the read, with the bytes of the
    object. *)
Theorem GetRange_fills_cache (cb : CachingBucket) (name : string) (obj : list byte)
    (offset length : Z) (cfg : getRangeConfig) (attrs0 : ObjectAttributes) (w : World) :
  findGetRangeConfig (cb_cfg cb) name = Some cfg ->
  0 < subrangeSize cfg <= max_int64 ->
  0 <= offset -> 0 < length -> offset + length <= max_int64 ->
  alignUp (subrangeSize cfg) (Z.of_nat (List.length obj)) <= 2 ^ 62 ->
  alignDown (subrangeSize cfg) offset
  <= alignUp (subrangeSize cfg) (Z.of_nat (List.length obj)) ->
  bkt_Attributes (cb_Bucket cb) name = inr attrs0 ->
  Size attrs0 = Z.of_nat (List.length obj) ->
  (forall off len, 0 <= off -> 0 <= len ->
     bkt_GetRange (cb_Bucket cb) name off len = inr (window obj off len)) ->
  (forall raw a, cache w !! keyString AttributesVerb name = Some raw ->
     json_Unmarshal (cb_json cb) raw = Some a -> Size a = Z.of_nat (List.length obj)) ->
  consistent name obj (subrangeSize cfg) (cache w) ->
  exists r w',
    GetRange cb name offset length w = (Ok (SubrangesReader r), w')
    /\ consistent name obj (subrangeSize cfg) (cache w')
    /\ forall x,
         alignDown (subrangeSize cfg) offset <= x ->
         x < alignUp (subrangeSize cfg) (Z.min (offset + length) (Z.of_nat (List.length obj))) ->
         x mod subrangeSize cfg = 0 ->
         cache w' !! subrangeKey name (Z.of_nat (List.length obj)) (subrangeSize cfg) x
         = Some (Some (window obj x (subrangeSize cfg))).
Proof.
  intros Hcfg Hsz Hoff Hlen Hsum Hmax Hgrid Hbattrs Hbsize Hbucket Hcattrs Hcons.
  destruct (cachedAttributes_size cb name obj (subrangeSize cfg) (attributesTTL cfg)
              _ attrs0 w Hbattrs Hbsize Hcattrs Hcons) as (attrs & w1 & Hattrs & Hsize & Hcons1).
  destruct (cachedGetRange_cache cb name obj offset length cfg attrs w w1
              Hsz Hoff Hlen Hsum Hmax Hgrid Hbucket Hattrs Hsize Hcons1)
    as (r & w' & Hrun & Hcons' & _ & Hfilled).
  exists r, w'. split; [|split; assumption].
  rewrite (GetRange_cached cb name offset length cfg w Hcfg Hoff Hlen).
  unfold mbind, M_bind. rewrite Hrun. reflexivity.
Qed.

Lemma GetRange_fills_cache_witness :
  exists r w',
    GetRange demo_cb "o" 4 5 empty_world = (Ok (SubrangesReader r), w')
    /\ consistent "o" demo_object 3 (cache w')
    /\ forall x,
         alignDown 3 4 <= x ->
         x < alignUp 3 (Z.min (4 + 5) (Z.of_nat (List.length demo_object))) ->
         x mod 3 = 0 ->
         cache w' !! subrangeKey "o" (Z.of_nat (List.length demo_object)) 3 x
         = Some (Some (window demo_object x 3)).
Proof.
  apply (GetRange_fills_cache demo_cb "o" demo_object 4 5 (mkRangeCfg 3 2 100 100)
           (mkAttrs 11 0) empty_world).
  - reflexivity.
  - cbn; unfold max_int64; lia.
  - lia.
  - lia.
  - unfold max_int64; lia.
  - vm_compute; discriminate.
  - vm_compute; discriminate.
  - reflexivity.
  - reflexivity.
  - intros off len _ _. apply demo_bucket_GetRange.
  - intros raw a _ H. discriminate H.
  - intros x v _ _ H. cbn [cache empty_world] in H. rewrite lookup_empty in H.
    discriminate H.
Defined.

(** X18: a range read whose subranges are all in the cache.  On a cache that
    agrees with the object and holds every subrange of the aligned window
    of the read, [GetRange] asks the bucket for no range: the only call
    that can reach the bucket is one [Attributes], when the attributes are
    not in the cache; and the reader it returns gives exactly the bytes of
    the window. *)
Theorem GetRange_served_from_cache (cb : CachingBucket) (name : string) (obj : list byte)
    (offset length : Z) (cfg : getRangeConfig) (attrs0 : ObjectAttributes) (w : World) :
  findGetRangeConfig (cb_cfg cb) name = Some cfg ->
  0 < subrangeSize cfg <= max_int64 ->
  0 <= offset -> 0 < length -> offset + length <= max_int64 ->
  alignUp (subrangeSize cfg) (Z.of_nat (List.length obj)) <= max_int64 ->
  alignDown (subrangeSize cfg) offset
  <= alignUp (subrangeSize cfg) (Z.of_nat (List.length obj)) ->
  bkt_Attributes (cb_Bucket cb) name = inr attrs0 ->
  Size attrs0 = Z.of_nat (List.length obj) ->
  (forall raw a, cache w !! keyString AttributesVerb name = Some raw ->
     json_Unmarshal (cb_json cb) raw = Some a -> Size a = Z.of_nat (List.length obj)) ->
  consistent name obj (subrangeSize cfg) (cache w) ->
  (forall x,
     alignDown (subrangeSize cfg) offset <= x ->
     x < alignUp (subrangeSize cfg) (Z.min (offset + length) (Z.of_nat (List.length obj))) ->
     x mod subrangeSize cfg = 0 ->
     is_Some (cache w !! subrangeKey name (Z.of_nat (List.length obj)) (subrangeSize cfg) x)) ->
  exists r w',
    GetRange cb name offset length w = (Ok (SubrangesReader r), w')
    /\ (calls w' = calls w \/ calls w' = calls w ++ [CallAttributes name])
    /\ (forall bs, drains r bs -> bs = window obj offset length)
    /\ (forall plen fuel, 0 < plen -> (Z.to_nat length <= fuel)%nat ->
          readAll fuel r plen = Ok (window obj offset length)).
Proof.
  intros Hcfg Hsz Hoff Hlen Hsum Hmax Hgrid Hbattrs Hbsize Hcattrs Hcons Hpresent.
  destruct (cachedAttributes_size cb name obj (subrangeSize cfg) (attributesTTL cfg)
              _ attrs0 w Hbattrs Hbsize Hcattrs Hcons) as (attrs & w1 & Hattrs & Hsize & Hcons1).
  pose proof (alignUp_bounds (subrangeSize cfg) (Z.of_nat (List.length obj)) ltac:(lia)) as Hu.
  pose proof (alignUp_mono (subrangeSize cfg)
                (Z.min (offset + length) (Z.of_nat (List.length obj)))
                (Z.of_nat (List.length obj)) ltac:(lia) ltac:(lia)) as Hmono.
  pose proof (alignUp_mod (subrangeSize cfg)
                (Z.min (offset + length) (Z.of_nat (List.length obj))) ltac:(lia)) as Hea.
  assert (Hd0 : 0 <= alignDown (subrangeSize cfg) offset).
  { unfold alignDown. apply Z.mul_nonneg_nonneg; [apply Z.div_pos|]; lia. }
  destruct (cachedGetRange_warm cb name obj offset length cfg attrs w w1
              Hsz Hoff Hlen Hsum Hmax Hgrid Hattrs Hsize) as (r & Hrun & Hdr & Hall).
  { intros x Hx1 Hx2 Hxm.
    assert (Hxr : 0 <= x < Z.of_nat (List.length obj)).
    { pose proof (grid_next (subrangeSize cfg) x _ ltac:(lia) Hxm Hea Hx2). lia. }
    destruct (Hpresent x Hx1 Hx2 Hxm) as [v Hv].
    rewrite (cachedAttributes_cache _ _ _ _ _ _ Hattrs)
      by apply subrangeKey_not_attrs.
    rewrite Hv. f_equal. apply (Hcons x v Hxr Hxm Hv). }
  exists r, w1. split; [|split; [|split; assumption]].
  - rewrite (GetRange_cached cb name offset length cfg w Hcfg Hoff Hlen).
    unfold mbind, M_bind. rewrite Hrun. reflexivity.
  - exact (cachedAttributes_calls _ _ _ _ _ _ Hattrs).
Qed.

Lemma GetRange_served_from_cache_witness :
  exists r w',
    GetRange demo_cb "o" 4 5 full_world = (Ok (SubrangesReader r), w')
    /\ (calls w' = calls full_world \/ calls w' = calls full_world ++ [CallAttributes "o"])
    /\ (forall bs, drains r bs -> bs = window demo_object 4 5)
    /\ (forall plen fuel, 0 < plen -> (Z.to_nat 5 <= fuel)%nat ->
          readAll fuel r plen = Ok (window demo_object 4 5)).
Proof.
  apply (GetRange_served_from_cache demo_cb "o" demo_object 4 5 (mkRangeCfg 3 2 100 100)
           (mkAttrs 11 0) full_world).
  - reflexivity.
  - cbn; unfold max_int64; lia.
  - lia.
  - lia.
  - unfold max_int64; lia.
  - vm_compute; discriminate.
  - vm_compute; discriminate.
  - reflexivity.
  - reflexivity.
  - intros raw a _ H. discriminate H.
  - intros x v Hx Hm H. cbn in Hx.
    assert (Hc : x = 0 \/ x = 1 \/ x = 2 \/ x = 3 \/ x = 4 \/ x = 5 \/ x = 6 \/ x = 7
                 \/ x = 8 \/ x = 9 \/ x = 10) by lia.
    repeat (destruct Hc as [-> | Hc]); try subst x;
      vm_compute in Hm; try discriminate Hm;
      vm_compute in H; try discriminate H;
      inversion H; vm_compute; reflexivity.
  - intros x Hx1 Hx2 Hm.
    change (alignDown (subrangeSize (mkRangeCfg 3 2 100 100)) 4) with 3 in Hx1.
    change (alignUp (subrangeSize (mkRangeCfg 3 2 100 100))
              (Z.min (4 + 5) (Z.of_nat (List.length demo_object)))) with 9 in Hx2.
    assert (Hc : x = 3 \/ x = 4 \/ x = 5 \/ x = 6 \/ x = 7 \/ x = 8) by lia.
    repeat (destruct Hc as [-> | Hc]); try subst x;
      vm_compute in Hm; try discriminate Hm;
      vm_compute; eexists; reflexivity.
Defined.

(** X19: the range read, repeated.  Under the conditions of the range read
    above, and with an encoding of the attributes that, where it decodes,
    decodes to the right size, a second [GetRange] of the same window,
    on the state that the first one left, asks the bucket for no range
    (at most for the attributes) and returns a reader that gives exactly
    the bytes of the window. *)
Theorem GetRange_repeat_from_cache (cb : CachingBucket) (name : string) (obj : list byte)
    (offset length : Z) (cfg : getRangeConfig) (attrs0 : ObjectAttributes) (w : World) :
  findGetRangeConfig (cb_cfg cb) name = Some cfg ->
  0 < subrangeSize cfg <= max_int64 ->
  0 <= offset -> 0 < length -> offset + length <= max_int64 ->
  alignUp (subrangeSize cfg) (Z.of_nat (List.length obj)) <= 2 ^ 62 ->
  alignDown (subrangeSize cfg) offset
  <= alignUp (subrangeSize cfg) (Z.of_nat (List.length obj)) ->
  bkt_Attributes (cb_Bucket cb) name = inr attrs0 ->
  Size attrs0 = Z.of_nat (List.length obj) ->
  (forall off len, 0 <= off -> 0 <= len ->
     bkt_GetRange (cb_Bucket cb) name off len = inr (window obj off len)) ->
  (forall raw a, cache w !! keyString AttributesVerb name = Some raw ->
     json_Unmarshal (cb_json cb) raw = Some a -> Size a = Z.of_nat (List.length obj)) ->
  (forall raw a, json_Marshal (cb_json cb) attrs0 = Some raw ->
     json_Unmarshal (cb_json cb) (Some raw) = Some a -> Size a = Z.of_nat (List.length obj)) ->
  consistent name obj (subrangeSize cfg) (cache w) ->
  exists r1 w1 r2 w2,
    GetRange cb name offset length w = (Ok (SubrangesReader r1), w1)
    /\ GetRange cb name offset length w1 = (Ok (SubrangesReader r2), w2)
    /\ (calls w2 = calls w1 \/ calls w2 = calls w1 ++ [CallAttributes name])
    /\ (forall bs, drains r2 bs -> bs = window obj offset length)
    /\ (forall plen fuel, 0 < plen -> (Z.to_nat length <= fuel)%nat ->
          readAll fuel r2 plen = Ok (window obj offset length)).
Proof.
  intros Hcfg Hsz Hoff Hlen Hsum Hmax Hgrid Hbattrs Hbsize Hbucket Hcattrs Hjson Hcons.
  assert (Hmax64 : alignUp (subrangeSize cfg) (Z.of_nat (List.length obj)) <= max_int64)
    by (unfold max_int64; lia).
  destruct (cachedAttributes_size cb name obj (subrangeSize cfg) (attributesTTL cfg)
              _ attrs0 w Hbattrs Hbsize Hcattrs Hcons) as (attrs & wa & Hattrs & Hsize & Hconsa).
  destruct (cachedGetRange_cache cb name obj offset length cfg attrs w wa
              Hsz Hoff Hlen Hsum Hmax Hgrid Hbucket Hattrs Hsize Hconsa)
    as (r1 & w1 & Hrun1 & Hcons1 & Hentry & Hfilled).
  assert (Hcattrs1 : forall raw a, cache w1 !! keyString AttributesVerb name = Some raw ->
            json_Unmarshal (cb_json cb) raw = Some a -> Size a = Z.of_nat (List.length obj)).
  { intros raw a Hraw Hdec. rewrite Hentry in Hraw.
    destruct (cachedAttributes_entry cb name (attributesTTL cfg) attrs0 attrs w wa
                Hbattrs Hattrs) as [Eq | (raw0 & Hm & Eq)].
    - rewrite Eq in Hraw. exact (Hcattrs raw a Hraw Hdec).
    - rewrite Eq in Hraw. injection Hraw as <-. exact (Hjson raw0 a Hm Hdec). }
  destruct (cachedAttributes_size cb name obj (subrangeSize cfg) (attributesTTL cfg)
              _ attrs0 w1 Hbattrs Hbsize Hcattrs1 Hcons1)
    as (attrs2 & w2 & Hattrs2 & Hsize2 & Hcons2).
  destruct (cachedGetRange_warm cb name obj offset length cfg attrs2 w1 w2
              Hsz Hoff Hlen Hsum Hmax64 Hgrid Hattrs2 Hsize2) as (r2 & Hrun2 & Hdr & Hall).
  { intros x Hx1 Hx2 Hxm.
    rewrite (cachedAttributes_cache _ _ _ _ _ _ Hattrs2) by apply subrangeKey_not_attrs.
    apply Hfilled; assumption. }
  exists r1, w1, r2, w2. split; [|split; [|split; [|split; assumption]]].
  - rewrite (GetRange_cached cb name offset length cfg w Hcfg Hoff Hlen).
    unfold mbind, M_bind. rewrite Hrun1. reflexivity.
  - rewrite (GetRange_cached cb name offset length cfg w1 Hcfg Hoff Hlen).
    unfold mbind, M_bind. rewrite Hrun2. reflexivity.
  - exact (cachedAttributes_calls _ _ _ _ _ _ Hattrs2).
Qed.

Lemma GetRange_repeat_from_cache_witness :
  exists r1 w1 r2 w2,
    GetRange json_cb "o" 4 5 empty_world = (Ok (SubrangesReader r1), w1)
    /\ GetRange json_cb "o" 4 5 w1 = (Ok (SubrangesReader r2), w2)
    /\ (calls w2 = calls w1 \/ calls w2 = calls w1 ++ [CallAttributes "o"])
    /\ (forall bs, drains r2 bs -> bs = window demo_object 4 5)
    /\ (forall plen fuel, 0 < plen -> (Z.to_nat 5 <= fuel)%nat ->
          readAll fuel r2 plen = Ok (window demo_object 4 5)).
Proof.
  apply (GetRange_repeat_from_cache json_cb "o" demo_object 4 5 (mkRangeCfg 3 2 100 100)
           (mkAttrs 11 0) empty_world).
  - reflexivity.
  - cbn; unfold max_int64; lia.
  - lia.
  - lia.
  - unfold max_int64; lia.
  - vm_compute; discriminate.
  - vm_compute; discriminate.
  - reflexivity.
  - reflexivity.
  - intros off len _ _. apply demo_bucket_GetRange.
  - intros raw a H _. cbn [cache empty_world] in H. rewrite lookup_empty in H.
    discriminate H.
  - intros raw a H1 H2. cbn in H1. injection H1 as <-. cbn in H2. injection H2 as <-.
    reflexivity.
  - intros x v _ _ H. cbn [cache empty_world] in H. rewrite lookup_empty in H.
    discriminate H.
Defined.

(** ** What the missing-subrange fetch stores *)

Lemma stores_refl (Q : StoreEvent -> Prop) (w : World) :
  exists new, stored w = stored w ++ new /\ Forall Q new.
Proof. exists []. split; [symmetry; apply app_nil_r | constructor]. Qed.

Lemma stores_trans (Q : StoreEvent -> Prop) (w0 w1 w2 : World) :
  (exists new, stored w1 = stored w0 ++ new /\ Forall Q new) ->
  (exists new, stored w2 = stored w1 ++ new /\ Forall Q new) ->
  exists new, stored w2 = stored w0 ++ new /\ Forall Q new.
Proof.
  intros (n1 & E1 & Q1) (n2 & E2 & Q2). exists (n1 ++ n2). split.
  - rewrite E2, E1, app_assoc. reflexivity.
  - apply Forall_app. split; assumption.
Qed.

Lemma storeLoop_stores (fuel : nat) (cfg : getRangeConfig) (cacheKeys : gmap Z string)
    (lo ll : Z) (m : rng) (buf : list byte) :
  forall off hits w,
    exists new,
      stored (snd (storeLoop fuel cfg cacheKeys lo ll m buf off hits w)) = stored w ++ new
      /\ Forall (fun s => st_ttl s = subrangeTTL cfg
                          /\ (exists data, st_val s = Some data)
                          /\ exists x, cacheKeys !! x = Some (st_key s)) new.
Proof.
  induction fuel as [|fuel IH]; intros off hits w; cbn [storeLoop];
    (destruct (off <? rng_end m); [|apply stores_refl]); [apply stores_refl|].
  cbv zeta.
  destruct (String.eqb (key_at cacheKeys off) "") eqn:Ek; [apply stores_refl|].
  match goal with |- context [match slice_bytes ?a ?b ?c with _ => _ end] =>
    destruct (slice_bytes a b c) as [data|] end; [|apply stores_refl].
  destruct (hits !! key_at cacheKeys off); [apply IH|].
  unfold mbind, M_bind, cacheStore.
  eapply stores_trans; [|apply IH].
  cbn [stored]. eexists. split; [reflexivity|].
  constructor; [|constructor]. cbn [st_ttl st_val st_key].
  split; [reflexivity|]. split; [eexists; reflexivity|].
  exists off. apply key_at_lookup, Ek.
Qed.

Lemma fetchRange_stores (cb : CachingBucket) (name : string) (cfg : getRangeConfig)
    (cacheKeys : gmap Z string) (lo ll : Z) (m : rng)
    (hits : gmap string (option (list byte))) (w : World) :
  exists new,
    stored (snd (fetchRange cb name cfg cacheKeys lo ll m hits w)) = stored w ++ new
    /\ Forall (fun s => st_ttl s = subrangeTTL cfg
                        /\ (exists data, st_val s = Some data)
                        /\ exists x, cacheKeys !! x = Some (st_key s)) new.
Proof.
  unfold fetchRange, mbind, M_bind, logCall. cbv zeta.
  destruct (bkt_GetRange (cb_Bucket cb) name (rng_start m)
              (sub64 (rng_end m) (rng_start m))) as [err | data];
    [apply (stores_refl _ (mkWorld _ _ _))|].
  destruct (_ <? 0); [apply (stores_refl _ (mkWorld _ _ _))|].
  destruct (_ <? _); [apply (stores_refl _ (mkWorld _ _ _))|].
  apply (storeLoop_stores _ cfg cacheKeys lo ll m _ _ hits (mkWorld _ _ _)).
Qed.

Lemma fetchRanges_stores (cb : CachingBucket) (name : string) (cfg : getRangeConfig)
    (cacheKeys : gmap Z string) (lo ll : Z) (missing : list rng) :
  forall hits w,
    exists new,
      stored (snd (fetchRanges cb name cfg cacheKeys lo ll missing hits w)) = stored w ++ new
      /\ Forall (fun s => st_ttl s = subrangeTTL cfg
                          /\ (exists data, st_val s = Some data)
                          /\ exists x, cacheKeys !! x = Some (st_key s)) new.
Proof.
  induction missing as [|m rest IH]; intros hits w; cbn [fetchRanges];
    [apply stores_refl|].
  unfold mbind, M_bind.
  pose proof (fetchRange_stores cb name cfg cacheKeys lo ll m hits w) as H1.
  destruct (fetchRange cb name cfg cacheKeys lo ll m hits w) as [[h1 | | |] w1];
    cbn [snd] in *; try exact H1.
  eapply stores_trans; [exact H1 | apply IH].
Qed.

(** X20: whatever its outcome, [fetchMissingSubranges] adds to the cache only
    entries with the configured subrange TTL, under keys of the map of
    subrange keys it was given, and never a nil value. *)
Theorem fetchMissingSubranges_stores (cb : CachingBucket) (name : string)
    (startRange endRange : Z) (cacheKeys : gmap Z string)
    (hits : gmap string (option (list byte))) (lo ll : Z)
    (cfg : getRangeConfig) (w : World) :
  exists new,
    stored (snd (fetchMissingSubranges cb name startRange endRange cacheKeys hits lo ll cfg w))
    = stored w ++ new
    /\ Forall (fun s => st_ttl s = subrangeTTL cfg
                        /\ (exists data, st_val s = Some data)
                        /\ exists x, cacheKeys !! x = Some (st_key s)) new.
Proof.
  unfold fetchMissingSubranges.
  destruct (missingLoop _ _ _ _ _ _ _); [|apply stores_refl].
  destruct (mergeUntil _ _ _ _); [|apply stores_refl].
  apply fetchRanges_stores.
Qed.
